(** * Adaptive hp-FEM drivers of Hermes2D: crack, bracket and singpert

    A shallow embedding of the three example drivers

      - [tests/examples/crack/main.cpp]      (module [Crack]),
      - the bracket example                  (module [Bracket]),
      - the singular-perturbation benchmark  (module [Singpert]),

    together with the numeric contracts of the parts of the library the
    drivers call (error estimator, projector, element selection of
    [Adapt::adapt]).

    The drivers are sequential C++ programs whose only interesting
    behaviour is the order in which they call the library and the way they
    decide to stop.  Each [main] is embedded as a program in a small monad
    that threads the driver's variables, records every library call in a
    trace, and aborts on a failed linear solve.  The library itself is an
    interface ([Hermes2D], [Hermes2DLegacy]); every theorem about a driver
    holds for all implementations of that interface.

    C++ [double] is embedded as a binary64 float ([PrimFloat.float]) in the
    drivers, which only scale and compare the error estimate.  [int] DOF
    counts are embedded as [Z]; the drivers add two counts that are far
    below 2^31, and signed overflow (undefined in C++) is not modelled. *)

From Stdlib Require Import String ZArith List Bool Lia PrimFloat.
From Stdlib Require Import Reals Lra Permutation Sorted.
Import ListNotations.

Set Warnings "-inexact-float".

(* ================================================================== *)
(** * Traces, aborts and the driver monad *)
(* ================================================================== *)

(** The only failure the adaptivity loop can meet: the linear solve. *)
Inductive error : Type := SolverError.

Section DriverMonad.
Context {E S : Type}.

(** A computation ends normally with a value and the driver's
    variables, or it is aborted and leaves the variables as they were
    at the point of failure. *)
Inductive res (A : Type) : Type :=
  | Ok (a : A) (s : S)
  | Abort (e : error) (s : S).

Definition M (A : Type) : Type := S -> list E * res A.

Definition ret {A} (a : A) : M A := fun s => ([], Ok A a s).

Definition bind {A B} (m : M A) (k : A -> M B) : M B :=
  fun s =>
    match m s with
    | (t, Ok _ a s') => let (t', r) := k a s' in (t ++ t', r)
    | (t, Abort _ e s') => (t, Abort B e s')
    end.

Definition get : M S := fun s => ([], Ok S s s).
Definition put (s : S) : M unit := fun _ => ([], Ok unit tt s).
Definition modify (f : S -> S) : M unit := fun s => ([], Ok unit tt (f s)).

(** A call into the library that returns [a]; it is recorded as [ev]. *)
Definition call {A} (ev : E) (a : A) : M A := fun s => ([ev], Ok A a s).

(** Modelled from the spec: how a failed solve reaches the driver.  The
    solver is not part of the sources at hand; the spec has it fail with
    a SolverError that is fatal and propagated.  None of the drivers
    tests a return value of the solve or installs a handler around it,
    so a failure ends the run at the call: the call is recorded, the
    computation is aborted with [e], and the variables stay as they
    are. *)
Definition call_or_fail {A} (ev : E) (e : error) (o : option A) : M A :=
  fun s =>
    match o with
    | Some a => ([ev], Ok A a s)
    | None => ([ev], Abort A e s)
    end.

(** A point of the program that is recorded but computes nothing. *)
Definition mark (ev : E) : M unit := fun s => ([ev], Ok unit tt s).
End DriverMonad.

Arguments M : clear implicits.
Arguments res : clear implicits.
Arguments Ok {S A} a s.
Arguments Abort {S A} e s.

Declare Scope driver_scope.
Delimit Scope driver_scope with driver.
Notation "x <- m ;; k" := (bind m (fun x => k))
  (at level 61, m at next level, right associativity) : driver_scope.
Notation "m ;; k" := (bind m (fun _ => k))
  (at level 61, right associativity) : driver_scope.
Open Scope driver_scope.

(** How a bounded run of a [do ... while] loop ended. *)
Inductive loop_exit : Type :=
| LoopDone      (* the loop condition became false *)
| OutOfFuel.    (* the bound on the number of iterations was reached *)

(** [do body while (cond);] run for at most [fuel] passes through the
    body.  The body runs before the condition is tested. *)
Fixpoint do_while {E S : Type} (body : M E S unit) (cond : S -> bool) (fuel : nat)
  : M E S loop_exit :=
  match fuel with
  | O => ret OutOfFuel
  | S fuel' =>
      body ;;
      s <- get ;;
      if cond s then do_while body cond fuel' else ret LoopDone
  end.

(** How a bounded run of [main] ended. *)
Inductive outcome (S : Type) : Type :=
| Returned (code : Z) (s : S)
| Crashed (e : error) (s : S)
| Unfinished (s : S).
Arguments Returned {S} code s.
Arguments Crashed {S} e s.
Arguments Unfinished {S} s.

(* ================================================================== *)
(** * The library as the drivers see it *)
(* ================================================================== *)

Inductive BCType : Type := BC_ESSENTIAL | BC_NATURAL.
Inductive SymFlag : Type := H2D_UNSYM | H2D_SYM.
Inductive NormType : Type := H2D_H1_NORM.
Inductive MatrixSolverType : Type := SOLVER_UMFPACK | SOLVER_PETSC | SOLVER_MUMPS.
Inductive CandList : Type :=
| H2D_P_ISO | H2D_P_ANISO | H2D_H_ISO | H2D_H_ANISO
| H2D_HP_ISO | H2D_HP_ANISO_H | H2D_HP_ANISO_P | H2D_HP_ANISO.

(** Flags of [calc_elem_errors]/[calc_error]; the drivers pass
    [H2D_TOTAL_ERROR_REL | H2D_ELEMENT_ERROR_REL]. *)
Inductive ErrorFlag : Type :=
| H2D_TOTAL_ERROR_REL | H2D_TOTAL_ERROR_ABS
| H2D_ELEMENT_ERROR_REL | H2D_ELEMENT_ERROR_ABS.

(** The callbacks of [forms.cpp], which the drivers only name. *)
Inductive form_id : Type :=
| bilinear_form_0_0 | bilinear_form_0_1 | bilinear_form_1_0 | bilinear_form_1_1
| linear_form_surf_1.

(** One registration in a [WeakForm]. *)
Inductive wf_entry : Type :=
| matrix_form (i j : Z) (f : form_id) (sym : SymFlag)
| vector_form_surf (i : Z) (f : form_id) (marker : Z).

Record WeakForm : Type := { neq : Z; wf_entries : list wf_entry }.

Definition WeakForm_new (n : Z) : WeakForm := {| neq := n; wf_entries := [] |}.
Definition add_matrix_form (i j : Z) (f : form_id) (sym : SymFlag) (wf : WeakForm) :=
  {| neq := neq wf; wf_entries := wf_entries wf ++ [matrix_form i j f sym] |}.
Definition add_vector_form_surf (i : Z) (f : form_id) (marker : Z) (wf : WeakForm) :=
  {| neq := neq wf; wf_entries := wf_entries wf ++ [vector_form_surf i f marker] |}.

Definition H2DRS_DEFAULT_ORDER : Z := -1.

(** The two displacement components of the elasticity drivers. *)
Inductive comp : Type := U | V.

(** The part of Hermes2D that [crack] and [bracket] use.  Objects are
    values: an operation that mutates its receiver returns the new
    receiver.  A [Space] carries the mesh it was built or duplicated on,
    so [adapt], which reaches the coarse meshes through the spaces it was
    given, is a function of both meshes and both spaces and returns all
    four.  The projector and the estimator receive the coarse spaces
    too, but only read them.  [solve_linear] returns [None] when the
    matrix solver fails. *)
Class Hermes2D : Type := {
  Mesh : Type;
  Space : Type;
  Solution : Type;
  AdaptObj : Type;

  Mesh_new : Mesh;
  Solution_new : Solution;
  mloader_load : string -> Mesh -> Mesh;
  mesh_copy : Mesh -> Mesh;
  refine_all_elements : Mesh -> Mesh;
  refine_element : Z -> Mesh -> Mesh;

  H1Space_new : Mesh -> (Z -> BCType) -> (Z -> float -> float -> float) -> Z -> Space;
  space_dup : Space -> Mesh -> Space;
  copy_orders : Space -> Space -> Z -> Space;
  get_num_dofs : Space -> Z;

  solve_linear :
    Space * Space -> WeakForm -> MatrixSolverType -> option (Solution * Solution);
  project_global :
    Space * Space -> NormType * NormType -> Solution * Solution -> Solution * Solution;

  project_global_default :
    Space * Space -> Solution * Solution -> Solution * Solution;

  Adapt_new : Space * Space -> NormType * NormType -> AdaptObj;
  H1Adapt_new : Space * Space -> AdaptObj;
  set_solutions : Solution * Solution -> Solution * Solution -> AdaptObj -> AdaptObj;
  set_error_form : Z -> Z -> form_id -> AdaptObj -> AdaptObj;
  calc_elem_errors : list ErrorFlag -> AdaptObj -> float * AdaptObj;
  calc_error : list ErrorFlag -> AdaptObj -> float * AdaptObj;
  adapt :
    AdaptObj -> list (CandList * float * Z) -> float -> Z -> Z ->
    (Mesh * Mesh) * (Space * Space) -> ((Mesh * Mesh) * (Space * Space)) * bool
}.

(** Modelled from the spec: the free function
    [get_num_dofs(Tuple<Space *>)] of the library is not part of the
    sources at hand; it is the total DOF count across components, that
    is, the sum of [Space::get_num_dofs] over the tuple, the quantity the
    loop itself writes as
    [u_space.get_num_dofs() + v_space.get_num_dofs()]. *)
Definition get_num_dofs_tuple {L : Hermes2D} (spaces : list Space) : Z :=
  fold_right (fun sp acc => get_num_dofs sp + acc)%Z 0%Z spaces.

(** What a run of a driver does, in program order.  [crack] and [bracket]
    build the reference problem themselves and project the reference
    solution; [singpert] solves on the coarse mesh and leaves the
    reference problem to [RefSystem]. *)
Inductive event (Sp : Type) : Type :=
| EvMeshCopy (c : comp)                       (* ref_c_mesh.copy(&c_mesh) *)
| EvRefineAll (c : comp)                      (* ref_c_mesh.refine_all_elements() *)
| EvSpaceDup (c : comp)                       (* c_space.dup(&ref_c_mesh) *)
| EvCopyOrders (c : comp) (order_increase : Z)
| EvSolveLinear (ref_spaces : Sp * Sp)        (* solve_linear on the reference spaces *)
| EvProjectGlobal
| EvCalcError
| EvStopCheck (err_est : float) (ndof : Z)    (* the [if] that decides to stop, with the
                                                 estimate and the DOF count at that point *)
| EvAdapt (thr : float) (strat : Z) (regularity : Z)
| EvCoarseSolve                               (* ls.assemble(); ls.solve(1, &sln_coarse) *)
| EvExactError                                (* h1_error(&sln_coarse, &exact) *)
| EvRefSolve                                  (* rs.assemble(); rs.solve(1, &sln_fine) *)
| EvAssignDofs.
Arguments EvMeshCopy {Sp} c.
Arguments EvRefineAll {Sp} c.
Arguments EvSpaceDup {Sp} c.
Arguments EvCopyOrders {Sp} c order_increase.
Arguments EvSolveLinear {Sp} ref_spaces.
Arguments EvProjectGlobal {Sp}.
Arguments EvCalcError {Sp}.
Arguments EvStopCheck {Sp} err_est ndof.
Arguments EvAdapt {Sp} thr strat regularity.
Arguments EvCoarseSolve {Sp}.
Arguments EvExactError {Sp}.
Arguments EvRefSolve {Sp}.
Arguments EvAssignDofs {Sp}.

Section EventKinds.
Context {Sp : Type}.

Definition is_adapt (e : event Sp) : bool :=
  match e with EvAdapt _ _ _ => true | _ => false end.
Definition is_solve (e : event Sp) : bool :=
  match e with EvSolveLinear _ | EvCoarseSolve | EvRefSolve => true | _ => false end.
Definition is_project (e : event Sp) : bool :=
  match e with EvProjectGlobal => true | _ => false end.
Definition is_calc_error (e : event Sp) : bool :=
  match e with EvCalcError => true | _ => false end.
Definition is_stop_check (e : event Sp) : bool :=
  match e with EvStopCheck _ _ => true | _ => false end.
Definition is_refine_all (c : comp) (e : event Sp) : bool :=
  match e, c with
  | EvRefineAll U, U => true
  | EvRefineAll V, V => true
  | _, _ => false
  end.

(** The calls that build a reference mesh or a reference space. *)
Definition is_build (e : event Sp) : bool :=
  match e with
  | EvMeshCopy _ | EvRefineAll _ | EvSpaceDup _ | EvCopyOrders _ _ => true
  | _ => false
  end.

(** The part of a trace that precedes its first stopping test, and
    whether there is such a test at all. *)
Fixpoint before_first_check (t : list (event Sp)) : list (event Sp) * bool :=
  match t with
  | [] => ([], false)
  | e :: t' =>
      if is_stop_check e then ([], true)
      else let (pre, found) := before_first_check t' in (e :: pre, found)
  end.
End EventKinds.

Section DriverState.
Context {L : Hermes2D}.

(** The variables of [main] that live across iterations. *)
Record state : Type := {
    u_mesh : Mesh;
    v_mesh : Mesh;
    u_space : Space;
    v_space : Space;
    u_sln : Solution;
    v_sln : Solution;
    ref_u_sln : Solution;
    ref_v_sln : Solution;
    as_step : Z;
    done : bool
  }.

Definition set_ref_slns (r : Solution * Solution) (st : state) : state :=
  {| u_mesh := u_mesh st; v_mesh := v_mesh st;
     u_space := u_space st; v_space := v_space st;
     u_sln := u_sln st; v_sln := v_sln st;
     ref_u_sln := fst r; ref_v_sln := snd r;
     as_step := as_step st; done := done st |}.

Definition set_slns (r : Solution * Solution) (st : state) : state :=
  {| u_mesh := u_mesh st; v_mesh := v_mesh st;
     u_space := u_space st; v_space := v_space st;
     u_sln := fst r; v_sln := snd r;
     ref_u_sln := ref_u_sln st; ref_v_sln := ref_v_sln st;
     as_step := as_step st; done := done st |}.

Definition set_coarse (c : (Mesh * Mesh) * (Space * Space)) (st : state) : state :=
  {| u_mesh := fst (fst c); v_mesh := snd (fst c);
     u_space := fst (snd c); v_space := snd (snd c);
     u_sln := u_sln st; v_sln := v_sln st;
     ref_u_sln := ref_u_sln st; ref_v_sln := ref_v_sln st;
     as_step := as_step st; done := done st |}.

Definition set_done (b : bool) (st : state) : state :=
  {| u_mesh := u_mesh st; v_mesh := v_mesh st;
     u_space := u_space st; v_space := v_space st;
     u_sln := u_sln st; v_sln := v_sln st;
     ref_u_sln := ref_u_sln st; ref_v_sln := ref_v_sln st;
     as_step := as_step st; done := b |}.

Definition incr_as (st : state) : state :=
  {| u_mesh := u_mesh st; v_mesh := v_mesh st;
     u_space := u_space st; v_space := v_space st;
     u_sln := u_sln st; v_sln := v_sln st;
     ref_u_sln := ref_u_sln st; ref_v_sln := ref_v_sln st;
     as_step := (as_step st + 1)%Z; done := done st |}.

(** The coarse problem: what an iteration refines and the next one
    starts from. *)
Definition coarse (st : state) : (Mesh * Mesh) * (Space * Space) :=
  ((u_mesh st, v_mesh st), (u_space st, v_space st)).

(** [u_space.get_num_dofs() + v_space.get_num_dofs()]. *)
Definition total_ndof (st : state) : Z :=
  (get_num_dofs (u_space st) + get_num_dofs (v_space st))%Z.
End DriverState.

(* ================================================================== *)
(** * [tests/examples/crack/main.cpp] *)
(* ================================================================== *)

(** Logging ([info], [printf]) only observes the run, and
    [init_matrix_solver] only allocates; both are left out. *)
Module Crack.

Definition INIT_REF_NUM : Z := 0.
Definition P_INIT : Z := 2.
Definition MULTI : bool := true.
Definition THRESHOLD_MULTI : float := 0.35.
Definition THRESHOLD_SINGLE : float := 0.7.
Definition STRATEGY : Z := 0.
Definition CAND_LIST : CandList := H2D_HP_ANISO.
Definition MESH_REGULARITY : Z := -1.
Definition CONV_EXP : float := 1.0.
Definition ERR_STOP : float := 0.5.
Definition NDOF_STOP : Z := 60000.
Definition matrix_solver : MatrixSolverType := SOLVER_UMFPACK.

Definition BDY_LEFT : Z := 1.
Definition BDY_TOP : Z := 2.

Definition bc_types_xy (marker : Z) : BCType :=
  if (marker =? BDY_LEFT)%Z then BC_ESSENTIAL else BC_NATURAL.

Definition essential_bc_values (ess_bdy_marker : Z) (x y : float) : float := 0.

Definition ERROR_SUCCESS : Z := 0.
Definition ERROR_FAILURE : Z := -1.
Definition ndof_allowed : Z := 650.

Section Driver.
Context {L : Hermes2D}.

Definition wf : WeakForm :=
  add_vector_form_surf 1 linear_form_surf_1 BDY_TOP
    (add_matrix_form 1 1 bilinear_form_1_1 H2D_SYM
       (add_matrix_form 0 1 bilinear_form_0_1 H2D_SYM
          (add_matrix_form 0 0 bilinear_form_0_0 H2D_SYM (WeakForm_new 2)))).

Definition selector : CandList * float * Z :=
  (CAND_LIST, CONV_EXP, H2DRS_DEFAULT_ORDER).

(** Everything [main] does before the loop. *)
Definition init_state : state :=
  let u_mesh := mloader_load "crack.mesh" Mesh_new in
  let u_mesh := Nat.iter (Z.to_nat INIT_REF_NUM) refine_all_elements u_mesh in
  let v_mesh := mesh_copy u_mesh in
  let u_space := H1Space_new u_mesh bc_types_xy essential_bc_values P_INIT in
  let v_space :=
    H1Space_new (if MULTI then v_mesh else u_mesh)
                bc_types_xy essential_bc_values P_INIT in
  {| u_mesh := u_mesh; v_mesh := v_mesh;
     u_space := u_space; v_space := v_space;
     u_sln := Solution_new; v_sln := Solution_new;
     ref_u_sln := Solution_new; ref_v_sln := Solution_new;
     as_step := 1; done := false |}.

(** One pass through the body of the [do ... while]. *)
Definition iteration : M (event Space) state unit :=
  st <- get ;;
  (* Construct globally refined reference meshes. *)
  ref_u_mesh <- call (EvMeshCopy U) (mesh_copy (u_mesh st)) ;;
  ref_v_mesh <- call (EvMeshCopy V) (mesh_copy (v_mesh st)) ;;
  ref_u_mesh <- call (EvRefineAll U) (refine_all_elements ref_u_mesh) ;;
  ref_v_mesh <- call (EvRefineAll V) (refine_all_elements ref_v_mesh) ;;
  (* Setup spaces for the reference solution. *)
  ref_u_space <- call (EvSpaceDup U) (space_dup (u_space st) ref_u_mesh) ;;
  ref_v_space <- call (EvSpaceDup V) (space_dup (v_space st) ref_v_mesh) ;;
  let order_increase := 1%Z in
  ref_u_space <- call (EvCopyOrders U order_increase)
                      (copy_orders ref_u_space (u_space st) order_increase) ;;
  ref_v_space <- call (EvCopyOrders V order_increase)
                      (copy_orders ref_v_space (v_space st) order_increase) ;;
  (* Solve the reference problem. *)
  ref_slns <- call_or_fail (EvSolveLinear (ref_u_space, ref_v_space)) SolverError
                (solve_linear (ref_u_space, ref_v_space) wf matrix_solver) ;;
  modify (set_ref_slns ref_slns) ;;
  (* Project the reference solutions on the coarse meshes. *)
  st <- get ;;
  slns <- call EvProjectGlobal
            (project_global (u_space st, v_space st) (H2D_H1_NORM, H2D_H1_NORM)
                            (ref_u_sln st, ref_v_sln st)) ;;
  modify (set_slns slns) ;;
  (* Calculate error estimate wrt. reference solution in energy norm. *)
  st <- get ;;
  let hp := Adapt_new (u_space st, v_space st) (H2D_H1_NORM, H2D_H1_NORM) in
  let hp := set_solutions (u_sln st, v_sln st) (ref_u_sln st, ref_v_sln st) hp in
  let hp := set_error_form 0 0 bilinear_form_0_0 hp in
  let hp := set_error_form 0 1 bilinear_form_0_1 hp in
  let hp := set_error_form 1 0 bilinear_form_1_0 hp in
  let hp := set_error_form 1 1 bilinear_form_1_1 hp in
  r <- call EvCalcError
         (calc_elem_errors [H2D_TOTAL_ERROR_REL; H2D_ELEMENT_ERROR_REL] hp) ;;
  let err_est := (fst r * 100)%float in
  let hp := snd r in
  (* If err_est too large, adapt the mesh. *)
  mark (EvStopCheck err_est (total_ndof st)) ;;
  (if (err_est <? ERR_STOP)%float || (NDOF_STOP <=? total_ndof st)%Z
   then modify (set_done true)
   else
     a <- call (EvAdapt (if MULTI then THRESHOLD_MULTI else THRESHOLD_SINGLE)
                        STRATEGY MESH_REGULARITY)
            (adapt hp [selector; selector]
                   (if MULTI then THRESHOLD_MULTI else THRESHOLD_SINGLE)
                   STRATEGY MESH_REGULARITY (coarse st)) ;;
     modify (fun st => set_done (snd a) (set_coarse (fst a) st)) ;;
     st <- get ;;
     if (NDOF_STOP <=? total_ndof st)%Z then modify (set_done true) else ret tt) ;;
  modify incr_as.

(** [do { ... } while (!done);], run for at most [fuel] iterations. *)
Definition adaptivity_loop (fuel : nat) : M (event Space) state loop_exit :=
  do_while iteration (fun st => negb (done st)) fuel.

(** The test's verdict on the final number of degrees of freedom. *)
Definition exit_code (st : state) : Z :=
  let ndof := get_num_dofs_tuple [u_space st; v_space st] in
  if (ndof <=? ndof_allowed)%Z then ERROR_SUCCESS else ERROR_FAILURE.

Definition main (fuel : nat) : list (event Space) * outcome state :=
  match adaptivity_loop fuel init_state with
  | (t, Ok LoopDone st) => (t, Returned (exit_code st) st)
  | (t, Ok OutOfFuel st) => (t, Unfinished st)
  | (t, Abort e st) => (t, Crashed e st)
  end.
End Driver.
End Crack.

(* ================================================================== *)
(** * The bracket example *)
(* ================================================================== *)

(** Views, convergence graphs and time measurement only observe the run
    and are left out. *)
Module Bracket.

Definition P_INIT : Z := 2.
Definition MULTI : bool := true.
Definition THRESHOLD : float := 0.3.
Definition STRATEGY : Z := 1.
Definition CAND_LIST : CandList := H2D_HP_ANISO.
Definition MESH_REGULARITY : Z := -1.
Definition CONV_EXP : float := 1.0.
Definition ERR_STOP : float := 0.5.
Definition NDOF_STOP : Z := 60000.

Definition BDY_LEFT : Z := 1.
Definition BDY_TOP : Z := 2.

Definition bc_types (marker : Z) : BCType :=
  if (marker =? BDY_LEFT)%Z then BC_ESSENTIAL else BC_NATURAL.

Definition essential_bc_values (ess_bdy_marker : Z) (x y : float) : float := 0.

Section Driver.
Context {L : Hermes2D}.

Definition wf : WeakForm :=
  add_vector_form_surf 1 linear_form_surf_1 BDY_TOP
    (add_matrix_form 1 1 bilinear_form_1_1 H2D_SYM
       (add_matrix_form 0 1 bilinear_form_0_1 H2D_SYM
          (add_matrix_form 0 0 bilinear_form_0_0 H2D_SYM (WeakForm_new 2)))).

Definition selector : CandList * float * Z :=
  (CAND_LIST, CONV_EXP, H2DRS_DEFAULT_ORDER).

Definition init_state : state :=
  let u_mesh := mloader_load "bracket.mesh" Mesh_new in
  (* Initial mesh refinements. *)
  let u_mesh := refine_element 1 u_mesh in
  let u_mesh := refine_element 4 u_mesh in
  let v_mesh := mesh_copy u_mesh in
  let u_space := H1Space_new u_mesh bc_types essential_bc_values P_INIT in
  let v_space :=
    H1Space_new (if MULTI then v_mesh else u_mesh)
                bc_types essential_bc_values P_INIT in
  {| u_mesh := u_mesh; v_mesh := v_mesh;
     u_space := u_space; v_space := v_space;
     u_sln := Solution_new; v_sln := Solution_new;
     ref_u_sln := Solution_new; ref_v_sln := Solution_new;
     as_step := 1; done := false |}.

Definition iteration : M (event Space) state unit :=
  st <- get ;;
  (* Construct globally refined reference meshes. *)
  ref_u_mesh <- call (EvMeshCopy U) (mesh_copy (u_mesh st)) ;;
  ref_v_mesh <- call (EvMeshCopy V) (mesh_copy (v_mesh st)) ;;
  ref_u_mesh <- call (EvRefineAll U) (refine_all_elements ref_u_mesh) ;;
  ref_v_mesh <- call (EvRefineAll V) (refine_all_elements ref_v_mesh) ;;
  (* Setup spaces for the reference solution. *)
  ref_u_space <- call (EvSpaceDup U) (space_dup (u_space st) ref_u_mesh) ;;
  ref_v_space <- call (EvSpaceDup V) (space_dup (v_space st) ref_v_mesh) ;;
  let order_increase := 1%Z in
  ref_u_space <- call (EvCopyOrders U order_increase)
                      (copy_orders ref_u_space (u_space st) order_increase) ;;
  ref_v_space <- call (EvCopyOrders V order_increase)
                      (copy_orders ref_v_space (v_space st) order_increase) ;;
  (* Solve the reference problem. *)
  ref_slns <- call_or_fail (EvSolveLinear (ref_u_space, ref_v_space)) SolverError
                (solve_linear (ref_u_space, ref_v_space) wf SOLVER_UMFPACK) ;;
  modify (set_ref_slns ref_slns) ;;
  (* Project the reference solutions on the coarse meshes. *)
  st <- get ;;
  slns <- call EvProjectGlobal
            (project_global_default (u_space st, v_space st)
                                    (ref_u_sln st, ref_v_sln st)) ;;
  modify (set_slns slns) ;;
  (* Calculate element errors and total error estimate. *)
  st <- get ;;
  let hp := H1Adapt_new (u_space st, v_space st) in
  let hp := set_solutions (u_sln st, v_sln st) (ref_u_sln st, ref_v_sln st) hp in
  let hp := set_error_form 0 0 bilinear_form_0_0 hp in
  let hp := set_error_form 0 1 bilinear_form_0_1 hp in
  let hp := set_error_form 1 0 bilinear_form_1_0 hp in
  let hp := set_error_form 1 1 bilinear_form_1_1 hp in
  r <- call EvCalcError
         (calc_error [H2D_TOTAL_ERROR_REL; H2D_ELEMENT_ERROR_REL] hp) ;;
  let err_est := (fst r * 100)%float in
  let hp := snd r in
  (* If err_est too large, adapt the mesh. *)
  mark (EvStopCheck err_est (total_ndof st)) ;;
  (if (err_est <? ERR_STOP)%float
   then modify (set_done true)
   else
     a <- call (EvAdapt THRESHOLD STRATEGY MESH_REGULARITY)
            (adapt hp [selector] THRESHOLD STRATEGY MESH_REGULARITY (coarse st)) ;;
     modify (fun st => set_done (snd a) (set_coarse (fst a) st)) ;;
     st <- get ;;
     if (NDOF_STOP <=? total_ndof st)%Z then modify (set_done true) else ret tt) ;;
  modify incr_as.

(** [do { ... } while (!done);] *)
Definition adaptivity_loop (fuel : nat) : M (event Space) state loop_exit :=
  do_while iteration (fun st => negb (done st)) fuel.

Definition main (fuel : nat) : list (event Space) * outcome state :=
  match adaptivity_loop fuel init_state with
  | (t, Ok LoopDone st) => (t, Returned 0 st)
  | (t, Ok OutOfFuel st) => (t, Unfinished st)
  | (t, Abort e st) => (t, Crashed e st)
  end.
End Driver.
End Bracket.

(* ================================================================== *)
(** * The singular-perturbation benchmark *)
(* ================================================================== *)

Inductive AllowedCandidates : Type := H2DRS_CAND_P_ONLY | H2DRS_CAND_H_ONLY | H2DRS_CAND_HP.

(** This driver is written against the older interface of the library:
    it solves on the coarse mesh itself and lets [RefSystem] build the
    reference problem.  The exact solution [fn]/[fndd] and the right-hand
    side are callbacks handed to the library; they do not take part in the
    control flow and are represented by the library operations that
    consume them. *)
Class Hermes2DLegacy : Type := {
  LMesh : Type;
  LSpace : Type;
  LSolution : Type;
  LAdapt : Type;

  LSolution_new : LSolution;
  l_load : string -> LMesh;
  l_refine_all_elements : LMesh -> LMesh;
  l_H1Space_new : LMesh -> (Z -> BCType) -> LSpace;
  set_uniform_order : Z -> LSpace -> LSpace;
  assign_dofs : LSpace -> Z * LSpace;
  l_get_num_dofs : LSpace -> Z;

  (* LinSystem ls(&wf, &solver); ls.set_spaces; ls.set_pss; ls.assemble(); ls.solve *)
  ls_solve : LMesh * LSpace -> option LSolution;
  (* ExactSolution exact(&mesh, fndd); h1_error(&sln_coarse, &exact) *)
  h1_error_exact : LSolution -> LMesh -> float;
  (* RefSystem rs(&ls); rs.assemble(); rs.solve *)
  rs_solve : LMesh * LSpace -> option LSolution;
  (* H1AdaptHP hp(1, &space); hp.calc_error(&sln_coarse, &sln_fine) *)
  hp_calc_error : LSpace -> LSolution -> LSolution -> float * LAdapt;
  (* hp.adapt(thr, strat, &selector, regularity) *)
  hp_adapt :
    LAdapt -> float -> Z -> bool * AllowedCandidates * float * Z -> Z ->
    LMesh * LSpace -> (LMesh * LSpace) * bool
}.

Module Singpert.

Definition INIT_REF_NUM : Z := 1.
Definition P_INIT : Z := 1.
Definition THRESHOLD : float := 0.3.
Definition STRATEGY : Z := 0.
Definition ADAPT_TYPE : AllowedCandidates := H2DRS_CAND_HP.
Definition ISO_ONLY : bool := false.
Definition MESH_REGULARITY : Z := -1.
Definition ERR_STOP : float := 0.0001.
Definition NDOF_STOP : Z := 100000.

Definition bc_types (marker : Z) : BCType :=
  if (marker =? 1)%Z then BC_ESSENTIAL else BC_NATURAL.

Section Driver.
Context {L : Hermes2DLegacy}.

Record state : Type := {
    mesh : LMesh;
    space : LSpace;
    ndof : Z;
    sln_coarse : LSolution;
    sln_fine : LSolution;
    it : Z;
    done : bool
  }.

Definition set_sln_coarse (s : LSolution) (st : state) : state :=
  {| mesh := mesh st; space := space st; ndof := ndof st;
     sln_coarse := s; sln_fine := sln_fine st; it := it st; done := done st |}.
Definition set_sln_fine (s : LSolution) (st : state) : state :=
  {| mesh := mesh st; space := space st; ndof := ndof st;
     sln_coarse := sln_coarse st; sln_fine := s; it := it st; done := done st |}.
Definition set_coarse (c : LMesh * LSpace) (st : state) : state :=
  {| mesh := fst c; space := snd c; ndof := ndof st;
     sln_coarse := sln_coarse st; sln_fine := sln_fine st;
     it := it st; done := done st |}.
Definition set_ndof (r : Z * LSpace) (st : state) : state :=
  {| mesh := mesh st; space := snd r; ndof := fst r;
     sln_coarse := sln_coarse st; sln_fine := sln_fine st;
     it := it st; done := done st |}.
Definition set_done (b : bool) (st : state) : state :=
  {| mesh := mesh st; space := space st; ndof := ndof st;
     sln_coarse := sln_coarse st; sln_fine := sln_fine st;
     it := it st; done := b |}.
Definition incr_it (st : state) : state :=
  {| mesh := mesh st; space := space st; ndof := ndof st;
     sln_coarse := sln_coarse st; sln_fine := sln_fine st;
     it := (it st + 1)%Z; done := done st |}.

(** [H1UniformHP selector(ISO_ONLY, ADAPT_TYPE, 1.0, H2DRS_DEFAULT_ORDER, &shapeset)] *)
Definition selector : bool * AllowedCandidates * float * Z :=
  (ISO_ONLY, ADAPT_TYPE, 1.0%float, H2DRS_DEFAULT_ORDER).

Definition init_state : state :=
  let mesh := l_load "square_quad.mesh" in
  let mesh := Nat.iter (Z.to_nat INIT_REF_NUM) l_refine_all_elements mesh in
  let space := l_H1Space_new mesh bc_types in
  let space := set_uniform_order P_INIT space in
  let r := assign_dofs space in
  {| mesh := mesh; space := snd r; ndof := fst r;
     sln_coarse := LSolution_new; sln_fine := LSolution_new;
     it := 1; done := false |}.

Definition iteration : M (event LSpace) state unit :=
  modify incr_it ;;
  (* solve the coarse mesh problem *)
  st <- get ;;
  c <- call_or_fail EvCoarseSolve SolverError (ls_solve (mesh st, space st)) ;;
  modify (set_sln_coarse c) ;;
  (* calculate error wrt. exact solution *)
  st <- get ;;
  e <- call EvExactError (h1_error_exact (sln_coarse st) (mesh st)) ;;
  let error := (e * 100)%float in
  (* solve the fine mesh problem *)
  f <- call_or_fail EvRefSolve SolverError (rs_solve (mesh st, space st)) ;;
  modify (set_sln_fine f) ;;
  (* calculate error estimate wrt. fine mesh solution *)
  st <- get ;;
  r <- call EvCalcError (hp_calc_error (space st) (sln_coarse st) (sln_fine st)) ;;
  let err_est := (fst r * 100)%float in
  let hp := snd r in
  (* if err_est too large, adapt the mesh *)
  mark (EvStopCheck err_est (ndof st)) ;;
  if (err_est <? ERR_STOP)%float
  then modify (set_done true)
  else
    a <- call (EvAdapt THRESHOLD STRATEGY MESH_REGULARITY)
           (hp_adapt hp THRESHOLD STRATEGY selector MESH_REGULARITY
                     (mesh st, space st)) ;;
    modify (set_coarse (fst a)) ;;
    st <- get ;;
    n <- call EvAssignDofs (assign_dofs (space st)) ;;
    modify (set_ndof n) ;;
    st <- get ;;
    if (NDOF_STOP <=? ndof st)%Z then modify (set_done true) else ret tt.

(** [do { ... } while (done == false);] *)
Definition adaptivity_loop (fuel : nat) : M (event LSpace) state loop_exit :=
  do_while iteration (fun st => Bool.eqb (done st) false) fuel.

Definition main (fuel : nat) : list (event LSpace) * outcome state :=
  match adaptivity_loop fuel init_state with
  | (t, Ok LoopDone st) => (t, Returned 0 st)
  | (t, Ok OutOfFuel st) => (t, Unfinished st)
  | (t, Abort e st) => (t, Crashed e st)
  end.
End Driver.
End Singpert.


(* ================================================================== *)
(** * What the drivers are checked against *)
(* ================================================================== *)

Section ReferenceProblem.
Context {L : Hermes2D}.

(** The reference problem in the words of the specification: deep-copy
    the coarse mesh, split every element once, duplicate the coarse space
    onto the refined copy, raise every order by the constant. *)
Definition reference_mesh_spec (m : Mesh) : Mesh :=
  refine_all_elements (mesh_copy m).

Definition reference_space_spec (increase : Z) (m : Mesh) (sp : Space) : Space :=
  copy_orders (space_dup sp (reference_mesh_spec m)) sp increase.

Definition reference_spaces_spec (st : state) : Space * Space :=
  (reference_space_spec 1 (u_mesh st) (u_space st),
   reference_space_spec 1 (v_mesh st) (v_space st)).

(** The library calls that build the reference problem, in the order
    both elasticity drivers make them. *)
Definition build_trace : list (event Space) :=
  [EvMeshCopy U; EvMeshCopy V; EvRefineAll U; EvRefineAll V;
   EvSpaceDup U; EvSpaceDup V; EvCopyOrders U 1; EvCopyOrders V 1].
End ReferenceProblem.

Section TraceProperties.
Context {Sp : Type}.

(** A run has estimated the error before it first tests whether to stop:
    a solve, a projection and an error calculation precede the first
    stopping test of the trace. *)
Definition estimated_before_check (t : list (event Sp)) : bool :=
  let (pre, found) := before_first_check t in
  found && existsb is_solve pre && existsb is_project pre && existsb is_calc_error pre.

(** The same without the projection. *)
Definition solved_before_check (t : list (event Sp)) : bool :=
  let (pre, found) := before_first_check t in
  found && existsb is_solve pre && existsb is_calc_error pre.

Definition count_events (p : event Sp -> bool) (t : list (event Sp)) : nat :=
  length (filter p t).
End TraceProperties.

(** [n] passes through a loop body that all complete and all leave the
    loop condition true: the trace they produce and the variables they
    leave behind. *)
Fixpoint completed_iterations {E S : Type} (body : M E S unit) (cond : S -> bool)
    (n : nat) (s : S) : option (list E * S) :=
  match n with
  | O => Some ([], s)
  | S n' =>
      match body s with
      | (t, Ok _ s') =>
          if cond s' then
            match completed_iterations body cond n' s' with
            | Some (t', s'') => Some (t ++ t', s'')
            | None => None
            end
          else None
      | (_, Abort _ _) => None
      end
  end.

(* ================================================================== *)
(** * A small implementation of the library, to run the drivers on *)
(* ================================================================== *)

Module Toy.

(** A mesh is its number of elements and a space the number of elements
    and a uniform order.  Everything else is fixed by three knobs. *)
Record params : Type := {
  elems : Z;               (* elements in the mesh file *)
  estimate : Z -> float;   (* error reported for a coarse problem with that many DOFs *)
  solver_ok : Z -> bool;   (* does the solve succeed with that many reference DOFs *)
  adapt_done : bool        (* what adapt returns *)
}.

Definition dofs (sp : Z * Z) : Z := (fst sp * snd sp * snd sp)%Z.

Definition grow (c : (Z * Z) * ((Z * Z) * (Z * Z))) : (Z * Z) * ((Z * Z) * (Z * Z)) :=
  let '((m1, m2), ((n1, p1), (n2, p2))) := c in
  ((m1 + 3, m2 + 3), ((n1 + 3, p1), (n2 + 3, p2)))%Z.

Definition lib (p : params) : Hermes2D := {|
  Mesh := Z;
  Space := Z * Z;
  Solution := unit;
  AdaptObj := Z;
  Mesh_new := 0%Z;
  Solution_new := tt;
  mloader_load := fun _ _ => elems p;
  mesh_copy := fun m => m;
  refine_all_elements := fun m => (4 * m)%Z;
  refine_element := fun _ m => (m + 3)%Z;
  H1Space_new := fun m _ _ order => (m, order);
  space_dup := fun sp m => (m, snd sp);
  copy_orders := fun dst src inc => (fst dst, snd src + inc)%Z;
  get_num_dofs := dofs;
  solve_linear := fun sps _ _ =>
    if solver_ok p (dofs (fst sps) + dofs (snd sps))%Z then Some (tt, tt) else None;
  project_global := fun _ _ _ => (tt, tt);
  project_global_default := fun _ _ => (tt, tt);
  Adapt_new := fun sps _ => (dofs (fst sps) + dofs (snd sps))%Z;
  H1Adapt_new := fun sps => (dofs (fst sps) + dofs (snd sps))%Z;
  set_solutions := fun _ _ hp => hp;
  set_error_form := fun _ _ _ hp => hp;
  calc_elem_errors := fun _ hp => (estimate p hp, hp);
  calc_error := fun _ hp => (estimate p hp, hp);
  adapt := fun _ _ _ _ _ c => (grow c, adapt_done p)
|}.

Definition legacy (p : params) : Hermes2DLegacy := {|
  LMesh := Z;
  LSpace := Z * Z;
  LSolution := unit;
  LAdapt := Z;
  LSolution_new := tt;
  l_load := fun _ => elems p;
  l_refine_all_elements := fun m => (4 * m)%Z;
  l_H1Space_new := fun m _ => (m, 0%Z);
  set_uniform_order := fun order sp => (fst sp, order);
  assign_dofs := fun sp => (dofs sp, sp);
  l_get_num_dofs := dofs;
  ls_solve := fun c => if solver_ok p (dofs (snd c)) then Some tt else None;
  h1_error_exact := fun _ _ => 0%float;
  rs_solve := fun c => if solver_ok p (dofs (snd c)) then Some tt else None;
  hp_calc_error := fun sp _ _ => (estimate p (dofs sp), dofs sp);
  hp_adapt := fun _ _ _ _ _ c => ((fst c + 3, (fst (snd c) + 3, snd (snd c)))%Z, adapt_done p)
|}.

(** The variables of an elasticity driver when both meshes have [m]
    elements of order 2. *)
Definition vars (p : params) (m step : Z) (d : bool) : @state (lib p) :=
  @Build_state (lib p) m m (m, 2%Z) (m, 2%Z) tt tt tt tt step d.

(** A small problem whose estimate is 0.2 percent from the start. *)
Definition converged : params :=
  {| elems := 10; estimate := fun _ => 0.002%float;
     solver_ok := fun _ => true; adapt_done := false |}.

(** A large problem, at the DOF cap of the elasticity drivers from the
    start, whose estimate stays at 100 percent. *)
Definition at_cap : params :=
  {| elems := 7500; estimate := fun _ => 1%float;
     solver_ok := fun _ => true; adapt_done := false |}.

(** A problem that needs refinement: the estimate drops below the
    tolerance once the coarse problem has more than 100 DOFs. *)
Definition refining : params :=
  {| elems := 10;
     estimate := fun n => if (100 <? n)%Z then 0.001%float else 0.05%float;
     solver_ok := fun _ => true; adapt_done := false |}.

(** The same problem with a solver that fails once the reference problem
    has more than 800 DOFs, which happens in the second iteration. *)
Definition failing : params :=
  {| elems := 10;
     estimate := fun n => if (100 <? n)%Z then 0.001%float else 0.05%float;
     solver_ok := fun n => (n <=? 800)%Z; adapt_done := false |}.

(** A problem too large for the verdict of the crack test. *)
Definition too_large : params :=
  {| elems := 100; estimate := fun _ => 0.002%float;
     solver_ok := fun _ => true; adapt_done := false |}.

End Toy.


(* ================================================================== *)
(** * The numeric contracts of the library *)
(* ================================================================== *)

(** The estimator, the projector and the element selection of
    [Adapt::adapt] are called by the drivers but are not among the
    sources at hand.  They are modelled from the specification, over the
    real numbers: the contracts are statements of exact arithmetic. *)

(** Modelled from the spec: the per-element error record, which the
    estimator of [Adapt] (missing from the sources) produces afresh in
    every iteration and the element selection consumes.  A record holds
    the position of the element among the coarse elements and the
    quantity the estimator accumulates for it, the element's squared
    error. *)
Record ElementErrorRecord : Type := { elem_id : nat; err_squared : R }.

Module Estimator.
Open Scope R_scope.

(** Modelled from the spec: the setting of the Projector and the Error
    Estimator, which are missing from the sources.  Solutions are
    functions on the domain ([Fn]); the coarse mesh has a list of
    elements; [error_form e] is the symmetric bilinear error form
    restricted to the region of element [e]; [proj_norm] is the norm the
    projector minimises; [in_coarse] says that a function is exactly
    representable in the coarse space. *)
Class FunctionSpace : Type := {
  Fn : Type;
  fsub : Fn -> Fn -> Fn;
  fzero : Fn;
  fscale : R -> Fn -> Fn;
  Elem : Type;
  elements : list Elem;
  error_form : Elem -> Fn -> Fn -> R;
  proj_norm : Fn -> R;
  in_coarse : Fn -> Prop
}.

(** The algebra the contracts rest on: a function minus itself is the
    zero function, the zero function is zero times any function, the
    error form is homogeneous in its first argument, and the projector's
    norm is a norm (non-negative, zero exactly on the zero
    difference). *)
Class FunctionSpaceLaws (FS : FunctionSpace) : Prop := {
  fsub_diag : forall u, fsub u u = fzero;
  fscale_zero : forall u, fscale 0 u = fzero;
  error_form_scale : forall e k u v, error_form e (fscale k u) v = k * error_form e u v;
  proj_norm_nonneg : forall u, 0 <= proj_norm u;
  proj_norm_zero : proj_norm fzero = 0;
  proj_norm_definite : forall u v, proj_norm (fsub u v) = 0 -> v = u
}.

Section Estimate.
Context {FS : FunctionSpace}.

Definition Rsum (l : list R) : R := fold_right Rplus 0 l.

(** Modelled from the spec: the squared error of one coarse element,
    "the bilinear form of (reference - coarse) against itself over that
    element's region". *)
Definition elem_error_squared (coarse ref : Fn) (e : Elem) : R :=
  error_form e (fsub ref coarse) (fsub ref coarse).

(** Modelled from the spec: the per-element error record and the total
    squared error accumulated over the coarse elements. *)
Definition elem_errors_squared (coarse ref : Fn) : list R :=
  map (elem_error_squared coarse ref) elements.

Definition total_error_squared (coarse ref : Fn) : R :=
  Rsum (elem_errors_squared coarse ref).

(** Modelled from the spec: the "reference-energy normalization term",
    accumulated over the same elements; the normalization is the norm
    of the reference solution that goes with it. *)
Definition normalization (ref : Fn) : R :=
  sqrt (Rsum (map (fun e => error_form e ref ref) elements)).

(** Modelled from the spec: what [calc_elem_errors]/[calc_error] return
    with [H2D_TOTAL_ERROR_REL]: the error relative to the reference
    norm. *)
Definition calc_error (coarse ref : Fn) : R :=
  sqrt (total_error_squared coarse ref) / normalization ref.

(** [double err_est = hp.calc_error(...) * 100;] as all three drivers
    write it. *)
Definition err_est (coarse ref : Fn) : R := calc_error coarse ref * 100.

(** Modelled from the spec: the estimator's pass over the coarse
    elements, which is missing from the sources: "for each coarse
    element, evaluate the bilinear form of (reference - coarse) against
    itself over that element's region, accumulate into a total squared
    error; also accumulate a reference-energy normalization term".  The
    accumulator holds the records written so far, the total squared
    error and the reference energy. *)
Record accumulator : Type := {
  records : list ElementErrorRecord;
  total_squared : R;
  norm_squared : R
}.

Definition visit (coarse ref : Fn) (acc : accumulator) (e : Elem) : accumulator :=
  let d := fsub ref coarse in
  {| records := records acc ++
                [ {| elem_id := length (records acc); err_squared := error_form e d d |} ];
     total_squared := total_squared acc + error_form e d d;
     norm_squared := norm_squared acc + error_form e ref ref |}.

Definition accumulate (coarse ref : Fn) : accumulator :=
  fold_left (visit coarse ref) elements
            {| records := []; total_squared := 0; norm_squared := 0 |}.

(** Modelled from the spec: what [calc_elem_errors] computes with
    [H2D_TOTAL_ERROR_REL], the total error relative to the reference
    norm together with the per-element error records. *)
Definition calc_elem_errors (coarse ref : Fn) : R * list ElementErrorRecord :=
  let acc := accumulate coarse ref in
  (sqrt (total_squared acc) / sqrt (norm_squared acc), records acc).

(** [double err_est = hp.calc_elem_errors(...) * 100;] *)
Definition reported_error (coarse ref : Fn) : R :=
  fst (calc_elem_errors coarse ref) * 100.

(** Modelled from the spec: the outcome of [project_global], "the
    coarse-space coefficient vector minimizing the norm of the difference
    between the projected function and the reference solution". *)
Definition is_projection (ref p : Fn) : Prop :=
  in_coarse p /\
  forall c, in_coarse c -> proj_norm (fsub ref p) <= proj_norm (fsub ref c).
End Estimate.

(** A two-dimensional instance: a function is a pair of coefficients,
    the first for a coarse basis function supported on element 0, the
    second for a basis function of the reference space only, supported
    on element 1. *)
Definition plane : FunctionSpace := {|
  Fn := R * R;
  fsub := fun u v => (fst u - fst v, snd u - snd v);
  fzero := (0, 0);
  fscale := fun k u => (k * fst u, k * snd u);
  Elem := bool;
  elements := [false; true];
  error_form := fun e u v => if e then snd u * snd v else fst u * fst v;
  proj_norm := fun u => Rabs (fst u) + Rabs (snd u);
  in_coarse := fun u => snd u = 0
|}.

End Estimator.

Module Selection.
Open Scope R_scope.

(** Modelled from the spec: the three adaptive strategies of the REFINE
    step of [Adapt::adapt], which is missing from the sources, and the
    integer the drivers name them by ([STRATEGY]). *)
Inductive strategy : Type := Cumulative | RelativeToMax | Absolute.

Definition strategy_of (STRATEGY : Z) : option strategy :=
  match STRATEGY with
  | 0%Z => Some Cumulative
  | 1%Z => Some RelativeToMax
  | 2%Z => Some Absolute
  | _ => None
  end.

Definition Rltb (x y : R) : bool := if Rlt_dec x y then true else false.
Definition Rleb (x y : R) : bool := if Rle_dec x y then true else false.
Definition Reqb (x y : R) : bool := if Req_dec_T x y then true else false.

(** The error of an element: the records hold squared errors. *)
Definition elem_error (r : ElementErrorRecord) : R := sqrt (err_squared r).

(** The maximum over the records, of the recorded values and of the
    element errors, and the total of the recorded values. *)
Fixpoint max_err_squared (l : list ElementErrorRecord) : R :=
  match l with
  | [] => 0
  | [r] => err_squared r
  | r :: l' => Rmax (err_squared r) (max_err_squared l')
  end.

Fixpoint max_elem_error (l : list ElementErrorRecord) : R :=
  match l with
  | [] => 0
  | [r] => elem_error r
  | r :: l' => Rmax (elem_error r) (max_elem_error l')
  end.

Fixpoint total_err_squared (l : list ElementErrorRecord) : R :=
  match l with
  | [] => 0
  | r :: l' => err_squared r + total_err_squared l'
  end.

(** Sorting by descending error. *)
Fixpoint insert_desc (r : ElementErrorRecord) (l : list ElementErrorRecord) :=
  match l with
  | [] => [r]
  | x :: l' =>
      if Rleb (err_squared x) (err_squared r) then r :: x :: l'
      else x :: insert_desc r l'
  end.

Fixpoint sort_desc (l : list ElementErrorRecord) : list ElementErrorRecord :=
  match l with
  | [] => []
  | r :: l' => insert_desc r (sort_desc l')
  end.

(** Modelled from the spec: strategy "cumulative" on the sorted list.
    [processed] is the error accumulated over the elements refined so
    far and [prev] the error of the last of them.  The walk stops at the
    first element met once [processed] has reached [limit], unless that
    element ties with the last refined one. *)
Fixpoint refine_until (limit processed : R) (prev : option R)
    (sorted : list ElementErrorRecord) : list ElementErrorRecord :=
  match sorted with
  | [] => []
  | r :: rest =>
      let tied := match prev with
                  | Some p => Reqb (err_squared r) p
                  | None => false
                  end in
      if Rleb limit processed && negb tied then []
      else r :: refine_until limit (processed + err_squared r) (Some (err_squared r)) rest
  end.

(** Modelled from the spec: the subset of elements the REFINE step
    selects.  The rules are applied to the values the estimator has
    recorded for the elements, which are squared errors:
    - "cumulative": sort by descending error, refine in order until the
      accumulated error reaches sqrt(threshold) times the total error,
      ties refined together;
    - "relative-to-max": every element whose error exceeds threshold
      times the maximum single-element error;
    - "absolute": every element whose error exceeds the threshold. *)
Definition select (s : strategy) (thr : R) (errs : list ElementErrorRecord)
  : list ElementErrorRecord :=
  match s with
  | Cumulative =>
      refine_until (sqrt thr * total_err_squared errs) 0 None (sort_desc errs)
  | RelativeToMax =>
      filter (fun r => Rltb (thr * max_err_squared errs) (err_squared r)) errs
  | Absolute =>
      filter (fun r => Rltb thr (err_squared r)) errs
  end.

(** [THRESHOLD] of the bracket example, as a real number. *)
Definition THRESHOLD : R := 3 / 10.

(** Three elements with errors 1, 0.5 and 0.9, as the estimator records
    them. *)
Definition three_elements : list ElementErrorRecord :=
  [ {| elem_id := 0; err_squared := 1 |};
    {| elem_id := 1; err_squared := 25 / 100 |};
    {| elem_id := 2; err_squared := 81 / 100 |} ].

(** Four elements, two of which tie at the recorded value 2. *)
Definition tied_elements : list ElementErrorRecord :=
  [ {| elem_id := 0; err_squared := 1 |};
    {| elem_id := 1; err_squared := 2 |};
    {| elem_id := 2; err_squared := 4 |};
    {| elem_id := 3; err_squared := 2 |} ].

(** The recorded value of the element that precedes position [i], if
    any. *)
Definition pred_err (prev : option R) (l : list ElementErrorRecord) (i : nat) : option R :=
  match i with
  | O => prev
  | S j => option_map err_squared (nth_error l j)
  end.

Definition descending (l : list ElementErrorRecord) : Prop :=
  Sorted (fun a b => err_squared b <= err_squared a) l.

(** Modelled from the spec: the REFINE step as the engine runs it, the
    selection applied to the records of the estimator's pass. *)
Definition refine_step {FS : Estimator.FunctionSpace} (s : strategy) (thr : R)
    (coarse ref : Estimator.Fn) : list ElementErrorRecord :=
  select s thr (snd (Estimator.calc_elem_errors coarse ref)).

End Selection.


(* ================================================================== *)
(** * One pass through the loop as a function of the variables *)
(* ================================================================== *)

(** The sub-expressions of an iteration of [crack], named so that the
    variables after a pass can be written down: the variables after
    solve and projection, the estimator object and its result, the
    stopping test, the result of [adapt], the variables after the
    pass. *)
Module CrackPass.
Section Pass.
Context {L : Hermes2D}.

Definition projected (st : state) (r : Solution * Solution) : state :=
  set_slns
    (project_global (u_space st, v_space st) (H2D_H1_NORM, H2D_H1_NORM) (fst r, snd r))
    (set_ref_slns r st).

Definition estimator (st : state) : float * AdaptObj :=
  calc_elem_errors [H2D_TOTAL_ERROR_REL; H2D_ELEMENT_ERROR_REL]
    (set_error_form 1 1 bilinear_form_1_1
       (set_error_form 1 0 bilinear_form_1_0
          (set_error_form 0 1 bilinear_form_0_1
             (set_error_form 0 0 bilinear_form_0_0
                (set_solutions (u_sln st, v_sln st) (ref_u_sln st, ref_v_sln st)
                   (Adapt_new (u_space st, v_space st) (H2D_H1_NORM, H2D_H1_NORM))))))).

Definition err_est (st : state) (r : Solution * Solution) : float :=
  (fst (estimator (projected st r)) * 100)%float.

Definition stops (st : state) (r : Solution * Solution) : bool :=
  ((err_est st r <? Crack.ERR_STOP)%float || (Crack.NDOF_STOP <=? total_ndof st)%Z)%bool.

Definition adapted (st : state) (r : Solution * Solution)
  : ((Mesh * Mesh) * (Space * Space)) * bool :=
  adapt (snd (estimator (projected st r))) [Crack.selector; Crack.selector]
        (if Crack.MULTI then Crack.THRESHOLD_MULTI else Crack.THRESHOLD_SINGLE)
        Crack.STRATEGY Crack.MESH_REGULARITY (coarse st).

Definition refined (st : state) (r : Solution * Solution) : state :=
  let a := adapted st r in
  let st' := set_done (snd a) (set_coarse (fst a) (projected st r)) in
  if (Crack.NDOF_STOP <=? total_ndof st')%Z then set_done true st' else st'.

Definition next (st : state) (r : Solution * Solution) : state :=
  incr_as (if stops st r then set_done true (projected st r) else refined st r).

Definition pass_trace (st : state) (r : Solution * Solution) : list (event Space) :=
  build_trace ++
  [EvSolveLinear (reference_spaces_spec st); EvProjectGlobal; EvCalcError;
   EvStopCheck (err_est st r) (total_ndof st)] ++
  (if stops st r then []
   else [EvAdapt (if Crack.MULTI then Crack.THRESHOLD_MULTI else Crack.THRESHOLD_SINGLE)
                 Crack.STRATEGY Crack.MESH_REGULARITY]).
End Pass.
End CrackPass.

(** The same for [bracket]. *)
Module BracketPass.
Section Pass.
Context {L : Hermes2D}.

Definition projected (st : state) (r : Solution * Solution) : state :=
  set_slns (project_global_default (u_space st, v_space st) (fst r, snd r))
           (set_ref_slns r st).

Definition estimator (st : state) : float * AdaptObj :=
  calc_error [H2D_TOTAL_ERROR_REL; H2D_ELEMENT_ERROR_REL]
    (set_error_form 1 1 bilinear_form_1_1
       (set_error_form 1 0 bilinear_form_1_0
          (set_error_form 0 1 bilinear_form_0_1
             (set_error_form 0 0 bilinear_form_0_0
                (set_solutions (u_sln st, v_sln st) (ref_u_sln st, ref_v_sln st)
                   (H1Adapt_new (u_space st, v_space st))))))).

Definition err_est (st : state) (r : Solution * Solution) : float :=
  (fst (estimator (projected st r)) * 100)%float.

Definition stops (st : state) (r : Solution * Solution) : bool :=
  (err_est st r <? Bracket.ERR_STOP)%float.

Definition adapted (st : state) (r : Solution * Solution)
  : ((Mesh * Mesh) * (Space * Space)) * bool :=
  adapt (snd (estimator (projected st r))) [Bracket.selector]
        Bracket.THRESHOLD Bracket.STRATEGY Bracket.MESH_REGULARITY (coarse st).

Definition refined (st : state) (r : Solution * Solution) : state :=
  let a := adapted st r in
  let st' := set_done (snd a) (set_coarse (fst a) (projected st r)) in
  if (Bracket.NDOF_STOP <=? total_ndof st')%Z then set_done true st' else st'.

Definition next (st : state) (r : Solution * Solution) : state :=
  incr_as (if stops st r then set_done true (projected st r) else refined st r).

Definition pass_trace (st : state) (r : Solution * Solution) : list (event Space) :=
  build_trace ++
  [EvSolveLinear (reference_spaces_spec st); EvProjectGlobal; EvCalcError;
   EvStopCheck (err_est st r) (total_ndof st)] ++
  (if stops st r then []
   else [EvAdapt Bracket.THRESHOLD Bracket.STRATEGY Bracket.MESH_REGULARITY]).
End Pass.
End BracketPass.

(** The total DOF count of a coarse problem. *)
Definition coarse_ndof {L : Hermes2D} (c : (Mesh * Mesh) * (Space * Space)) : Z :=
  (get_num_dofs (fst (snd c)) + get_num_dofs (snd (snd c)))%Z.

(** How many passes a run made: the stopping tests in its trace. *)
Definition passes {Sp : Type} (t : list (event Sp)) : nat :=
  count_events is_stop_check t.

(* ================================================================== *)
(** * A second small implementation: spaces that are their DOF count *)
(* ================================================================== *)

Module Counter.

(** A space is its number of DOFs.  [adapt] adds [step] DOFs to each
    space and returns [flag]; the estimator always reports [est]; the
    solver never fails. *)
Record params : Type := {
  dof0 : Z;
  step : Z;
  est : float;
  flag : bool
}.

Definition lib (p : params) : Hermes2D := {|
  Mesh := unit;
  Space := Z;
  Solution := unit;
  AdaptObj := unit;
  Mesh_new := tt;
  Solution_new := tt;
  mloader_load := fun _ _ => tt;
  mesh_copy := fun m => m;
  refine_all_elements := fun m => m;
  refine_element := fun _ m => m;
  H1Space_new := fun _ _ _ _ => dof0 p;
  space_dup := fun sp _ => sp;
  copy_orders := fun dst _ inc => (4 * dst + inc)%Z;
  get_num_dofs := fun sp => sp;
  solve_linear := fun _ _ _ => Some (tt, tt);
  project_global := fun _ _ _ => (tt, tt);
  project_global_default := fun _ _ => (tt, tt);
  Adapt_new := fun _ _ => tt;
  H1Adapt_new := fun _ => tt;
  set_solutions := fun _ _ hp => hp;
  set_error_form := fun _ _ _ hp => hp;
  calc_elem_errors := fun _ hp => (est p, hp);
  calc_error := fun _ hp => (est p, hp);
  adapt := fun _ _ _ _ _ c =>
    ((fst c, (fst (snd c) + step p, snd (snd c) + step p)%Z), flag p)
|}.

(** The older interface: [assign_dofs] always counts [dof0] DOFs. *)
Definition legacy (p : params) : Hermes2DLegacy := {|
  LMesh := unit;
  LSpace := unit;
  LSolution := unit;
  LAdapt := unit;
  LSolution_new := tt;
  l_load := fun _ => tt;
  l_refine_all_elements := fun m => m;
  l_H1Space_new := fun _ _ => tt;
  set_uniform_order := fun _ sp => sp;
  assign_dofs := fun sp => (dof0 p, sp);
  l_get_num_dofs := fun _ => dof0 p;
  ls_solve := fun _ => Some tt;
  h1_error_exact := fun _ _ => 0%float;
  rs_solve := fun _ => Some tt;
  hp_calc_error := fun _ _ _ => (est p, tt);
  hp_adapt := fun _ _ _ _ _ c => (c, flag p)
|}.

(** Refinement that adds a DOF to each space and never says it is done,
    under an estimate of 100 percent. *)
Definition growing : params :=
  {| dof0 := 29990; step := 1; est := 1%float; flag := false |}.

(** Refinement that changes nothing and does not say so. *)
Definition stalled : params :=
  {| dof0 := 100; step := 0; est := 1%float; flag := false |}.

(** Refinement that changes nothing and says so. *)
Definition exhausted : params :=
  {| dof0 := 100; step := 0; est := 1%float; flag := true |}.

End Counter.

(** The tally of a trace: how many solves, calls of [adapt] and stopping
    tests it holds; projections and error calculations come with the
    stopping tests, uniform refinements of each reference mesh with the
    solves. *)
Definition tally {Sp : Type} (t : list (event Sp)) (solves adapts checks : nat) : Prop :=
  count_events is_solve t = solves /\
  count_events is_adapt t = adapts /\
  count_events is_stop_check t = checks /\
  count_events is_project t = checks /\
  count_events is_calc_error t = checks /\
  count_events (is_refine_all U) t = solves /\
  count_events (is_refine_all V) t = solves.

(** Solves and calls of [adapt] taking turns in a trace.
    [alternating solve_next t] holds when the first solve or call of
    [adapt] in [t] is a solve if [solve_next] is set and a call of
    [adapt] otherwise, and every one of them is followed next by one of
    the other kind; [turn solve_next t] tells whose turn it is after
    [t]. *)
Fixpoint alternating {Sp : Type} (solve_next : bool) (t : list (event Sp)) : bool :=
  match t with
  | [] => true
  | e :: t' =>
      if is_solve e then solve_next && alternating false t'
      else if is_adapt e then negb solve_next && alternating true t'
      else alternating solve_next t'
  end.

Fixpoint turn {Sp : Type} (solve_next : bool) (t : list (event Sp)) : bool :=
  match t with
  | [] => solve_next
  | e :: t' =>
      if is_solve e then turn false t'
      else if is_adapt e then turn true t'
      else turn solve_next t'
  end.

(** The sub-expressions of an iteration of [singpert]. *)
Module SingpertPass.
Section Pass.
Context {L : Hermes2DLegacy}.

Definition solved (st : Singpert.state) (c f : LSolution) : Singpert.state :=
  Singpert.set_sln_fine f (Singpert.set_sln_coarse c (Singpert.incr_it st)).

Definition estimator (st : Singpert.state) (c f : LSolution) : float * LAdapt :=
  hp_calc_error (Singpert.space st) c f.

Definition err_est (st : Singpert.state) (c f : LSolution) : float :=
  (fst (estimator st c f) * 100)%float.

Definition stops (st : Singpert.state) (c f : LSolution) : bool :=
  (err_est st c f <? Singpert.ERR_STOP)%float.

Definition adapted (st : Singpert.state) (c f : LSolution) : (LMesh * LSpace) * bool :=
  hp_adapt (snd (estimator st c f)) Singpert.THRESHOLD Singpert.STRATEGY
           Singpert.selector Singpert.MESH_REGULARITY
           (Singpert.mesh st, Singpert.space st).

Definition renumbered (st : Singpert.state) (c f : LSolution) : Z * LSpace :=
  assign_dofs (snd (fst (adapted st c f))).

Definition refined (st : Singpert.state) (c f : LSolution) : Singpert.state :=
  let st' := Singpert.set_ndof (renumbered st c f)
               (Singpert.set_coarse (fst (adapted st c f)) (solved st c f)) in
  if (Singpert.NDOF_STOP <=? Singpert.ndof st')%Z then Singpert.set_done true st' else st'.

Definition next (st : Singpert.state) (c f : LSolution) : Singpert.state :=
  if stops st c f then Singpert.set_done true (solved st c f) else refined st c f.

Definition pass_trace (st : Singpert.state) (c f : LSolution) : list (event LSpace) :=
  [EvCoarseSolve; EvExactError; EvRefSolve; EvCalcError;
   EvStopCheck (err_est st c f) (Singpert.ndof st)] ++
  (if stops st c f then []
   else [EvAdapt Singpert.THRESHOLD Singpert.STRATEGY Singpert.MESH_REGULARITY;
         EvAssignDofs]).
End Pass.
End SingpertPass.


(** The older interface with two solvers of different reach: the coarse
    solve succeeds on spaces of at most [coarse_max] DOFs and the
    reference solve on coarse spaces of at most [ref_max] DOFs.  The
    mesh file has 10 elements, the estimate is 5 percent up to 100 DOFs,
    and [adapt] adds three elements. *)
Definition two_solvers (coarse_max ref_max : Z) : Hermes2DLegacy := {|
  LMesh := Z;
  LSpace := Z * Z;
  LSolution := unit;
  LAdapt := Z;
  LSolution_new := tt;
  l_load := fun _ => 10%Z;
  l_refine_all_elements := fun m => (4 * m)%Z;
  l_H1Space_new := fun m _ => (m, 0%Z);
  set_uniform_order := fun order sp => (fst sp, order);
  assign_dofs := fun sp => (Toy.dofs sp, sp);
  l_get_num_dofs := Toy.dofs;
  ls_solve := fun c => if (Toy.dofs (snd c) <=? coarse_max)%Z then Some tt else None;
  h1_error_exact := fun _ _ => 0%float;
  rs_solve := fun c => if (Toy.dofs (snd c) <=? ref_max)%Z then Some tt else None;
  hp_calc_error := fun sp _ _ =>
    (if (100 <? Toy.dofs sp)%Z then 0.001%float else 0.05%float, Toy.dofs sp);
  hp_adapt := fun _ _ _ _ _ c => ((fst c + 3, (fst (snd c) + 3, snd (snd c)))%Z, false)
|}.


(* ================================================================== *)
(** * One iteration of each driver *)
(* ================================================================== *)

(** Unfolds the monad so that an iteration becomes a pair of a trace and
    a result. *)
Ltac run_body :=
  cbv [bind get put modify call call_or_fail mark ret];
  cbn [fst snd app].

Section CrackIteration.
Context {L : Hermes2D}.

(** A failed solve ends the iteration at the solve, with the variables
    of the iteration's start. *)
Lemma crack_iteration_abort (st : state) :
  solve_linear (reference_spaces_spec st) Crack.wf Crack.matrix_solver = None ->
  Crack.iteration st =
    (build_trace ++ [EvSolveLinear (reference_spaces_spec st)], Abort SolverError st).
Proof.
  intros Hsolve. unfold Crack.iteration. run_body.
  unfold reference_spaces_spec, reference_space_spec, reference_mesh_spec in Hsolve.
  rewrite Hsolve. reflexivity.
Qed.

(** The shape of an iteration whose solve succeeds. *)
Lemma crack_iteration_ok (st : state) (r : Solution * Solution) :
  solve_linear (reference_spaces_spec st) Crack.wf Crack.matrix_solver = Some r ->
  exists (e : float) (tail : list (event Space)) (st' : state),
    Crack.iteration st =
      (build_trace ++
       [EvSolveLinear (reference_spaces_spec st); EvProjectGlobal; EvCalcError;
        EvStopCheck e (total_ndof st)] ++ tail,
       Ok tt st') /\
    if ((e <? Crack.ERR_STOP)%float || (Crack.NDOF_STOP <=? total_ndof st)%Z)%bool
    then tail = [] /\ done st' = true /\ coarse st' = coarse st
    else exists hp,
        let thr := if Crack.MULTI then Crack.THRESHOLD_MULTI
                   else Crack.THRESHOLD_SINGLE in
        let a := adapt hp [Crack.selector; Crack.selector] thr
                       Crack.STRATEGY Crack.MESH_REGULARITY (coarse st) in
        tail = [EvAdapt thr Crack.STRATEGY Crack.MESH_REGULARITY] /\
        coarse st' = fst a /\
        done st' = (snd a || (Crack.NDOF_STOP <=? total_ndof st')%Z)%bool.
Proof.
  intros Hsolve. unfold Crack.iteration. run_body.
  unfold reference_spaces_spec, reference_space_spec, reference_mesh_spec in Hsolve.
  rewrite Hsolve. run_body.
  match goal with
  | |- context [if ((?x <? Crack.ERR_STOP)%float || ?c)%bool then _ else _] =>
      exists x; change c with (Crack.NDOF_STOP <=? total_ndof st)%Z;
      destruct ((x <? Crack.ERR_STOP)%float || (Crack.NDOF_STOP <=? total_ndof st)%Z)%bool
  end; run_body.
  - eexists; eexists; split; [reflexivity|]. cbn. auto.
  - match goal with
    | |- context [adapt ?h ?s ?t ?g ?m ?c] =>
        change c with (coarse st);
        set (a := adapt h s t g m (coarse st)) in *;
        assert (Ha : exists hp, a = adapt hp [Crack.selector; Crack.selector] t
                        Crack.STRATEGY Crack.MESH_REGULARITY (coarse st))
          by (exists h; reflexivity)
    end.
    clearbody a. destruct Ha as (hp & Ha).
    match goal with
    | |- context [if ?c then _ else _] => destruct c eqn:Hcap
    end; run_body.
    all: eexists; eexists; split; [reflexivity|].
    all: exists hp; cbv zeta; rewrite <- Ha.
    all: destruct a as [[[m1 m2] [s1 s2]] d].
    all: unfold total_ndof in Hcap |- *; cbn in Hcap |- *; rewrite Hcap.
    all: repeat split.
    + now rewrite orb_true_r.
    + now rewrite orb_false_r.
Qed.
End CrackIteration.

Section BracketIteration.
Context {L : Hermes2D}.

Lemma bracket_iteration_abort (st : state) :
  solve_linear (reference_spaces_spec st) Bracket.wf SOLVER_UMFPACK = None ->
  Bracket.iteration st =
    (build_trace ++ [EvSolveLinear (reference_spaces_spec st)], Abort SolverError st).
Proof.
  intros Hsolve. unfold Bracket.iteration. run_body.
  unfold reference_spaces_spec, reference_space_spec, reference_mesh_spec in Hsolve.
  rewrite Hsolve. reflexivity.
Qed.

(** In [bracket] the first test looks at the estimate only; the DOF cap
    is tested after [adapt]. *)
Lemma bracket_iteration_ok (st : state) (r : Solution * Solution) :
  solve_linear (reference_spaces_spec st) Bracket.wf SOLVER_UMFPACK = Some r ->
  exists (e : float) (tail : list (event Space)) (st' : state),
    Bracket.iteration st =
      (build_trace ++
       [EvSolveLinear (reference_spaces_spec st); EvProjectGlobal; EvCalcError;
        EvStopCheck e (total_ndof st)] ++ tail,
       Ok tt st') /\
    if (e <? Bracket.ERR_STOP)%float
    then tail = [] /\ done st' = true /\ coarse st' = coarse st
    else exists hp,
        let a := adapt hp [Bracket.selector] Bracket.THRESHOLD
                       Bracket.STRATEGY Bracket.MESH_REGULARITY (coarse st) in
        tail = [EvAdapt Bracket.THRESHOLD Bracket.STRATEGY Bracket.MESH_REGULARITY] /\
        coarse st' = fst a /\
        done st' = (snd a || (Bracket.NDOF_STOP <=? total_ndof st')%Z)%bool.
Proof.
  intros Hsolve. unfold Bracket.iteration. run_body.
  unfold reference_spaces_spec, reference_space_spec, reference_mesh_spec in Hsolve.
  rewrite Hsolve. run_body.
  match goal with
  | |- context [if (?x <? Bracket.ERR_STOP)%float then _ else _] =>
      exists x; destruct (x <? Bracket.ERR_STOP)%float
  end; run_body.
  - eexists; eexists; split; [reflexivity|]. cbn. auto.
  - match goal with
    | |- context [adapt ?h ?s ?t ?g ?m ?c] =>
        change c with (coarse st);
        set (a := adapt h s t g m (coarse st)) in *;
        assert (Ha : exists hp, a = adapt hp [Bracket.selector] t
                        Bracket.STRATEGY Bracket.MESH_REGULARITY (coarse st))
          by (exists h; reflexivity)
    end.
    clearbody a. destruct Ha as (hp & Ha).
    match goal with
    | |- context [if ?c then _ else _] => destruct c eqn:Hcap
    end; run_body.
    all: eexists; eexists; split; [reflexivity|].
    all: exists hp; cbv zeta; rewrite <- Ha.
    all: destruct a as [[[m1 m2] [s1 s2]] d].
    all: unfold total_ndof in Hcap |- *; cbn in Hcap |- *; rewrite Hcap.
    all: repeat split.
    + now rewrite orb_true_r.
    + now rewrite orb_false_r.
Qed.
End BracketIteration.

Section SingpertIteration.
Context {L : Hermes2DLegacy}.

Lemma singpert_iteration_coarse_abort (st : Singpert.state) :
  ls_solve (Singpert.mesh st, Singpert.space st) = None ->
  Singpert.iteration st = ([EvCoarseSolve], Abort SolverError (Singpert.incr_it st)).
Proof.
  intros Hsolve. unfold Singpert.iteration. run_body.
  cbn [Singpert.mesh Singpert.space Singpert.incr_it]. rewrite Hsolve. reflexivity.
Qed.

Lemma singpert_iteration_ref_abort (st : Singpert.state) (c : LSolution) :
  ls_solve (Singpert.mesh st, Singpert.space st) = Some c ->
  rs_solve (Singpert.mesh st, Singpert.space st) = None ->
  exists st',
    Singpert.iteration st = ([EvCoarseSolve; EvExactError; EvRefSolve], Abort SolverError st') /\
    Singpert.mesh st' = Singpert.mesh st /\ Singpert.space st' = Singpert.space st.
Proof.
  intros Hc Hr. unfold Singpert.iteration. run_body.
  cbn [Singpert.mesh Singpert.space Singpert.incr_it Singpert.set_sln_coarse].
  rewrite Hc. run_body.
  cbn [Singpert.mesh Singpert.space Singpert.incr_it Singpert.set_sln_coarse].
  rewrite Hr. eexists; split; [reflexivity|]. split; reflexivity.
Qed.

(** [singpert] has no projection: between the two solves it only
    measures the exact error. *)
Lemma singpert_iteration_ok (st : Singpert.state) (c f : LSolution) :
  ls_solve (Singpert.mesh st, Singpert.space st) = Some c ->
  rs_solve (Singpert.mesh st, Singpert.space st) = Some f ->
  exists (e : float) (tail : list (event LSpace)) (st' : Singpert.state),
    Singpert.iteration st =
      ([EvCoarseSolve; EvExactError; EvRefSolve; EvCalcError;
        EvStopCheck e (Singpert.ndof st)] ++ tail,
       Ok tt st') /\
    if (e <? Singpert.ERR_STOP)%float
    then tail = [] /\ Singpert.done st' = true
    else tail = [EvAdapt Singpert.THRESHOLD Singpert.STRATEGY Singpert.MESH_REGULARITY;
                 EvAssignDofs] /\
         Singpert.done st' =
           (Singpert.done st || (Singpert.NDOF_STOP <=? Singpert.ndof st')%Z)%bool.
Proof.
  intros Hc Hr. unfold Singpert.iteration. run_body.
  cbn [Singpert.mesh Singpert.space Singpert.incr_it Singpert.set_sln_coarse].
  rewrite Hc. run_body.
  cbn [Singpert.mesh Singpert.space Singpert.incr_it Singpert.set_sln_coarse].
  rewrite Hr. run_body.
  match goal with
  | |- context [if (?x <? Singpert.ERR_STOP)%float then _ else _] =>
      exists x; destruct (x <? Singpert.ERR_STOP)%float
  end; run_body.
  - eexists; eexists; split; [reflexivity|]. cbn. auto.
  - match goal with
    | |- context [if ?c then _ else _] => destruct c eqn:Hcap
    end; run_body.
    all: eexists; eexists; split; [reflexivity|].
    all: split; [reflexivity|].
    all: cbn in Hcap |- *; rewrite Hcap.
    + now rewrite orb_true_r.
    + now rewrite orb_false_r.
Qed.
End SingpertIteration.


(* ================================================================== *)
(** * The [do ... while] loop *)
(* ================================================================== *)

Section DoWhile.
Context {E St : Type}.
Variable body : M E St unit.
Variable cond : St -> bool.

(** One pass through the loop: the body runs first, and only then the
    condition decides between leaving and another pass. *)
Lemma do_while_step (fuel : nat) (s : St) :
  do_while body cond (S fuel) s =
    match body s with
    | (t, Ok _ s') =>
        if cond s'
        then (t ++ fst (do_while body cond fuel s'), snd (do_while body cond fuel s'))
        else (t, Ok LoopDone s')
    | (t, Abort e s') => (t, Abort e s')
    end.
Proof.
  cbn [do_while]. unfold bind at 1.
  destruct (body s) as [t [[] s'|e s']]; [|reflexivity].
  unfold bind, get, ret. cbn [fst snd app].
  destruct (cond s').
  - destruct (do_while body cond fuel s') as [t' r]. reflexivity.
  - cbn. now rewrite app_nil_r.
Qed.

(** The trace of a run of at least one pass starts with the trace of
    the first pass through the body. *)
Lemma do_while_first_pass (fuel : nat) (s : St) :
  exists rest, fst (do_while body cond (S fuel) s) = fst (body s) ++ rest.
Proof.
  rewrite do_while_step. destruct (body s) as [t [[] s'|e s']]; cbn [fst].
  - destruct (cond s'); cbn [fst].
    + eexists; reflexivity.
    + exists []. now rewrite app_nil_r.
  - exists []. now rewrite app_nil_r.
Qed.

(** After [n] completed passes, a pass that aborts ends the run. *)
Lemma do_while_abort_after (n : nat) :
  forall (s s' sf : St) (t t' : list E) (e : error),
    completed_iterations body cond n s = Some (t, s') ->
    body s' = (t', Abort e sf) ->
    forall fuel, (n < fuel)%nat ->
      do_while body cond fuel s = (t ++ t', Abort e sf).
Proof.
  induction n as [|n IH]; intros s s' sf t t' e Hn Hb fuel Hfuel.
  - cbn in Hn. injection Hn as <- <-.
    destruct fuel as [|fuel]; [lia|]. rewrite do_while_step, Hb. reflexivity.
  - cbn in Hn. destruct (body s) as [t0 [[] s0|e0 s0]] eqn:Hb0; [|discriminate].
    destruct (cond s0) eqn:Hc; [|discriminate].
    destruct (completed_iterations body cond n s0) as [[t1 s1]|] eqn:Hn'; [|discriminate].
    injection Hn as <- <-.
    destruct fuel as [|fuel]; [lia|].
    rewrite do_while_step, Hb0, Hc.
    rewrite (IH s0 s1 sf t1 t' e Hn' Hb fuel) by lia.
    cbn [fst snd]. now rewrite app_assoc.
Qed.

(** After [n] completed passes, a pass that completes and makes the
    condition false ends the loop. *)
Lemma do_while_done_after (n : nat) :
  forall (s s' sf : St) (t t' : list E),
    completed_iterations body cond n s = Some (t, s') ->
    body s' = (t', Ok tt sf) ->
    cond sf = false ->
    forall fuel, (n < fuel)%nat ->
      do_while body cond fuel s = (t ++ t', Ok LoopDone sf).
Proof.
  induction n as [|n IH]; intros s s' sf t t' Hn Hb Hc' fuel Hfuel.
  - cbn in Hn. injection Hn as <- <-.
    destruct fuel as [|fuel]; [lia|]. rewrite do_while_step, Hb, Hc'. reflexivity.
  - cbn in Hn. destruct (body s) as [t0 [[] s0|e0 s0]] eqn:Hb0; [|discriminate].
    destruct (cond s0) eqn:Hc; [|discriminate].
    destruct (completed_iterations body cond n s0) as [[t1 s1]|] eqn:Hn'; [|discriminate].
    injection Hn as <- <-.
    destruct fuel as [|fuel]; [lia|].
    rewrite do_while_step, Hb0, Hc.
    rewrite (IH s0 s1 sf t1 t' Hn' Hb Hc' fuel) by lia.
    cbn [fst snd]. now rewrite app_assoc.
Qed.

(** A run that was aborted consists of completed passes followed by the
    pass that aborted. *)
Lemma do_while_abort_inv (fuel : nat) :
  forall (s sf : St) (tr : list E) (e : error),
    do_while body cond fuel s = (tr, Abort e sf) ->
    exists n t s' t',
      (n < fuel)%nat /\
      completed_iterations body cond n s = Some (t, s') /\
      body s' = (t', Abort e sf) /\
      tr = t ++ t'.
Proof.
  induction fuel as [|fuel IH]; intros s sf tr e Hrun.
  - discriminate.
  - rewrite do_while_step in Hrun.
    destruct (body s) as [t0 [[] s0|e0 s0]] eqn:Hb0.
    + destruct (cond s0) eqn:Hc; [|discriminate].
      destruct (do_while body cond fuel s0) as [t1 r1] eqn:Hrest.
      cbn [fst snd] in Hrun. injection Hrun as <- ->.
      destruct (IH _ _ _ _ Hrest) as (n & t & s' & t' & Hlt & Hn & Hb & ->).
      exists (S n), (t0 ++ t), s', t'. repeat split.
      * lia.
      * cbn. now rewrite Hb0, Hc, Hn.
      * exact Hb.
      * now rewrite app_assoc.
    + injection Hrun as <- <- <-.
      exists O, [], s, t0. repeat split; auto. lia.
Qed.

(** A run that left the loop consists of completed passes followed by a
    pass that made the condition false. *)
Lemma do_while_done_inv (fuel : nat) :
  forall (s sf : St) (tr : list E),
    do_while body cond fuel s = (tr, Ok LoopDone sf) ->
    exists n t s' t',
      (n < fuel)%nat /\
      completed_iterations body cond n s = Some (t, s') /\
      body s' = (t', Ok tt sf) /\
      cond sf = false /\
      tr = t ++ t'.
Proof.
  induction fuel as [|fuel IH]; intros s sf tr Hrun.
  - discriminate.
  - rewrite do_while_step in Hrun.
    destruct (body s) as [t0 [[] s0|e0 s0]] eqn:Hb0; [|discriminate].
    destruct (cond s0) eqn:Hc.
    + destruct (do_while body cond fuel s0) as [t1 r1] eqn:Hrest.
      cbn [fst snd] in Hrun. injection Hrun as <- ->.
      destruct (IH _ _ _ Hrest) as (n & t & s' & t' & Hlt & Hn & Hb & Hc' & ->).
      exists (S n), (t0 ++ t), s', t'. repeat split; auto.
      * lia.
      * cbn. now rewrite Hb0, Hc, Hn.
      * now rewrite app_assoc.
    + injection Hrun as <- <-.
      exists O, [], s, t0. repeat split; auto. lia.
Qed.
End DoWhile.


(* ================================================================== *)
(** * The reference problem *)
(* ================================================================== *)

Section ReferenceProblemFacts.
Context {L : Hermes2D}.

Lemma crack_iteration_prefix (st : state) :
  exists rest res,
    Crack.iteration st =
      (build_trace ++ EvSolveLinear (reference_spaces_spec st) :: rest, res) /\
    existsb is_build rest = false /\ existsb is_solve rest = false.
Proof.
  destruct (solve_linear (reference_spaces_spec st) Crack.wf Crack.matrix_solver)
    as [r|] eqn:Hsolve.
  - destruct (crack_iteration_ok st r Hsolve) as (e & tail & st' & Heq & Hcase).
    exists ([EvProjectGlobal; EvCalcError; EvStopCheck e (total_ndof st)] ++ tail), (Ok tt st').
    split; [exact Heq|].
    destruct ((e <? Crack.ERR_STOP)%float || (Crack.NDOF_STOP <=? total_ndof st)%Z)%bool.
    + destruct Hcase as (-> & _). split; reflexivity.
    + destruct Hcase as (hp & -> & _). split; reflexivity.
  - exists [], (Abort SolverError st).
    split; [now apply crack_iteration_abort | split; reflexivity].
Qed.

Lemma bracket_iteration_prefix (st : state) :
  exists rest res,
    Bracket.iteration st =
      (build_trace ++ EvSolveLinear (reference_spaces_spec st) :: rest, res) /\
    existsb is_build rest = false /\ existsb is_solve rest = false.
Proof.
  destruct (solve_linear (reference_spaces_spec st) Bracket.wf SOLVER_UMFPACK)
    as [r|] eqn:Hsolve.
  - destruct (bracket_iteration_ok st r Hsolve) as (e & tail & st' & Heq & Hcase).
    exists ([EvProjectGlobal; EvCalcError; EvStopCheck e (total_ndof st)] ++ tail), (Ok tt st').
    split; [exact Heq|].
    destruct (e <? Bracket.ERR_STOP)%float.
    + destruct Hcase as (-> & _). split; reflexivity.
    + destruct Hcase as (hp & -> & _). split; reflexivity.
  - exists [], (Abort SolverError st).
    split; [now apply bracket_iteration_abort | split; reflexivity].
Qed.

(** C4: in every iteration of [crack] and of [bracket] the reference
    problem is built from the current coarse problem: each coarse mesh is
    copied, the copy is refined uniformly exactly once, each coarse space
    is duplicated onto its refined copy, and the orders are then raised
    by the constant 1.  The iteration starts with exactly these calls,
    hands the resulting spaces to the solver, and builds nothing else
    afterwards. *)
Theorem reference_problem_built_from_coarse (st : state) :
  (exists rest res,
      Crack.iteration st =
        (build_trace ++ EvSolveLinear (reference_spaces_spec st) :: rest, res) /\
      existsb is_build rest = false) /\
  (exists rest res,
      Bracket.iteration st =
        (build_trace ++ EvSolveLinear (reference_spaces_spec st) :: rest, res) /\
      existsb is_build rest = false) /\
  count_events (is_refine_all U) (fst (Crack.iteration st)) = 1%nat /\
  count_events (is_refine_all V) (fst (Crack.iteration st)) = 1%nat /\
  count_events (is_refine_all U) (fst (Bracket.iteration st)) = 1%nat /\
  count_events (is_refine_all V) (fst (Bracket.iteration st)) = 1%nat /\
  reference_spaces_spec st =
    (copy_orders (space_dup (u_space st) (refine_all_elements (mesh_copy (u_mesh st))))
                 (u_space st) 1,
     copy_orders (space_dup (v_space st) (refine_all_elements (mesh_copy (v_mesh st))))
                 (v_space st) 1).
Proof.
  destruct (crack_iteration_prefix st) as (rc & resc & Hc & Hbc & _).
  destruct (bracket_iteration_prefix st) as (rb & resb & Hb & Hbb & _).
  assert (Hcount : forall (c : comp) (rest : list (event Space)),
             existsb is_build rest = false ->
             count_events (is_refine_all c)
               (build_trace ++ EvSolveLinear (reference_spaces_spec st) :: rest) = 1%nat).
  { intros c rest Hrest. unfold count_events.
    rewrite filter_app, length_app. cbn [filter is_refine_all].
    assert (Hnone : filter (is_refine_all c) rest = []).
    { clear -Hrest. induction rest as [|x rest IH]; [reflexivity|].
      cbn in Hrest. apply orb_false_iff in Hrest as [Hx Hrest].
      cbn. rewrite (IH Hrest).
      destruct x; try discriminate Hx; destruct c; reflexivity. }
    rewrite Hnone. destruct c; reflexivity. }
  repeat split.
  - exists rc, resc. auto.
  - exists rb, resb. auto.
  - rewrite Hc. cbn [fst]. now apply Hcount.
  - rewrite Hc. cbn [fst]. now apply Hcount.
  - rewrite Hb. cbn [fst]. now apply Hcount.
  - rewrite Hb. cbn [fst]. now apply Hcount.
Qed.
End ReferenceProblemFacts.


(* ================================================================== *)
(** * A failed solve *)
(* ================================================================== *)

Section SolverFailure.
Context {L : Hermes2D}.

(** C8: when the linear solve of an iteration fails, the loop ends at
    once with a fatal error.  After [n] completed iterations that left
    the variables [s], a failing solve makes every run of more than [n]
    iterations end with [SolverError]; the trace ends with the failed
    solve (it is not tried again and nothing follows it), the failing
    iteration calls no [adapt], and the variables left behind are [s],
    the ones the last completed iteration produced.  [main] reports the
    failure. *)
Theorem solver_failure_is_fatal :
  (forall (n : nat) (s : state) (t : list (event Space)) (fuel : nat),
      completed_iterations Crack.iteration (fun st => negb (done st)) n Crack.init_state
        = Some (t, s) ->
      solve_linear (reference_spaces_spec s) Crack.wf Crack.matrix_solver = None ->
      (n < fuel)%nat ->
      let failing := build_trace ++ [EvSolveLinear (reference_spaces_spec s)] in
      Crack.adaptivity_loop fuel Crack.init_state = (t ++ failing, Abort SolverError s) /\
      Crack.main fuel = (t ++ failing, Crashed SolverError s) /\
      existsb is_adapt failing = false /\
      count_events is_solve failing = 1%nat) /\
  (forall (n : nat) (s : state) (t : list (event Space)) (fuel : nat),
      completed_iterations Bracket.iteration (fun st => negb (done st)) n Bracket.init_state
        = Some (t, s) ->
      solve_linear (reference_spaces_spec s) Bracket.wf SOLVER_UMFPACK = None ->
      (n < fuel)%nat ->
      let failing := build_trace ++ [EvSolveLinear (reference_spaces_spec s)] in
      Bracket.adaptivity_loop fuel Bracket.init_state = (t ++ failing, Abort SolverError s) /\
      Bracket.main fuel = (t ++ failing, Crashed SolverError s) /\
      existsb is_adapt failing = false /\
      count_events is_solve failing = 1%nat).
Proof.
  split; intros n s t fuel Hn Hsolve Hfuel failing.
  - assert (Hloop : Crack.adaptivity_loop fuel Crack.init_state
                    = (t ++ failing, Abort SolverError s)).
    { unfold Crack.adaptivity_loop.
      eapply do_while_abort_after; eauto. now apply crack_iteration_abort. }
    repeat split; auto.
    unfold Crack.main. now rewrite Hloop.
  - assert (Hloop : Bracket.adaptivity_loop fuel Bracket.init_state
                    = (t ++ failing, Abort SolverError s)).
    { unfold Bracket.adaptivity_loop.
      eapply do_while_abort_after; eauto. now apply bracket_iteration_abort. }
    repeat split; auto.
    unfold Bracket.main. now rewrite Hloop.
Qed.

(** Conversely, a run of [crack] can only be aborted in this way: by a
    failing solve at the start of an iteration, with the variables of
    the last completed iteration. *)
Lemma crack_abort_only_by_solver (fuel : nat) (st0 sf : state)
    (tr : list (event Space)) (e : error) :
  Crack.adaptivity_loop fuel st0 = (tr, Abort e sf) ->
  exists n t,
    completed_iterations Crack.iteration (fun st => negb (done st)) n st0 = Some (t, sf) /\
    solve_linear (reference_spaces_spec sf) Crack.wf Crack.matrix_solver = None /\
    tr = t ++ build_trace ++ [EvSolveLinear (reference_spaces_spec sf)] /\
    e = SolverError.
Proof.
  intros Hrun. unfold Crack.adaptivity_loop in Hrun.
  apply do_while_abort_inv in Hrun as (n & t & s' & t' & _ & Hn & Hb & ->).
  destruct (solve_linear (reference_spaces_spec s') Crack.wf Crack.matrix_solver)
    as [r|] eqn:Hsolve.
  - destruct (crack_iteration_ok s' r Hsolve) as (x & tail & st' & Heq & _).
    rewrite Heq in Hb. discriminate.
  - rewrite (crack_iteration_abort s' Hsolve) in Hb.
    injection Hb as <- <- <-. exists n, t. auto.
Qed.
End SolverFailure.

(** The solver of [Toy.failing] gives up in the second iteration of
    [crack]; the first iteration has refined the coarse meshes from 10 to
    13 elements, and these are the meshes left behind. *)
Lemma solver_failure_is_fatal_witness :
  Crack.main (L := Toy.lib Toy.failing) 5 =
    (build_trace (L := Toy.lib Toy.failing) ++
     [EvSolveLinear ((40, 3), (40, 3))%Z; EvProjectGlobal; EvCalcError;
      EvStopCheck 5%float 80; EvAdapt Crack.THRESHOLD_MULTI 0 (-1)] ++
     build_trace (L := Toy.lib Toy.failing) ++ [EvSolveLinear ((52, 3), (52, 3))%Z],
     Crashed SolverError (Toy.vars Toy.failing 13 2 false)).
Proof.
  pose proof (proj1 (solver_failure_is_fatal (L := Toy.lib Toy.failing))) as H.
  specialize (H 1%nat (Toy.vars Toy.failing 13 2 false)
    (build_trace (L := Toy.lib Toy.failing) ++
     [EvSolveLinear ((40, 3), (40, 3))%Z; EvProjectGlobal; EvCalcError;
      EvStopCheck 5%float 80; EvAdapt Crack.THRESHOLD_MULTI 0 (-1)])
    5%nat).
  cbv zeta in H.
  destruct H as (_ & Hmain & _).
  - vm_compute. reflexivity.
  - vm_compute. reflexivity.
  - lia.
  - rewrite Hmain. rewrite <- app_assoc. reflexivity.
Defined.

(* ================================================================== *)
(** * The verdict of the crack test *)
(* ================================================================== *)

(** C9: once the adaptivity loop of the crack test has terminated,
    [main] returns [ERROR_SUCCESS] (0) if and only if the final total
    number of coarse DOFs, summed over the u and v spaces, is at most
    650, and [ERROR_FAILURE] (-1) otherwise. *)
Theorem crack_exit_code {L : Hermes2D} (fuel : nat) (tr : list (event Space))
    (st : state) :
  Crack.adaptivity_loop fuel Crack.init_state = (tr, Ok LoopDone st) ->
  exists code : Z,
    Crack.main fuel = (tr, Returned code st) /\
    (code = 0 <-> get_num_dofs (u_space st) + get_num_dofs (v_space st) <= 650)%Z /\
    (code = -1 <-> 650 < get_num_dofs (u_space st) + get_num_dofs (v_space st))%Z.
Proof.
  intros Hloop. unfold Crack.main. rewrite Hloop.
  exists (Crack.exit_code st). split; [reflexivity|].
  unfold Crack.exit_code, get_num_dofs_tuple, Crack.ndof_allowed,
    Crack.ERROR_SUCCESS, Crack.ERROR_FAILURE.
  cbn [fold_right]. rewrite Z.add_0_r.
  destruct (Z.leb_spec (get_num_dofs (u_space st) + get_num_dofs (v_space st)) 650);
    split; split; intros; try lia; try discriminate.
Qed.

(** The converged toy problem ends with 80 DOFs and passes. *)
Lemma crack_exit_code_witness :
  exists tr st code,
    Crack.main (L := Toy.lib Toy.converged) 3 = (tr, Returned code st) /\
    (code = 0 <-> get_num_dofs (u_space st) + get_num_dofs (v_space st) <= 650)%Z /\
    (code = -1 <-> 650 < get_num_dofs (u_space st) + get_num_dofs (v_space st))%Z.
Proof.
  eexists; eexists.
  apply (crack_exit_code (L := Toy.lib Toy.converged) 3).
  vm_compute. reflexivity.
Defined.

(** A problem that ends with 800 DOFs fails the test. *)
Example crack_rejects_too_large :
  snd (Crack.main (L := Toy.lib Toy.too_large) 3) =
    Returned (-1) (Toy.vars Toy.too_large 100 2 true).
Proof. vm_compute. reflexivity. Qed.


(* ================================================================== *)
(** * The stopping test *)
(* ================================================================== *)

Section StoppingTest.
Context {L : Hermes2D}.

Lemma stop_check_in_build (e : float) (n : Z) (sp : Space * Space) :
  ~ In (EvStopCheck e n) (build_trace ++ [EvSolveLinear sp]).
Proof.
  cbn. intros H. repeat (destruct H as [H|H]; [discriminate H|]). exact H.
Qed.

(** The only stopping test in the trace of an iteration is its own. *)
Lemma stop_check_unique (e e0 : float) (n n0 : Z) (sp : Space * Space)
    (tail : list (event Space)) :
  existsb is_stop_check tail = false ->
  In (EvStopCheck e n)
     (build_trace ++
      [EvSolveLinear sp; EvProjectGlobal; EvCalcError; EvStopCheck e0 n0] ++ tail) ->
  e = e0 /\ n = n0.
Proof.
  intros Htail H. cbn in H.
  repeat (destruct H as [H|H]; [try discriminate H|]).
  - injection H as -> ->. auto.
  - exfalso. induction tail as [|x tail IH]; [exact H|].
    cbn in Htail. apply orb_false_iff in Htail as [Hx Htail].
    destruct H as [Hx'|H]; [subst x; discriminate Hx | auto].
Qed.

(** An iteration of [crack] whose test finds the estimate below
    [ERR_STOP] or the DOF count at or above [NDOF_STOP] sets [done],
    calls no [adapt], leaves the coarse problem as it is, and ends the
    loop. *)
Lemma crack_stops_without_adapt (st : state) (t : list (event Space))
    (res : res state unit) (e : float) (n : Z) :
  Crack.iteration st = (t, res) ->
  In (EvStopCheck e n) t ->
  (e <? Crack.ERR_STOP)%float = true \/ (Crack.NDOF_STOP <= n)%Z ->
  n = total_ndof st /\
  existsb is_adapt t = false /\
  exists st',
    res = Ok tt st' /\ done st' = true /\ coarse st' = coarse st /\
    forall fuel, Crack.adaptivity_loop (S fuel) st = (t, Ok LoopDone st').
Proof.
  intros Hit Hin Hstop.
  destruct (solve_linear (reference_spaces_spec st) Crack.wf Crack.matrix_solver)
    as [r|] eqn:Hsolve.
  - destruct (crack_iteration_ok st r Hsolve) as (e0 & tail & st' & Heq & Hcase).
    rewrite Heq in Hit. injection Hit as <- <-.
    assert (Htail : existsb is_stop_check tail = false).
    { destruct ((e0 <? Crack.ERR_STOP)%float || _)%bool.
      - now destruct Hcase as (-> & _).
      - now destruct Hcase as (hp & -> & _). }
    destruct (stop_check_unique _ _ _ _ _ _ Htail Hin) as [-> ->].
    assert (Hc : ((e0 <? Crack.ERR_STOP)%float
                  || (Crack.NDOF_STOP <=? total_ndof st)%Z)%bool = true).
    { apply orb_true_iff. destruct Hstop as [H|H]; [now left|right].
      now apply Z.leb_le. }
    rewrite Hc in Hcase. destruct Hcase as (-> & Hdone & Hcoarse).
    split; [reflexivity|]. split; [reflexivity|].
    exists st'. repeat split; auto.
    intros fuel. unfold Crack.adaptivity_loop.
    rewrite do_while_step, Heq, Hdone. reflexivity.
  - rewrite (crack_iteration_abort st Hsolve) in Hit. injection Hit as <- <-.
    now apply stop_check_in_build in Hin.
Qed.

(** An iteration of [bracket] whose test finds the estimate below
    [ERR_STOP] does the same. *)
Lemma bracket_stops_below_tolerance (st : state) (t : list (event Space))
    (res : res state unit) (e : float) (n : Z) :
  Bracket.iteration st = (t, res) ->
  In (EvStopCheck e n) t ->
  (e <? Bracket.ERR_STOP)%float = true ->
  n = total_ndof st /\
  existsb is_adapt t = false /\
  exists st',
    res = Ok tt st' /\ done st' = true /\ coarse st' = coarse st /\
    forall fuel, Bracket.adaptivity_loop (S fuel) st = (t, Ok LoopDone st').
Proof.
  intros Hit Hin Hstop.
  destruct (solve_linear (reference_spaces_spec st) Bracket.wf SOLVER_UMFPACK)
    as [r|] eqn:Hsolve.
  - destruct (bracket_iteration_ok st r Hsolve) as (e0 & tail & st' & Heq & Hcase).
    rewrite Heq in Hit. injection Hit as <- <-.
    assert (Htail : existsb is_stop_check tail = false).
    { destruct (e0 <? Bracket.ERR_STOP)%float.
      - now destruct Hcase as (-> & _).
      - now destruct Hcase as (hp & -> & _). }
    destruct (stop_check_unique _ _ _ _ _ _ Htail Hin) as [-> ->].
    rewrite Hstop in Hcase. destruct Hcase as (-> & Hdone & Hcoarse).
    split; [reflexivity|]. split; [reflexivity|].
    exists st'. repeat split; auto.
    intros fuel. unfold Bracket.adaptivity_loop.
    rewrite do_while_step, Heq, Hdone. reflexivity.
  - rewrite (bracket_iteration_abort st Hsolve) in Hit. injection Hit as <- <-.
    now apply stop_check_in_build in Hin.
Qed.

(** An iteration of [bracket] whose test finds the estimate at or above
    [ERR_STOP] calls [adapt] once, whatever the DOF count is, and tests
    the DOF cap on the refined coarse problem: the loop is done when
    [adapt] says so or when the DOF count after [adapt] is at or above
    [NDOF_STOP]. *)
Lemma bracket_adapts_above_tolerance (st : state) (t : list (event Space))
    (res : res state unit) (e : float) (n : Z) :
  Bracket.iteration st = (t, res) ->
  In (EvStopCheck e n) t ->
  (e <? Bracket.ERR_STOP)%float = false ->
  n = total_ndof st /\
  count_events is_adapt t = 1%nat /\
  exists st' hp,
    let a := adapt hp [Bracket.selector] Bracket.THRESHOLD
                   Bracket.STRATEGY Bracket.MESH_REGULARITY (coarse st) in
    res = Ok tt st' /\ coarse st' = fst a /\
    done st' = (snd a || (Bracket.NDOF_STOP <=? total_ndof st')%Z)%bool.
Proof.
  intros Hit Hin Hstop.
  destruct (solve_linear (reference_spaces_spec st) Bracket.wf SOLVER_UMFPACK)
    as [r|] eqn:Hsolve.
  - destruct (bracket_iteration_ok st r Hsolve) as (e0 & tail & st' & Heq & Hcase).
    rewrite Heq in Hit. injection Hit as <- <-.
    assert (Htail : existsb is_stop_check tail = false).
    { destruct (e0 <? Bracket.ERR_STOP)%float.
      - now destruct Hcase as (-> & _).
      - now destruct Hcase as (hp & -> & _). }
    destruct (stop_check_unique _ _ _ _ _ _ Htail Hin) as [-> ->].
    rewrite Hstop in Hcase. destruct Hcase as (hp & -> & Hcoarse & Hdone).
    split; [reflexivity|]. split; [reflexivity|].
    exists st', hp. cbv zeta. auto.
  - rewrite (bracket_iteration_abort st Hsolve) in Hit. injection Hit as <- <-.
    now apply stop_check_in_build in Hin.
Qed.
End StoppingTest.

(** C1, as amended: in [crack] the loop transitions to DONE, without a
    call of [adapt] in that iteration, when the estimate is below
    [ERR_STOP] or the total DOF count is at or above [NDOF_STOP].  In
    [bracket] it does so when the estimate is below [ERR_STOP]; otherwise
    [bracket] calls [adapt] and tests the DOF cap afterwards, on the
    refined coarse problem. *)
Theorem check_stop_transitions :
  (forall (L : Hermes2D) (st : state) t res e n,
      Crack.iteration st = (t, res) ->
      In (EvStopCheck e n) t ->
      (e <? Crack.ERR_STOP)%float = true \/ (Crack.NDOF_STOP <= n)%Z ->
      n = total_ndof st /\
      existsb is_adapt t = false /\
      exists st',
        res = Ok tt st' /\ done st' = true /\ coarse st' = coarse st /\
        forall fuel, Crack.adaptivity_loop (S fuel) st = (t, Ok LoopDone st')) /\
  (forall (L : Hermes2D) (st : state) t res e n,
      Bracket.iteration st = (t, res) ->
      In (EvStopCheck e n) t ->
      (e <? Bracket.ERR_STOP)%float = true ->
      n = total_ndof st /\
      existsb is_adapt t = false /\
      exists st',
        res = Ok tt st' /\ done st' = true /\ coarse st' = coarse st /\
        forall fuel, Bracket.adaptivity_loop (S fuel) st = (t, Ok LoopDone st')) /\
  (forall (L : Hermes2D) (st : state) t res e n,
      Bracket.iteration st = (t, res) ->
      In (EvStopCheck e n) t ->
      (e <? Bracket.ERR_STOP)%float = false ->
      n = total_ndof st /\
      count_events is_adapt t = 1%nat /\
      exists st' hp,
        let a := adapt hp [Bracket.selector] Bracket.THRESHOLD
                       Bracket.STRATEGY Bracket.MESH_REGULARITY (coarse st) in
        res = Ok tt st' /\ coarse st' = fst a /\
        done st' = (snd a || (Bracket.NDOF_STOP <=? total_ndof st')%Z)%bool).
Proof.
  split; [|split]; intros L st t res e n.
  - apply crack_stops_without_adapt.
  - apply bracket_stops_below_tolerance.
  - apply bracket_adapts_above_tolerance.
Qed.

(** [crack] at the DOF cap with an estimate of 100 percent: the loop is
    left after one iteration, and [adapt] has not been called. *)
Lemma check_stop_transitions_witness :
  60000%Z = total_ndof (L := Toy.lib Toy.at_cap) Crack.init_state /\
  existsb is_adapt (fst (Crack.iteration (L := Toy.lib Toy.at_cap) Crack.init_state)) = false /\
  exists st',
    snd (Crack.iteration (L := Toy.lib Toy.at_cap) Crack.init_state) = Ok tt st' /\
    done st' = true /\ coarse st' = coarse Crack.init_state /\
    forall fuel,
      Crack.adaptivity_loop (S fuel) Crack.init_state =
        (fst (Crack.iteration (L := Toy.lib Toy.at_cap) Crack.init_state), Ok LoopDone st').
Proof.
  apply (proj1 check_stop_transitions (Toy.lib Toy.at_cap) Crack.init_state
           _ _ 100%float 60000%Z).
  - apply surjective_pairing.
  - vm_compute. do 11 right. left. reflexivity.
  - right. vm_compute. discriminate.
Defined.

(** [bracket] on the same problem: its test sees 60048 DOFs, which is
    above the cap of 60000, and an estimate of 100 percent; the
    iteration goes on to call [adapt]. *)
Lemma bracket_adapts_at_cap :
  In (EvStopCheck 100%float 60048)
     (fst (Bracket.iteration (L := Toy.lib Toy.at_cap) Bracket.init_state)) /\
  (Bracket.NDOF_STOP <= 60048)%Z /\
  existsb is_adapt
    (fst (Bracket.iteration (L := Toy.lib Toy.at_cap) Bracket.init_state)) = true.
Proof.
  split; [|split].
  - vm_compute. do 11 right. left. reflexivity.
  - vm_compute. discriminate.
  - vm_compute. reflexivity.
Qed.


(* ================================================================== *)
(** * The first pass through the loop *)
(* ================================================================== *)

Section FirstPass.

Lemma crack_first_pass {L : Hermes2D} (fuel : nat) :
  let t := fst (Crack.main (S fuel)) in
  let sp := reference_spaces_spec Crack.init_state in
  (t = build_trace ++ [EvSolveLinear sp] /\
   snd (Crack.main (S fuel)) = Crashed SolverError Crack.init_state /\
   existsb is_stop_check t = false) \/
  (exists e rest,
      t = build_trace ++
          [EvSolveLinear sp; EvProjectGlobal; EvCalcError;
           EvStopCheck e (total_ndof Crack.init_state)] ++ rest /\
      estimated_before_check t = true).
Proof.
  intros t sp. subst t. unfold Crack.main, Crack.adaptivity_loop.
  rewrite do_while_step.
  destruct (solve_linear sp Crack.wf Crack.matrix_solver) as [r|] eqn:Hsolve.
  - right. destruct (crack_iteration_ok _ r Hsolve) as (e & tail & st' & Heq & _).
    rewrite Heq. fold sp. exists e.
    destruct (negb (done st')).
    + destruct (do_while _ _ fuel st') as [t' [[] s|x s]]; cbn [fst snd];
        exists (tail ++ t'); (split; [now rewrite <- !app_assoc | reflexivity]).
    + exists tail. split; reflexivity.
  - left. rewrite (crack_iteration_abort _ Hsolve). fold sp. repeat split.
Qed.

Lemma bracket_first_pass {L : Hermes2D} (fuel : nat) :
  let t := fst (Bracket.main (S fuel)) in
  let sp := reference_spaces_spec Bracket.init_state in
  (t = build_trace ++ [EvSolveLinear sp] /\
   snd (Bracket.main (S fuel)) = Crashed SolverError Bracket.init_state /\
   existsb is_stop_check t = false) \/
  (exists e rest,
      t = build_trace ++
          [EvSolveLinear sp; EvProjectGlobal; EvCalcError;
           EvStopCheck e (total_ndof Bracket.init_state)] ++ rest /\
      estimated_before_check t = true).
Proof.
  intros t sp. subst t. unfold Bracket.main, Bracket.adaptivity_loop.
  rewrite do_while_step.
  destruct (solve_linear sp Bracket.wf SOLVER_UMFPACK) as [r|] eqn:Hsolve.
  - right. destruct (bracket_iteration_ok _ r Hsolve) as (e & tail & st' & Heq & _).
    rewrite Heq. fold sp. exists e.
    destruct (negb (done st')).
    + destruct (do_while _ _ fuel st') as [t' [[] s|x s]]; cbn [fst snd];
        exists (tail ++ t'); (split; [now rewrite <- !app_assoc | reflexivity]).
    + exists tail. split; reflexivity.
  - left. rewrite (bracket_iteration_abort _ Hsolve). fold sp. repeat split.
Qed.

Lemma singpert_first_pass {L : Hermes2DLegacy} (fuel : nat) :
  let t := fst (Singpert.main (S fuel)) in
  ((t = [EvCoarseSolve] \/ t = [EvCoarseSolve; EvExactError; EvRefSolve]) /\
   (exists s, snd (Singpert.main (S fuel)) = Crashed SolverError s) /\
   existsb is_stop_check t = false) \/
  (exists e rest,
      t = [EvCoarseSolve; EvExactError; EvRefSolve; EvCalcError;
           EvStopCheck e (Singpert.ndof Singpert.init_state)] ++ rest /\
      solved_before_check t = true /\
      estimated_before_check t = false).
Proof.
  intros t. subst t. unfold Singpert.main, Singpert.adaptivity_loop.
  rewrite do_while_step.
  set (st := Singpert.init_state).
  destruct (ls_solve (Singpert.mesh st, Singpert.space st)) as [c|] eqn:Hc.
  - destruct (rs_solve (Singpert.mesh st, Singpert.space st)) as [f|] eqn:Hr.
    + right. destruct (singpert_iteration_ok st c f Hc Hr) as (e & tail & st' & Heq & _).
      rewrite Heq. exists e.
      destruct (Bool.eqb (Singpert.done st') false).
      * destruct (do_while _ _ fuel st') as [t' [[] s|x s]]; cbn [fst snd];
          exists (tail ++ t'); (split; [now rewrite <- !app_assoc | split; reflexivity]).
      * exists tail. split; [reflexivity | split; reflexivity].
    + left. destruct (singpert_iteration_ref_abort st c Hc Hr) as (st' & Heq & _).
      rewrite Heq. cbn [fst snd]. repeat split; eauto.
  - left. rewrite (singpert_iteration_coarse_abort st Hc). cbn [fst snd].
    repeat split; eauto.
Qed.
End FirstPass.

(** C10, as amended: the adaptivity loop of every driver is a
    [do ... while] loop whose body runs before any stopping test.  In
    every run of [crack] and of [bracket] that enters the loop, the
    reference solve, the projection and the error estimation are
    executed, in this order, before the first stopping test, whatever the
    initial estimate and DOF count are; the only runs without them are
    those in which the first solve fails, and these evaluate no stopping
    test.  In [singpert] the coarse solve, the reference solve and the
    error estimation precede the first stopping test; this driver has no
    projection. *)
Theorem first_pass_before_stop_check :
  (forall (L : Hermes2D) (fuel : nat),
      let t := fst (Crack.main (S fuel)) in
      let sp := reference_spaces_spec Crack.init_state in
      (t = build_trace ++ [EvSolveLinear sp] /\
       snd (Crack.main (S fuel)) = Crashed SolverError Crack.init_state /\
       existsb is_stop_check t = false) \/
      (exists e rest,
          t = build_trace ++
              [EvSolveLinear sp; EvProjectGlobal; EvCalcError;
               EvStopCheck e (total_ndof Crack.init_state)] ++ rest /\
          estimated_before_check t = true)) /\
  (forall (L : Hermes2D) (fuel : nat),
      let t := fst (Bracket.main (S fuel)) in
      let sp := reference_spaces_spec Bracket.init_state in
      (t = build_trace ++ [EvSolveLinear sp] /\
       snd (Bracket.main (S fuel)) = Crashed SolverError Bracket.init_state /\
       existsb is_stop_check t = false) \/
      (exists e rest,
          t = build_trace ++
              [EvSolveLinear sp; EvProjectGlobal; EvCalcError;
               EvStopCheck e (total_ndof Bracket.init_state)] ++ rest /\
          estimated_before_check t = true)) /\
  (forall (L : Hermes2DLegacy) (fuel : nat),
      let t := fst (Singpert.main (S fuel)) in
      ((t = [EvCoarseSolve] \/ t = [EvCoarseSolve; EvExactError; EvRefSolve]) /\
       (exists s, snd (Singpert.main (S fuel)) = Crashed SolverError s) /\
       existsb is_stop_check t = false) \/
      (exists e rest,
          t = [EvCoarseSolve; EvExactError; EvRefSolve; EvCalcError;
               EvStopCheck e (Singpert.ndof Singpert.init_state)] ++ rest /\
          solved_before_check t = true /\
          estimated_before_check t = false)).
Proof.
  split; [|split]; intros L fuel.
  - apply crack_first_pass.
  - apply bracket_first_pass.
  - apply singpert_first_pass.
Qed.

(** A run of [singpert] evaluates its first stopping test after the two
    solves and the error estimation, and without any projection. *)
Lemma singpert_checks_without_projection :
  before_first_check (fst (Singpert.main (L := Toy.legacy Toy.converged) 1)) =
    ([EvCoarseSolve; EvExactError; EvRefSolve; EvCalcError], true) /\
  existsb is_project (fst (Singpert.main (L := Toy.legacy Toy.converged) 1)) = false /\
  estimated_before_check (fst (Singpert.main (L := Toy.legacy Toy.converged) 1)) = false.
Proof. vm_compute. repeat split. Qed.

(** [crack] on a problem that is converged from the start, and on one
    that is at the DOF cap from the start: the estimate is computed
    before the loop is left. *)
Example crack_first_pass_converged :
  fst (Crack.main (L := Toy.lib Toy.converged) 1) =
    build_trace (L := Toy.lib Toy.converged) ++
    [EvSolveLinear ((40, 3), (40, 3))%Z; EvProjectGlobal; EvCalcError;
     EvStopCheck (0.002 * 100)%float 80].
Proof. vm_compute. reflexivity. Qed.

Example crack_first_pass_at_cap :
  fst (Crack.main (L := Toy.lib Toy.at_cap) 1) =
    build_trace (L := Toy.lib Toy.at_cap) ++
    [EvSolveLinear ((30000, 3), (30000, 3))%Z; EvProjectGlobal; EvCalcError;
     EvStopCheck 100%float 60000].
Proof. vm_compute. reflexivity. Qed.


(* ================================================================== *)
(** * The element selection of the REFINE step *)
(* ================================================================== *)

Module SelectionFacts.
Import Selection.
Open Scope R_scope.

Lemma Rltb_true_iff (x y : R) : Rltb x y = true <-> x < y.
Proof. unfold Rltb. destruct (Rlt_dec x y); split; intros; try lra; discriminate. Qed.

Lemma Rleb_true_iff (x y : R) : Rleb x y = true <-> x <= y.
Proof. unfold Rleb. destruct (Rle_dec x y); split; intros; try lra; discriminate. Qed.

Lemma Rleb_false_iff (x y : R) : Rleb x y = false <-> y < x.
Proof. unfold Rleb. destruct (Rle_dec x y); split; intros; try lra; discriminate. Qed.

Lemma Reqb_true_iff (x y : R) : Reqb x y = true <-> x = y.
Proof. unfold Reqb. destruct (Req_dec_T x y); split; intros; try lra; discriminate. Qed.

(** Evaluates the comparisons of a selection on concrete errors. *)
Ltac decide_R :=
  repeat match goal with
    | |- context [Rlt_dec ?a ?b] => destruct (Rlt_dec a b); try lra
    | |- context [Rle_dec ?a ?b] => destruct (Rle_dec a b); try lra
    | |- context [Req_dec_T ?a ?b] => destruct (Req_dec_T a b); try lra
    end.

(** ** Sorting by descending error *)

Lemma insert_desc_perm (r : ElementErrorRecord) (l : list ElementErrorRecord) :
  Permutation (insert_desc r l) (r :: l).
Proof.
  induction l as [|x l IH]; cbn; [reflexivity|].
  destruct (Rleb (err_squared x) (err_squared r)); [reflexivity|].
  rewrite IH. apply perm_swap.
Qed.

Lemma sort_desc_perm (l : list ElementErrorRecord) : Permutation (sort_desc l) l.
Proof.
  induction l as [|r l IH]; cbn; [reflexivity|].
  rewrite insert_desc_perm. now constructor.
Qed.

Lemma insert_desc_sorted (r : ElementErrorRecord) (l : list ElementErrorRecord) :
  descending l -> descending (insert_desc r l).
Proof.
  unfold descending. induction l as [|x l IH]; intros Hl; cbn.
  - repeat constructor.
  - destruct (Rleb (err_squared x) (err_squared r)) eqn:Hx.
    + apply Rleb_true_iff in Hx. constructor; [exact Hl | now constructor].
    + apply Rleb_false_iff in Hx.
      inversion Hl as [|? ? Hl' Hhd]; subst.
      constructor; [now apply IH|].
      destruct l as [|y l]; cbn.
      * constructor. lra.
      * destruct (Rleb (err_squared y) (err_squared r)); constructor; [lra|].
        now inversion Hhd.
Qed.

Lemma sort_desc_sorted (l : list ElementErrorRecord) : descending (sort_desc l).
Proof.
  induction l as [|r l IH]; cbn; [constructor | now apply insert_desc_sorted].
Qed.

(** ** Strategy "relative-to-max" *)

Lemma select_relative_to_max_iff (thr : R) (errs : list ElementErrorRecord)
    (r : ElementErrorRecord) :
  In r (select RelativeToMax thr errs) <->
  In r errs /\ thr * max_err_squared errs < err_squared r.
Proof.
  unfold select. rewrite filter_In. now rewrite Rltb_true_iff.
Qed.

Lemma sqrt_Rmax (x y : R) : sqrt (Rmax x y) = Rmax (sqrt x) (sqrt y).
Proof.
  destruct (Rle_dec x y) as [Hxy|Hxy].
  - rewrite !Rmax_right; auto. now apply sqrt_le_1_alt.
  - rewrite !Rmax_left; try lra. apply sqrt_le_1_alt. lra.
Qed.

(** The largest element error is the square root of the largest
    recorded value. *)
Lemma max_elem_error_sqrt (errs : list ElementErrorRecord) :
  max_elem_error errs = sqrt (max_err_squared errs).
Proof.
  induction errs as [|r [|x l] IH].
  - cbn. now rewrite sqrt_0.
  - reflexivity.
  - change (max_elem_error (r :: x :: l))
      with (Rmax (elem_error r) (max_elem_error (x :: l))).
    change (max_err_squared (r :: x :: l))
      with (Rmax (err_squared r) (max_err_squared (x :: l))).
    now rewrite IH, sqrt_Rmax.
Qed.

(** An element whose error is the positive fraction [k] of the largest
    element error has the recorded value [k * k] times the largest
    recorded value. *)
Lemma err_squared_of_fraction (errs : list ElementErrorRecord)
    (r : ElementErrorRecord) (k : R) :
  0 < k ->
  0 < max_elem_error errs ->
  elem_error r = k * max_elem_error errs ->
  0 < max_err_squared errs /\
  err_squared r = k * k * max_err_squared errs.
Proof.
  intros Hk Hmax Hr. rewrite max_elem_error_sqrt in Hmax, Hr.
  assert (HM : 0 < max_err_squared errs).
  { destruct (Rlt_dec 0 (max_err_squared errs)) as [H|H]; [exact H|].
    rewrite sqrt_neg_0 in Hmax; lra. }
  split; [exact HM|].
  assert (Hpos : 0 < elem_error r).
  { rewrite Hr. apply Rmult_lt_0_compat; assumption. }
  assert (Hr0 : 0 < err_squared r).
  { destruct (Rlt_dec 0 (err_squared r)) as [H|H]; [exact H|].
    unfold elem_error in Hpos. rewrite sqrt_neg_0 in Hpos; lra. }
  rewrite <- (sqrt_sqrt (err_squared r)) by lra.
  fold (elem_error r). rewrite Hr.
  rewrite <- (sqrt_sqrt (max_err_squared errs)) at 3 by lra. ring.
Qed.

(** In terms of element errors the rule reads: an element is refined if
    and only if its error exceeds sqrt(threshold) times the largest
    element error. *)
Lemma relative_to_max_in_element_errors (thr : R) (errs : list ElementErrorRecord)
    (r : ElementErrorRecord) :
  0 <= thr ->
  Forall (fun x => 0 <= err_squared x) errs ->
  (In r (select RelativeToMax thr errs) <->
   In r errs /\ sqrt thr * max_elem_error errs < elem_error r).
Proof.
  intros Hthr Hnn. rewrite select_relative_to_max_iff, max_elem_error_sqrt.
  rewrite <- sqrt_mult_alt by exact Hthr. unfold elem_error.
  assert (HM : 0 <= max_err_squared errs).
  { clear r. induction Hnn as [|x [|y l] Hx Hl IH]; cbn [max_err_squared]; try lra.
    apply Rle_trans with (err_squared x); [exact Hx | apply Rmax_l]. }
  split; intros [Hin Hlt]; (split; [exact Hin|]).
  - apply sqrt_lt_1_alt. split; [|exact Hlt].
    now apply Rmult_le_pos.
  - now apply sqrt_lt_0_alt.
Qed.

Lemma max_err_squared_three : max_err_squared three_elements = 1.
Proof. cbn. unfold Rmax. decide_R. Qed.

Lemma sqrt_of_square (x y : R) : 0 <= y -> x = y * y -> sqrt x = y.
Proof. intros Hy ->. now apply sqrt_square. Qed.



(** On the three elements the selection is the first and the third. *)
Example relative_to_max_on_three :
  select RelativeToMax THRESHOLD three_elements =
    [ {| elem_id := 0; err_squared := 1 |}; {| elem_id := 2; err_squared := 81 / 100 |} ].
Proof.
  unfold select, THRESHOLD. rewrite max_err_squared_three.
  cbn. unfold Rltb. decide_R. reflexivity.
Qed.

(** ** Strategy "cumulative" *)

Lemma total_err_squared_sum (l : list ElementErrorRecord) :
  total_err_squared l = fold_right Rplus 0 (map err_squared l).
Proof. induction l as [|r l IH]; cbn; [reflexivity | now rewrite IH]. Qed.

Lemma pred_err_cons (prev : option R) (r : ElementErrorRecord)
    (l : list ElementErrorRecord) (j : nat) :
  pred_err prev (r :: l) (S j) = pred_err (Some (err_squared r)) l j.
Proof. destruct j; reflexivity. Qed.

(** The walk of the cumulative strategy, from any accumulated error and
    any last refined error: it refines a prefix of the list; an element
    is refined because the limit was not yet reached when it was met, or
    because it ties with the element refined just before it; the first
    element left out was met after the limit had been reached and does
    not tie. *)
Lemma refine_until_spec (l : list ElementErrorRecord) :
  forall (limit processed : R) (prev : option R),
    let refined := refine_until limit processed prev l in
    refined = firstn (length refined) l /\
    (forall i r,
        nth_error refined i = Some r ->
        processed + fold_right Rplus 0 (map err_squared (firstn i l)) < limit \/
        pred_err prev l i = Some (err_squared r)) /\
    (forall r,
        nth_error l (length refined) = Some r ->
        limit <= processed + fold_right Rplus 0 (map err_squared refined) /\
        pred_err prev l (length refined) <> Some (err_squared r)).
Proof.
  induction l as [|r0 rest IH]; intros limit processed prev; cbn zeta.
  - cbn. split; [reflexivity|]. split.
    + intros [|i] r; discriminate.
    + intros r; discriminate.
  - cbn [refine_until].
    set (tied := match prev with Some p => Reqb (err_squared r0) p | None => false end).
    destruct (Rleb limit processed && negb tied) eqn:Hstop.
    + apply andb_true_iff in Hstop as [Hlim Htied].
      apply Rleb_true_iff in Hlim. apply negb_true_iff in Htied.
      cbn [length firstn nth_error]. split; [reflexivity|]. split.
      * intros [|i] r; discriminate.
      * intros r Hr. injection Hr as <-. split.
        -- cbn. lra.
        -- cbn. subst tied. destruct prev as [p|]; [|discriminate].
           intros Heq. injection Heq as ->.
           assert (Reqb (err_squared r0) (err_squared r0) = true) by now apply Reqb_true_iff.
           congruence.
    + specialize (IH limit (processed + err_squared r0) (Some (err_squared r0))).
      cbn zeta in IH. destruct IH as (Hpre & Hin & Hout).
      set (tl := refine_until limit (processed + err_squared r0)
                   (Some (err_squared r0)) rest) in *.
      cbn [length firstn]. split; [now rewrite <- Hpre|]. split.
      * intros [|i] r Hr.
        -- cbn in Hr. injection Hr as <-.
           apply andb_false_iff in Hstop as [Hlim|Htied].
           ++ left. apply Rleb_false_iff in Hlim. cbn. lra.
           ++ right. apply negb_false_iff in Htied. subst tied. cbn.
              destruct prev as [p|]; [|discriminate].
              apply Reqb_true_iff in Htied. now rewrite Htied.
        -- cbn [nth_error] in Hr. rewrite pred_err_cons.
           cbn [firstn map fold_right].
           destruct (Hin i r Hr) as [H|H]; [left; lra | now right].
      * intros r Hr. cbn [nth_error] in Hr.
        rewrite pred_err_cons. cbn [map fold_right].
        destruct (Hout r Hr) as [Hl Hno]. split; [lra | exact Hno].
Qed.

(** In a list sorted by descending error, what stands in front is at
    least as large as what follows. *)
Lemma descending_app (l1 l2 : list ElementErrorRecord) :
  descending (l1 ++ l2) ->
  forall a b, In a l1 -> In b l2 -> err_squared b <= err_squared a.
Proof.
  intros Hd. apply Sorted_StronglySorted in Hd.
  - induction l1 as [|x l1 IH]; intros a b Ha Hb; [contradiction|].
    cbn in Hd. inversion Hd as [|? ? Hd' Hall]; subst.
    destruct Ha as [<-|Ha].
    + rewrite Forall_forall in Hall. apply Hall, in_or_app. now right.
    + now apply IH.
  - intros x y z Hxy Hyz. lra.
Qed.

(** The last element of the front part is its smallest. *)
Lemma descending_last (l1 l2 : list ElementErrorRecord) :
  descending (l1 ++ l2) ->
  forall a y, In a l1 -> nth_error l1 (Nat.pred (length l1)) = Some y ->
    err_squared y <= err_squared a.
Proof.
  intros Hd. apply Sorted_StronglySorted in Hd; [|intros x y z Hxy Hyz; lra].
  induction l1 as [|x l1 IH]; intros a y Ha Hy; [contradiction|].
  cbn in Hd. inversion Hd as [|? ? Hd' Hall]; subst.
  destruct l1 as [|x' l1].
  - cbn in Hy. injection Hy as <-. destruct Ha as [<-|[]]. lra.
  - cbn [length Nat.pred nth_error] in Hy.
    destruct Ha as [<-|Ha].
    + rewrite Forall_forall in Hall. apply Hall, in_or_app. left.
      now apply nth_error_In in Hy.
    + apply (IH Hd' a y Ha). exact Hy.
Qed.

(** The last element of a non-empty list, by position. *)
Lemma nth_error_last (l : list ElementErrorRecord) (a : ElementErrorRecord) :
  In a l -> exists y, nth_error l (Nat.pred (length l)) = Some y /\ In y l.
Proof.
  intros Ha. destruct (nth_error l (Nat.pred (length l))) as [y|] eqn:Hy.
  - exists y. split; [reflexivity | now apply nth_error_In in Hy].
  - apply nth_error_None in Hy. destruct l; [contradiction | cbn in Hy; lia].
Qed.

(** C6: under strategy "cumulative" ([STRATEGY] = 0 in [crack] and in
    [singpert]) the refinement step sorts the elements by descending
    error and refines them in that order until the accumulated processed
    error reaches sqrt(threshold) times the total error: the refined
    elements are a prefix of the sorted list, each of them was met before
    the limit was reached or ties with the element refined just before
    it, and the first element left out was met after the limit had been
    reached and does not tie; so the error of the refined elements
    reaches the limit unless all elements are refined.  Elements of
    equal error are refined together: whatever has the error of a
    refined element is refined as well. *)
Theorem cumulative_selection (thr : R) (errs : list ElementErrorRecord) :
  let sorted := sort_desc errs in
  let limit := sqrt thr * fold_right Rplus 0 (map err_squared errs) in
  let refined := select Cumulative thr errs in
  strategy_of Crack.STRATEGY = Some Cumulative /\
  strategy_of Singpert.STRATEGY = Some Cumulative /\
  Permutation sorted errs /\
  descending sorted /\
  refined = firstn (length refined) sorted /\
  (forall i r,
      nth_error refined i = Some r ->
      fold_right Rplus 0 (map err_squared (firstn i sorted)) < limit \/
      pred_err None sorted i = Some (err_squared r)) /\
  (forall r,
      nth_error sorted (length refined) = Some r ->
      limit <= fold_right Rplus 0 (map err_squared refined) /\
      pred_err None sorted (length refined) <> Some (err_squared r)) /\
  (limit <= fold_right Rplus 0 (map err_squared refined) \/ refined = sorted) /\
  (forall a b,
      In a refined -> In b errs -> err_squared b = err_squared a -> In b refined).
Proof.
  intros sorted limit refined.
  destruct (refine_until_spec sorted limit 0 None) as (Hpre & Hin & Hout).
  assert (Hsel : refine_until limit 0 None sorted = refined).
  { unfold refined, select, limit, sorted. now rewrite total_err_squared_sum. }
  rewrite Hsel in Hpre, Hin, Hout.
  assert (Hin' : forall i r, nth_error refined i = Some r ->
            fold_right Rplus 0 (map err_squared (firstn i sorted)) < limit \/
            pred_err None sorted i = Some (err_squared r)).
  { intros i r Hr. destruct (Hin i r Hr) as [H|H]; [left; lra | now right]. }
  assert (Hout' : forall r, nth_error sorted (length refined) = Some r ->
            limit <= fold_right Rplus 0 (map err_squared refined) /\
            pred_err None sorted (length refined) <> Some (err_squared r)).
  { intros r Hr. destruct (Hout r Hr) as [H1 H2]. split; [lra | exact H2]. }
  split; [reflexivity|]. split; [reflexivity|].
  split; [apply sort_desc_perm|]. split; [apply sort_desc_sorted|].
  split; [exact Hpre|]. split; [exact Hin'|]. split; [exact Hout'|].
  split.
  - destruct (nth_error sorted (length refined)) as [x|] eqn:Hx.
    + left. now destruct (Hout' x eq_refl).
    + right. apply nth_error_None in Hx. rewrite Hpre.
      now apply firstn_all2.
  - intros a b Ha Hb Heq.
    assert (Hsplit : sorted = refined ++ skipn (length refined) sorted).
    { rewrite Hpre at 1. symmetry. apply firstn_skipn. }
    assert (Hbs : In b sorted).
    { apply (Permutation_in b (Permutation_sym (sort_desc_perm errs)) Hb). }
    rewrite Hsplit in Hbs. apply in_app_or in Hbs as [Hbr|Hbk]; [exact Hbr|].
    exfalso.
    destruct (skipn (length refined) sorted) as [|x rest] eqn:Hrest;
      [contradiction|].
    assert (Hx : nth_error sorted (length refined) = Some x).
    { rewrite Hsplit, nth_error_app2 by lia. now rewrite Nat.sub_diag. }
    destruct (Hout' x Hx) as [_ Hno].
    destruct (nth_error_last refined a Ha) as (y & Hy & Hyin).
    pose proof (sort_desc_sorted errs) as Hd. fold sorted in Hd. rewrite Hsplit in Hd.
    assert (Hxy : err_squared x <= err_squared y).
    { apply (descending_app _ _ Hd); [exact Hyin | now left]. }
    assert (Hbx : err_squared b <= err_squared x).
    { destruct Hbk as [<-|Hbk]; [lra|].
      replace (refined ++ x :: rest) with ((refined ++ [x]) ++ rest) in Hd
        by now rewrite <- app_assoc.
      apply (descending_app _ _ Hd); [apply in_or_app; right; now left | exact Hbk]. }
    assert (Hya : err_squared y <= err_squared a).
    { apply (descending_last _ _ Hd a y Ha Hy). }
    apply Hno.
    destruct (length refined) as [|k] eqn:Hlen.
    + destruct refined; [contradiction | discriminate].
    + cbn [pred_err]. cbn [Nat.pred] in Hy.
      assert (Hyk : nth_error sorted k = Some y).
      { rewrite Hsplit, nth_error_app1 by lia. exact Hy. }
      rewrite Hyk. cbn. f_equal. lra.
Qed.

Lemma sqrt_quarter : sqrt (1 / 4) = 1 / 2.
Proof.
  replace (1 / 4) with ((1 / 2) * (1 / 2)) by lra.
  apply sqrt_square. lra.
Qed.

(** Recorded values 1, 2, 4, 2 and threshold 1/4: the limit is 4.5 of a
    total of 9.  The element of value 4 and the first element of value 2
    are met before the limit is reached; the second element of value 2
    is met at 6 but ties, and is refined with the first; the element of
    value 1 is left out. *)
Example cumulative_refines_ties :
  select Cumulative (1 / 4) tied_elements =
    [ {| elem_id := 2; err_squared := 4 |};
      {| elem_id := 1; err_squared := 2 |};
      {| elem_id := 3; err_squared := 2 |} ].
Proof.
  unfold select. rewrite sqrt_quarter.
  repeat (progress (cbn; unfold Rleb, Reqb; decide_R)).
  reflexivity.
Qed.

(** The REFINE step on the estimator's records in the plane, for the
    coarse solution (3, 0) and the reference solution (3, 4): the pass
    records 0 for the first element and 16 for the second, and both
    strategies of the drivers refine the second element only. *)
Example refine_step_plane :
  refine_step (FS := Estimator.plane) RelativeToMax THRESHOLD (3, 0) (3, 4) =
    [ {| elem_id := 1; err_squared := (4 - 0) * (4 - 0) |} ] /\
  refine_step (FS := Estimator.plane) Cumulative (1 / 4) (3, 0) (3, 4) =
    [ {| elem_id := 1; err_squared := (4 - 0) * (4 - 0) |} ].
Proof.
  unfold refine_step, select, THRESHOLD. rewrite sqrt_quarter. split.
  - cbn. unfold Rmax.
    destruct (Rle_dec ((3 - 3) * (3 - 3)) ((4 - 0) * (4 - 0))); [|lra].
    unfold Rltb. decide_R. reflexivity.
  - repeat (progress (cbn; unfold Rleb, Reqb; decide_R)). reflexivity.
Qed.
End SelectionFacts.


(* ================================================================== *)
(** * The error estimator and the projector *)
(* ================================================================== *)

Module EstimatorFacts.
Import Estimator.
Open Scope R_scope.

Section Contracts.
Context {FS : FunctionSpace}.

Lemma Rsum_zeros (l : list R) : (forall x, In x l -> x = 0) -> Rsum l = 0.
Proof.
  induction l as [|x l IH]; intros H; [reflexivity|].
  change (x + Rsum l = 0).
  rewrite (H x (or_introl eq_refl)), IH; [lra|].
  intros y Hy. apply H. now right.
Qed.

(** A sum of non-negative numbers is non-negative, and it is zero only
    if all of them are. *)
Lemma sum_nonneg (l : list R) :
  (forall x, In x l -> 0 <= x) -> 0 <= fold_right Rplus 0 l.
Proof.
  induction l as [|x l IH]; intros H; cbn; [lra|].
  pose proof (H x (or_introl eq_refl)).
  assert (0 <= fold_right Rplus 0 l) by (apply IH; intros y Hy; apply H; now right).
  lra.
Qed.

Lemma sum_zero_inv (l : list R) :
  (forall x, In x l -> 0 <= x) -> fold_right Rplus 0 l = 0 ->
  forall x, In x l -> x = 0.
Proof.
  induction l as [|y l IH]; intros H Hsum x Hx; [contradiction|].
  cbn in Hsum.
  pose proof (H y (or_introl eq_refl)).
  assert (0 <= fold_right Rplus 0 l)
    by (apply sum_nonneg; intros z Hz; apply H; now right).
  destruct Hx as [<-|Hx]; [lra|].
  apply IH; auto; [|lra]. intros z Hz. apply H. now right.
Qed.

Lemma Rsum_fold (l : list R) : Rsum l = fold_right Rplus 0 l.
Proof. reflexivity. Qed.

(** The estimator's pass from any accumulator: it appends one record
    per element, numbered onwards, and adds the element's squared error
    and reference energy to the two totals. *)
Lemma fold_visit (coarse ref : Fn) (els : list Elem) :
  forall acc : accumulator,
    let acc' := fold_left (visit coarse ref) els acc in
    map err_squared (records acc') =
      map err_squared (records acc) ++
      map (fun e => error_form e (fsub ref coarse) (fsub ref coarse)) els /\
    map elem_id (records acc') =
      map elem_id (records acc) ++ seq (length (records acc)) (length els) /\
    total_squared acc' =
      total_squared acc +
      fold_right Rplus 0
        (map (fun e => error_form e (fsub ref coarse) (fsub ref coarse)) els) /\
    norm_squared acc' =
      norm_squared acc + fold_right Rplus 0 (map (fun e => error_form e ref ref) els).
Proof.
  induction els as [|e els IH]; intros acc; cbn zeta.
  - cbn. rewrite !app_nil_r. repeat split; lra.
  - cbn [fold_left]. destruct (IH (visit coarse ref acc e)) as (H1 & H2 & H3 & H4).
    rewrite H1, H2, H3, H4. cbn [visit records total_squared norm_squared].
    rewrite !map_app, length_app, <- !app_assoc. cbn [map app length seq fold_right].
    replace (length (records acc) + 1)%nat with (S (length (records acc))) by lia.
    repeat split; lra.
Qed.

Lemma accumulate_spec (coarse ref : Fn) :
  map err_squared (records (accumulate coarse ref)) =
    map (fun e => error_form e (fsub ref coarse) (fsub ref coarse)) elements /\
  map elem_id (records (accumulate coarse ref)) = seq 0 (length elements) /\
  total_squared (accumulate coarse ref) =
    fold_right Rplus 0
      (map (fun e => error_form e (fsub ref coarse) (fsub ref coarse)) elements) /\
  norm_squared (accumulate coarse ref) =
    fold_right Rplus 0 (map (fun e => error_form e ref ref) elements).
Proof.
  unfold accumulate.
  destruct (fold_visit coarse ref elements
              {| records := []; total_squared := 0; norm_squared := 0 |})
    as (H1 & H2 & H3 & H4).
  cbn [records total_squared norm_squared map app length] in H1, H2, H3, H4.
  repeat split; [exact H1 | exact H2 | lra | lra].
Qed.

(** The pass computes the estimate of the closed formula. *)
Lemma reported_error_err_est (coarse ref : Fn) :
  reported_error coarse ref = err_est coarse ref.
Proof.
  unfold reported_error, calc_elem_errors, err_est, calc_error, normalization,
    total_error_squared, elem_errors_squared, elem_error_squared.
  cbv zeta. cbn [fst]. destruct (accumulate_spec coarse ref) as (_ & _ & -> & ->).
  reflexivity.
Qed.

Context (Laws : FunctionSpaceLaws FS).

(** The error form vanishes on the zero function. *)
Lemma error_form_zero (e : Elem) (v : Fn) : error_form e fzero v = 0.
Proof.
  rewrite <- (fscale_zero fzero), error_form_scale. lra.
Qed.

Lemma elem_error_squared_same (ref : Fn) (e : Elem) : elem_error_squared ref ref e = 0.
Proof. unfold elem_error_squared. rewrite fsub_diag. apply error_form_zero. Qed.

Lemma err_est_same (ref : Fn) : err_est ref ref = 0.
Proof.
  unfold err_est, calc_error, total_error_squared, elem_errors_squared.
  rewrite Rsum_zeros.
  - rewrite sqrt_0. unfold Rdiv. ring.
  - intros x Hx. apply in_map_iff in Hx as (e & <- & _).
    apply elem_error_squared_same.
Qed.

(** A function of the coarse space is its own projection, and the only
    one. *)
Lemma projection_exists (ref : Fn) : in_coarse ref -> is_projection ref ref.
Proof.
  intros Hin. split; [exact Hin|].
  intros c _. rewrite fsub_diag, proj_norm_zero. apply proj_norm_nonneg.
Qed.

Lemma projection_unique (ref p : Fn) :
  in_coarse ref -> is_projection ref p -> p = ref.
Proof.
  intros Hin [_ Hmin]. apply proj_norm_definite.
  specialize (Hmin ref Hin). rewrite fsub_diag, proj_norm_zero in Hmin.
  pose proof (proj_norm_nonneg (fsub ref p)). lra.
Qed.
End Contracts.

(** C3: the total error the estimator reports is
    100 * sqrt(sum of the squared element errors) / normalization, where
    the squared element errors are the values the pass records, one per
    coarse element, and the normalization is the norm of the reference
    solution.  For an error form that is non-negative on the diagonal
    and a reference solution of positive norm, the square root and the
    quotient are taken of what they are defined on, and the reported
    error is not negative; it is zero exactly when every recorded
    element error is zero, and so it is zero when the coarse solution
    equals the reference solution it is compared with. *)
Theorem reported_total_error (FS : FunctionSpace) (Laws : FunctionSpaceLaws FS)
    (coarse ref : Fn) :
  (forall e u, 0 <= error_form e u u) ->
  0 < fold_right Rplus 0 (map (fun e => error_form e ref ref) elements) ->
  let recs := snd (calc_elem_errors coarse ref) in
  let sum_squared := fold_right Rplus 0 (map err_squared recs) in
  let norm := sqrt (fold_right Rplus 0 (map (fun e => error_form e ref ref) elements)) in
  map err_squared recs =
    map (fun e => error_form e (fsub ref coarse) (fsub ref coarse)) elements /\
  map elem_id recs = seq 0 (length elements) /\
  reported_error coarse ref = 100 * sqrt sum_squared / norm /\
  reported_error coarse ref = err_est coarse ref /\
  0 <= sum_squared /\
  0 < norm /\
  0 <= reported_error coarse ref /\
  (reported_error coarse ref = 0 <-> forall r, In r recs -> err_squared r = 0) /\
  reported_error ref ref = 0.
Proof.
  intros Hpos Href recs sum_squared norm.
  destruct (accumulate_spec coarse ref) as (Hrec & Hid & Htot & Hnorm).
  assert (Hrep : reported_error coarse ref = 100 * sqrt sum_squared / norm).
  { unfold reported_error, sum_squared, recs, norm, calc_elem_errors.
    cbv zeta. cbn [fst snd]. rewrite Hrec, Htot, Hnorm. unfold Rdiv. ring. }
  assert (Hsum : 0 <= sum_squared).
  { unfold sum_squared, recs, calc_elem_errors. cbv zeta. cbn [snd]. rewrite Hrec.
    apply sum_nonneg. intros x Hx. apply in_map_iff in Hx as (e & <- & _).
    apply Hpos. }
  assert (Hn : 0 < norm) by (now apply sqrt_lt_R0).
  assert (Hquot : forall x, 0 <= x -> 0 <= 100 * x / norm).
  { intros x Hx. unfold Rdiv. apply Rmult_le_pos; [lra|].
    left. now apply Rinv_0_lt_compat. }
  split; [exact Hrec|]. split; [exact Hid|]. split; [exact Hrep|].
  split; [apply reported_error_err_est|]. split; [exact Hsum|].
  split; [exact Hn|]. split; [|split].
  - rewrite Hrep. apply Hquot, sqrt_pos.
  - rewrite Hrep. split.
    + intros H0 r Hr.
      assert (Hs0 : sqrt sum_squared = 0).
      { apply Rmult_eq_reg_r with (/ norm);
          [|apply Rinv_neq_0_compat; lra].
        unfold Rdiv in H0. lra. }
      apply sqrt_eq_0 in Hs0; [|exact Hsum].
      apply (sum_zero_inv (map err_squared recs)).
      * intros x Hx. unfold recs, calc_elem_errors in Hx. cbv zeta in Hx.
        cbn [snd] in Hx.
        rewrite Hrec in Hx. apply in_map_iff in Hx as (e & <- & _). apply Hpos.
      * exact Hs0.
      * now apply in_map.
    + intros Hall.
      assert (Hs0 : sum_squared = 0).
      { unfold sum_squared. rewrite <- Rsum_fold. apply Rsum_zeros.
        intros x Hx. apply in_map_iff in Hx as (r & <- & Hr). now apply Hall. }
      rewrite Hs0, sqrt_0. unfold Rdiv. ring.
  - rewrite reported_error_err_est. now apply err_est_same.
Qed.

(** C7: a reference solution that the coarse space represents exactly
    has a projection onto the coarse space, namely itself; whatever the
    projector returns for it is that same function, the residual of the
    projection is zero, and the error estimated between the projection
    and the reference solution is zero. *)
Theorem projection_idempotent (FS : FunctionSpace) (Laws : FunctionSpaceLaws FS)
    (ref p : Fn) :
  in_coarse ref ->
  is_projection ref p ->
  is_projection ref ref /\
  p = ref /\
  proj_norm (fsub ref p) = 0 /\
  err_est p ref = 0.
Proof.
  intros Hin Hp.
  assert (Heq : p = ref) by now apply projection_unique.
  subst p. repeat split.
  - now apply projection_exists.
  - now destruct Hp.
  - now rewrite fsub_diag, proj_norm_zero.
  - now apply err_est_same.
Qed.

(** The laws hold in the plane. *)
Lemma plane_laws : FunctionSpaceLaws plane.
Proof.
  constructor; cbn.
  - intros [a b]. cbn. f_equal; ring.
  - intros [a b]. cbn. f_equal; ring.
  - intros [] k [a b] [c d]; cbn; ring.
  - intros [a b]. cbn. pose proof (Rabs_pos a). pose proof (Rabs_pos b). lra.
  - rewrite Rabs_R0. lra.
  - intros [a b] [c d]. cbn. intros H.
    pose proof (Rabs_pos (a - c)) as Ha. pose proof (Rabs_pos (b - d)) as Hb.
    assert (Ha0 : Rabs (a - c) = 0) by lra.
    assert (Hb0 : Rabs (b - d) = 0) by lra.
    destruct (Req_dec (a - c) 0) as [Hac|Hac];
      [|exfalso; now apply (Rabs_no_R0 _ Hac)].
    destruct (Req_dec (b - d) 0) as [Hbd|Hbd];
      [|exfalso; now apply (Rabs_no_R0 _ Hbd)].
    f_equal; lra.
Qed.

(** In the plane, for the reference solution (3, 4) and the coarse
    solution (3, 0): the pass records 0 and 16, the norm of the
    reference solution is 5, and the reported error is 80 percent. *)
Lemma reported_total_error_witness :
  map err_squared (snd (calc_elem_errors (FS := plane) (3, 0) (3, 4))) =
    map (fun e => @error_form plane e (@fsub plane (3, 4) (3, 0))
                              (@fsub plane (3, 4) (3, 0))) (@elements plane) /\
  reported_error (FS := plane) (3, 0) (3, 4) =
    100 * sqrt (fold_right Rplus 0
                  (map err_squared (snd (calc_elem_errors (FS := plane) (3, 0) (3, 4)))))
    / sqrt (fold_right Rplus 0
              (map (fun e => @error_form plane e (3, 4) (3, 4)) (@elements plane))) /\
  0 <= reported_error (FS := plane) (3, 0) (3, 4) /\
  reported_error (FS := plane) (3, 4) (3, 4) = 0.
Proof.
  pose proof (reported_total_error plane plane_laws (3, 0) (3, 4)) as H.
  cbv zeta in H.
  destruct H as (H1 & _ & H3 & _ & _ & _ & H7 & _ & H9).
  - intros [] [a b]; cbn; nra.
  - cbn. lra.
  - repeat split; assumption.
Defined.

(** In the plane, the reference solution (3, 0) lies in the coarse
    space and is its own projection. *)
Lemma projection_idempotent_witness :
  is_projection (FS := plane) (3, 0) (3, 0) /\
  (3, 0) = (3, 0) /\
  @proj_norm plane (@fsub plane (3, 0) (3, 0)) = 0 /\
  err_est (FS := plane) (3, 0) (3, 0) = 0.
Proof.
  apply (projection_idempotent plane plane_laws (3, 0) (3, 0)).
  - reflexivity.
  - split; [reflexivity|].
    intros [c d] _. cbn.
    replace (3 - 3) with 0 by ring. replace (0 - 0) with 0 by ring.
    rewrite Rabs_R0.
    pose proof (Rabs_pos (3 - c)). pose proof (Rabs_pos (0 - d)). lra.
Defined.

(** In the plane the estimate sees what the coarse space cannot
    represent: for the reference solution (3, 4) the projection is
    (3, 0), and the estimate is 80 percent. *)
Example err_est_plane : err_est (FS := plane) (3, 0) (3, 4) = 80.
Proof.
  unfold err_est, calc_error, total_error_squared, elem_errors_squared,
    elem_error_squared, normalization. cbn.
  replace (((3 - 3) * (3 - 3) + ((4 - 0) * (4 - 0) + 0))) with (4 * 4) by ring.
  replace (3 * 3 + (4 * 4 + 0)) with (5 * 5) by ring.
  rewrite !sqrt_square by lra. lra.
Qed.

(** The pass over the two elements of the plane reports the same 80
    percent and records the squared element errors 0 and 16. *)
Example reported_error_plane :
  reported_error (FS := plane) (3, 0) (3, 4) = 80 /\
  map err_squared (snd (calc_elem_errors (FS := plane) (3, 0) (3, 4))) =
    [(3 - 3) * (3 - 3); (4 - 0) * (4 - 0)].
Proof.
  split; [rewrite reported_error_err_est; apply err_est_plane | reflexivity].
Qed.
End EstimatorFacts.


(* ================================================================== *)
(** * Whole passes and whole runs *)
(* ================================================================== *)

(** Brings both sides of a pass equation to the same normal form. *)
Ltac normalise_pass :=
  cbv [bind get put modify call call_or_fail mark ret
       set_slns set_ref_slns set_coarse set_done incr_as coarse total_ndof
       u_mesh v_mesh u_space v_space u_sln v_sln ref_u_sln ref_v_sln as_step done
       fst snd app build_trace
       reference_spaces_spec reference_space_spec reference_mesh_spec
       CrackPass.pass_trace CrackPass.next CrackPass.refined CrackPass.stops
       CrackPass.err_est CrackPass.estimator CrackPass.projected CrackPass.adapted
       BracketPass.pass_trace BracketPass.next BracketPass.refined BracketPass.stops
       BracketPass.err_est BracketPass.estimator BracketPass.projected
       BracketPass.adapted].

Section PassEquations.
Context {L : Hermes2D}.

(** A pass of [crack] whose solve succeeds, written out. *)
Lemma crack_iteration_eq (st : state) (r : Solution * Solution) :
  solve_linear (reference_spaces_spec st) Crack.wf Crack.matrix_solver = Some r ->
  Crack.iteration st = (CrackPass.pass_trace st r, Ok tt (CrackPass.next st r)).
Proof.
  intros Hsolve. unfold Crack.iteration. run_body.
  unfold reference_spaces_spec, reference_space_spec, reference_mesh_spec in Hsolve.
  rewrite Hsolve. normalise_pass.
  match goal with
  | |- context [if ((?a <? Crack.ERR_STOP)%float || ?b)%bool then _ else _] =>
      destruct ((a <? Crack.ERR_STOP)%float || b)%bool
  end; [reflexivity|].
  match goal with
  | |- context [if (Crack.NDOF_STOP <=? ?x)%Z then _ else _] =>
      destruct (Crack.NDOF_STOP <=? x)%Z
  end; reflexivity.
Qed.

(** A pass of [bracket] whose solve succeeds, written out. *)
Lemma bracket_iteration_eq (st : state) (r : Solution * Solution) :
  solve_linear (reference_spaces_spec st) Bracket.wf SOLVER_UMFPACK = Some r ->
  Bracket.iteration st = (BracketPass.pass_trace st r, Ok tt (BracketPass.next st r)).
Proof.
  intros Hsolve. unfold Bracket.iteration. run_body.
  unfold reference_spaces_spec, reference_space_spec, reference_mesh_spec in Hsolve.
  rewrite Hsolve. normalise_pass.
  match goal with
  | |- context [if (?a <? Bracket.ERR_STOP)%float then _ else _] =>
      destruct (a <? Bracket.ERR_STOP)%float
  end; [reflexivity|].
  match goal with
  | |- context [if (Bracket.NDOF_STOP <=? ?x)%Z then _ else _] =>
      destruct (Bracket.NDOF_STOP <=? x)%Z
  end; reflexivity.
Qed.
End PassEquations.

Section Tally.
Context {Sp : Type}.

Lemma count_events_app (p : event Sp -> bool) (t1 t2 : list (event Sp)) :
  count_events p (t1 ++ t2) = (count_events p t1 + count_events p t2)%nat.
Proof. unfold count_events. now rewrite filter_app, length_app. Qed.

Lemma tally_nil : tally (@nil (event Sp)) 0 0 0.
Proof. repeat split. Qed.

Lemma tally_app (t1 t2 : list (event Sp)) (s1 a1 c1 s2 a2 c2 : nat) :
  tally t1 s1 a1 c1 -> tally t2 s2 a2 c2 ->
  tally (t1 ++ t2) (s1 + s2) (a1 + a2) (c1 + c2).
Proof.
  unfold tally. intros (H1 & H2 & H3 & H4 & H5 & H6 & H7) (K1 & K2 & K3 & K4 & K5 & K6 & K7).
  rewrite !count_events_app. repeat split; congruence.
Qed.
End Tally.

(** ** Loops whose passes solve once and adapt at most once *)

Section OutOfFuel.
Context {E St : Type}.
Variable body : M E St unit.
Variable cond : St -> bool.

(** A run that exhausted its bound made that many passes, all of them
    completed and all of them leaving the loop condition true. *)
Lemma do_while_fuel_inv (fuel : nat) :
  forall (s sf : St) (tr : list E),
    do_while body cond fuel s = (tr, Ok OutOfFuel sf) ->
    completed_iterations body cond fuel s = Some (tr, sf).
Proof.
  induction fuel as [|fuel IH]; intros s sf tr Hrun.
  - cbn in Hrun. injection Hrun as <- <-. reflexivity.
  - rewrite do_while_step in Hrun. cbn [completed_iterations].
    destruct (body s) as [t0 [[] s0|e0 s0]] eqn:Hb0; [|discriminate].
    destruct (cond s0) eqn:Hc; [|discriminate].
    destruct (do_while body cond fuel s0) as [t1 r1] eqn:Hrest.
    cbn [fst snd] in Hrun. injection Hrun as <- ->.
    now rewrite (IH _ _ _ Hrest).
Qed.

(** The outcome of a run does not depend on the bound once the bound is
    large enough for the loop to be left. *)
Lemma do_while_more_fuel (fuel : nat) :
  forall (s sf : St) (tr : list E) (fuel' : nat),
    do_while body cond fuel s = (tr, Ok LoopDone sf) ->
    (fuel <= fuel')%nat ->
    do_while body cond fuel' s = (tr, Ok LoopDone sf).
Proof.
  intros s sf tr fuel' Hrun Hle.
  apply do_while_done_inv in Hrun as (n & t & s' & t' & Hlt & Hn & Hb & Hc & ->).
  eapply do_while_done_after; eauto. lia.
Qed.
End OutOfFuel.

Section PassTally.
Context {L : Hermes2D}.
Variable body : M (event Space) state unit.

Hypothesis pass_ok :
  forall st t st',
    body st = (t, Ok tt st') ->
    (tally t 1 1 1 \/ (tally t 1 0 1 /\ done st' = true)) /\
    as_step st' = (as_step st + 1)%Z.

Hypothesis pass_abort :
  forall st t e sf,
    body st = (t, Abort e sf) -> tally t 1 0 0 /\ sf = st.

Lemma completed_tally (n : nat) :
  forall st t s,
    completed_iterations body (fun st => negb (done st)) n st = Some (t, s) ->
    tally t n n n /\ as_step s = (as_step st + Z.of_nat n)%Z.
Proof.
  induction n as [|n IH]; intros st t s Hn.
  - cbn in Hn. injection Hn as <- <-. split; [apply tally_nil | lia].
  - cbn in Hn. destruct (body st) as [t0 [[] s0|e0 s0]] eqn:Hb; [|discriminate].
    destruct (negb (done s0)) eqn:Hc; [|discriminate].
    destruct (completed_iterations _ _ n s0) as [[t1 s1]|] eqn:Hn'; [|discriminate].
    injection Hn as <- <-.
    destruct (pass_ok _ _ _ Hb) as [[Ht|[_ Hd]] Has].
    + destruct (IH _ _ _ Hn') as [Ht1 Has1].
      split; [apply (tally_app _ _ 1 1 1 n n n Ht Ht1) | lia].
    + rewrite Hd in Hc. discriminate.
Qed.

(** The tally and the step counter of a run, by the way it ended. *)
Lemma run_tally (fuel : nat) (st : state) :
  let tr := fst (do_while body (fun st => negb (done st)) fuel st) in
  match snd (do_while body (fun st => negb (done st)) fuel st) with
  | Ok LoopDone sf =>
      exists k, (k < fuel)%nat /\
        (tally tr (S k) (S k) (S k) \/ tally tr (S k) k (S k)) /\
        as_step sf = (as_step st + Z.of_nat (S k))%Z
  | Ok OutOfFuel sf =>
      tally tr fuel fuel fuel /\ as_step sf = (as_step st + Z.of_nat fuel)%Z
  | Abort _ sf =>
      exists k, (k < fuel)%nat /\ tally tr (S k) k k /\
        as_step sf = (as_step st + Z.of_nat k)%Z
  end.
Proof.
  destruct (do_while body _ fuel st) as [tr [[] sf|e sf]] eqn:Hrun; cbn [fst snd].
  - apply do_while_done_inv in Hrun as (n & t & s' & t' & Hlt & Hn & Hb & Hc & ->).
    destruct (completed_tally _ _ _ _ Hn) as [Ht Has].
    destruct (pass_ok _ _ _ Hb) as [[Ht'|[Ht' _]] Has'].
    + exists n. split; [lia|]. split; [left|lia].
      replace (S n) with (n + 1)%nat by lia. now apply tally_app.
    + exists n. split; [lia|]. split; [right|lia].
      replace (S n) with (n + 1)%nat by lia.
      replace n with (n + 0)%nat at 2 by lia. now apply tally_app.
  - apply do_while_fuel_inv in Hrun. now apply completed_tally.
  - apply do_while_abort_inv in Hrun as (n & t & s' & t' & Hlt & Hn & Hb & ->).
    destruct (completed_tally _ _ _ _ Hn) as [Ht Has].
    destruct (pass_abort _ _ _ _ Hb) as [Ht' ->].
    exists n. split; [lia|]. split; [|lia].
    replace (S n) with (n + 1)%nat by lia.
    replace n with (n + 0)%nat at 2 3 by lia. now apply tally_app.
Qed.
End PassTally.

(** ** Loops whose passes solve first and adapt last *)

Lemma alternating_app {Sp : Type} (t1 t2 : list (event Sp)) :
  forall b, alternating b (t1 ++ t2) = alternating b t1 && alternating (turn b t1) t2.
Proof.
  induction t1 as [|e t1 IH]; intros b; [reflexivity|].
  cbn [app alternating turn].
  destruct (is_solve e); [now rewrite IH, andb_assoc|].
  destruct (is_adapt e); [now rewrite IH, andb_assoc|].
  apply IH.
Qed.

Section PassAlternation.
Context {L : Hermes2D}.
Variable body : M (event Space) state unit.

Hypothesis pass_turns_ok :
  forall st t st',
    body st = (t, Ok tt st') ->
    alternating true t = true /\ (turn true t = true \/ done st' = true).

Hypothesis pass_turns_abort :
  forall st t e sf, body st = (t, Abort e sf) -> alternating true t = true.

Lemma run_alternates (fuel : nat) :
  forall st, alternating true (fst (do_while body (fun st => negb (done st)) fuel st)) = true.
Proof.
  induction fuel as [|fuel IH]; intros st; [reflexivity|].
  rewrite do_while_step.
  destruct (body st) as [t [[] s'|e s']] eqn:Hb.
  - destruct (pass_turns_ok _ _ _ Hb) as [Halt Hturn].
    destruct (negb (done s')) eqn:Hc; cbn [fst]; [|exact Halt].
    rewrite alternating_app, Halt.
    destruct Hturn as [->|Hd]; [apply IH|].
    rewrite Hd in Hc. discriminate.
  - cbn [fst]. now apply (pass_turns_abort _ _ _ _ Hb).
Qed.
End PassAlternation.

Section ElasticityPasses.
Context {L : Hermes2D}.

Lemma tally_build_solve (sp : Space * Space) :
  tally (build_trace ++ [EvSolveLinear sp]) 1 0 0.
Proof. repeat split. Qed.

Lemma as_step_crack_next (st : state) (r : Solution * Solution) :
  as_step (CrackPass.next st r) = (as_step st + 1)%Z.
Proof.
  unfold CrackPass.next, CrackPass.refined.
  destruct (CrackPass.stops st r); [reflexivity|].
  cbv zeta. destruct (Crack.NDOF_STOP <=? _)%Z; reflexivity.
Qed.

Lemma as_step_bracket_next (st : state) (r : Solution * Solution) :
  as_step (BracketPass.next st r) = (as_step st + 1)%Z.
Proof.
  unfold BracketPass.next, BracketPass.refined.
  destruct (BracketPass.stops st r); [reflexivity|].
  cbv zeta. destruct (Bracket.NDOF_STOP <=? _)%Z; reflexivity.
Qed.

Lemma crack_pass_ok (st : state) (t : list (event Space)) (st' : state) :
  Crack.iteration st = (t, Ok tt st') ->
  (tally t 1 1 1 \/ (tally t 1 0 1 /\ done st' = true)) /\
  as_step st' = (as_step st + 1)%Z.
Proof.
  intros Hit.
  destruct (solve_linear (reference_spaces_spec st) Crack.wf Crack.matrix_solver)
    as [r|] eqn:Hsolve.
  - rewrite (crack_iteration_eq st r Hsolve) in Hit. injection Hit as <- <-.
    split; [|apply as_step_crack_next].
    unfold CrackPass.pass_trace, CrackPass.next.
    destruct (CrackPass.stops st r).
    + right. split; [repeat split | reflexivity].
    + left. repeat split.
  - rewrite (crack_iteration_abort st Hsolve) in Hit. discriminate.
Qed.

Lemma crack_pass_abort (st : state) (t : list (event Space)) (e : error) (sf : state) :
  Crack.iteration st = (t, Abort e sf) -> tally t 1 0 0 /\ sf = st.
Proof.
  intros Hit.
  destruct (solve_linear (reference_spaces_spec st) Crack.wf Crack.matrix_solver)
    as [r|] eqn:Hsolve.
  - rewrite (crack_iteration_eq st r Hsolve) in Hit. discriminate.
  - rewrite (crack_iteration_abort st Hsolve) in Hit. injection Hit as <- _ <-.
    split; [apply tally_build_solve | reflexivity].
Qed.

Lemma bracket_pass_ok (st : state) (t : list (event Space)) (st' : state) :
  Bracket.iteration st = (t, Ok tt st') ->
  (tally t 1 1 1 \/ (tally t 1 0 1 /\ done st' = true)) /\
  as_step st' = (as_step st + 1)%Z.
Proof.
  intros Hit.
  destruct (solve_linear (reference_spaces_spec st) Bracket.wf SOLVER_UMFPACK)
    as [r|] eqn:Hsolve.
  - rewrite (bracket_iteration_eq st r Hsolve) in Hit. injection Hit as <- <-.
    split; [|apply as_step_bracket_next].
    unfold BracketPass.pass_trace, BracketPass.next.
    destruct (BracketPass.stops st r).
    + right. split; [repeat split | reflexivity].
    + left. repeat split.
  - rewrite (bracket_iteration_abort st Hsolve) in Hit. discriminate.
Qed.

Lemma bracket_pass_abort (st : state) (t : list (event Space)) (e : error) (sf : state) :
  Bracket.iteration st = (t, Abort e sf) -> tally t 1 0 0 /\ sf = st.
Proof.
  intros Hit.
  destruct (solve_linear (reference_spaces_spec st) Bracket.wf SOLVER_UMFPACK)
    as [r|] eqn:Hsolve.
  - rewrite (bracket_iteration_eq st r Hsolve) in Hit. discriminate.
  - rewrite (bracket_iteration_abort st Hsolve) in Hit. injection Hit as <- _ <-.
    split; [apply tally_build_solve | reflexivity].
Qed.
Lemma crack_pass_turns_ok (st : state) (t : list (event Space)) (st' : state) :
  Crack.iteration st = (t, Ok tt st') ->
  alternating true t = true /\ (turn true t = true \/ done st' = true).
Proof.
  intros Hit.
  destruct (solve_linear (reference_spaces_spec st) Crack.wf Crack.matrix_solver)
    as [r|] eqn:Hsolve.
  - rewrite (crack_iteration_eq st r Hsolve) in Hit. injection Hit as <- <-.
    unfold CrackPass.pass_trace, CrackPass.next.
    destruct (CrackPass.stops st r).
    + split; [reflexivity | right; reflexivity].
    + split; [reflexivity | left; reflexivity].
  - rewrite (crack_iteration_abort st Hsolve) in Hit. discriminate.
Qed.

Lemma crack_pass_turns_abort (st : state) (t : list (event Space)) (e : error)
    (sf : state) :
  Crack.iteration st = (t, Abort e sf) -> alternating true t = true.
Proof.
  intros Hit.
  destruct (solve_linear (reference_spaces_spec st) Crack.wf Crack.matrix_solver)
    as [r|] eqn:Hsolve.
  - rewrite (crack_iteration_eq st r Hsolve) in Hit. discriminate.
  - rewrite (crack_iteration_abort st Hsolve) in Hit. injection Hit as <- _ _.
    reflexivity.
Qed.

Lemma bracket_pass_turns_ok (st : state) (t : list (event Space)) (st' : state) :
  Bracket.iteration st = (t, Ok tt st') ->
  alternating true t = true /\ (turn true t = true \/ done st' = true).
Proof.
  intros Hit.
  destruct (solve_linear (reference_spaces_spec st) Bracket.wf SOLVER_UMFPACK)
    as [r|] eqn:Hsolve.
  - rewrite (bracket_iteration_eq st r Hsolve) in Hit. injection Hit as <- <-.
    unfold BracketPass.pass_trace, BracketPass.next.
    destruct (BracketPass.stops st r).
    + split; [reflexivity | right; reflexivity].
    + split; [reflexivity | left; reflexivity].
  - rewrite (bracket_iteration_abort st Hsolve) in Hit. discriminate.
Qed.

Lemma bracket_pass_turns_abort (st : state) (t : list (event Space)) (e : error)
    (sf : state) :
  Bracket.iteration st = (t, Abort e sf) -> alternating true t = true.
Proof.
  intros Hit.
  destruct (solve_linear (reference_spaces_spec st) Bracket.wf SOLVER_UMFPACK)
    as [r|] eqn:Hsolve.
  - rewrite (bracket_iteration_eq st r Hsolve) in Hit. discriminate.
  - rewrite (bracket_iteration_abort st Hsolve) in Hit. injection Hit as <- _ _.
    reflexivity.
Qed.
End ElasticityPasses.


(** Two solves in a row, or a call of [adapt] before the first solve,
    do not alternate, whatever the counts are. *)
Example adapts_before_solves_rejected :
  alternating true
    [EvAdapt 0.3%float 0 (-1); EvAdapt 0.3%float 0 (-1);
     @EvSolveLinear unit (tt, tt); EvSolveLinear (tt, tt)] = false /\
  alternating true
    [@EvSolveLinear unit (tt, tt); EvAdapt 0.3%float 0 (-1);
     EvSolveLinear (tt, tt); EvAdapt 0.3%float 0 (-1)] = true.
Proof. split; reflexivity. Qed.

(** X2: the step counter [as] counts the passes.  Whatever way a run of
    [crack] or [bracket] ends, the counter it leaves is the counter it
    started with plus the number of stopping tests evaluated; a pass
    aborted by the solver is not counted. *)
Theorem step_counter_counts_passes :
  (forall (L : Hermes2D) (fuel : nat) (st : state),
      match snd (Crack.adaptivity_loop fuel st) with
      | Ok _ sf | Abort _ sf =>
          as_step sf =
            (as_step st + Z.of_nat (passes (fst (Crack.adaptivity_loop fuel st))))%Z
      end) /\
  (forall (L : Hermes2D) (fuel : nat) (st : state),
      match snd (Bracket.adaptivity_loop fuel st) with
      | Ok _ sf | Abort _ sf =>
          as_step sf =
            (as_step st + Z.of_nat (passes (fst (Bracket.adaptivity_loop fuel st))))%Z
      end).
Proof.
  split; intros L fuel st.
  - pose proof (run_tally Crack.iteration crack_pass_ok crack_pass_abort fuel st) as H.
    unfold Crack.adaptivity_loop, passes. cbv zeta in H.
    destruct (snd (do_while Crack.iteration _ fuel st)) as [[] sf|e sf].
    + destruct H as (k & _ & [Ht|Ht] & Has);
        destruct Ht as (_ & _ & -> & _); exact Has.
    + destruct H as [(_ & _ & -> & _) Has]. exact Has.
    + destruct H as (k & _ & (_ & _ & -> & _) & Has). exact Has.
  - pose proof (run_tally Bracket.iteration bracket_pass_ok bracket_pass_abort fuel st) as H.
    unfold Bracket.adaptivity_loop, passes. cbv zeta in H.
    destruct (snd (do_while Bracket.iteration _ fuel st)) as [[] sf|e sf].
    + destruct H as (k & _ & [Ht|Ht] & Has);
        destruct Ht as (_ & _ & -> & _); exact Has.
    + destruct H as [(_ & _ & -> & _) Has]. exact Has.
    + destruct H as (k & _ & (_ & _ & -> & _) & Has). exact Has.
Qed.

(** ** What a pass leaves behind *)

Section PassResults.
Context {L : Hermes2D}.

Lemma coarse_ndof_coarse (st : state) : coarse_ndof (coarse st) = total_ndof st.
Proof. reflexivity. Qed.

(** The variables after a completed pass of [crack]. *)
Lemma crack_next_spec (st : state) (r : Solution * Solution) :
  done (CrackPass.next st r) =
    (CrackPass.stops st r || snd (CrackPass.adapted st r)
     || (Crack.NDOF_STOP <=? coarse_ndof (fst (CrackPass.adapted st r)))%Z)%bool /\
  coarse (CrackPass.next st r) =
    (if CrackPass.stops st r then coarse st else fst (CrackPass.adapted st r)) /\
  (ref_u_sln (CrackPass.next st r), ref_v_sln (CrackPass.next st r)) = r /\
  (u_sln (CrackPass.next st r), v_sln (CrackPass.next st r)) =
    project_global (u_space st, v_space st) (H2D_H1_NORM, H2D_H1_NORM) r.
Proof.
  unfold CrackPass.next, CrackPass.refined.
  destruct (CrackPass.stops st r).
  - cbn. destruct r as [r1 r2]. cbn.
    repeat split. now destruct (project_global _ _ _).
  - cbv zeta. destruct (CrackPass.adapted st r) as [[[m1 m2] [s1 s2]] d].
    unfold coarse_ndof, total_ndof. cbn.
    destruct r as [r1 r2]. cbn.
    destruct (Crack.NDOF_STOP <=? get_num_dofs s1 + get_num_dofs s2)%Z; cbn.
    + rewrite orb_true_r. repeat split. now destruct (project_global _ _ _).
    + rewrite orb_false_r. repeat split. now destruct (project_global _ _ _).
Qed.

(** The variables after a completed pass of [bracket]. *)
Lemma bracket_next_spec (st : state) (r : Solution * Solution) :
  done (BracketPass.next st r) =
    (BracketPass.stops st r || snd (BracketPass.adapted st r)
     || (Bracket.NDOF_STOP <=? coarse_ndof (fst (BracketPass.adapted st r)))%Z)%bool /\
  coarse (BracketPass.next st r) =
    (if BracketPass.stops st r then coarse st else fst (BracketPass.adapted st r)) /\
  (ref_u_sln (BracketPass.next st r), ref_v_sln (BracketPass.next st r)) = r /\
  (u_sln (BracketPass.next st r), v_sln (BracketPass.next st r)) =
    project_global_default (u_space st, v_space st) r.
Proof.
  unfold BracketPass.next, BracketPass.refined.
  destruct (BracketPass.stops st r).
  - cbn. destruct r as [r1 r2]. cbn.
    repeat split. now destruct (project_global_default _ _).
  - cbv zeta. destruct (BracketPass.adapted st r) as [[[m1 m2] [s1 s2]] d].
    unfold coarse_ndof, total_ndof. cbn.
    destruct r as [r1 r2]. cbn.
    destruct (Bracket.NDOF_STOP <=? get_num_dofs s1 + get_num_dofs s2)%Z; cbn.
    + rewrite orb_true_r. repeat split. now destruct (project_global_default _ _).
    + rewrite orb_false_r. repeat split. now destruct (project_global_default _ _).
Qed.

Lemma passes_crack_pass (st : state) (r : Solution * Solution) :
  passes (CrackPass.pass_trace st r) = 1%nat.
Proof. unfold CrackPass.pass_trace. now destruct (CrackPass.stops st r). Qed.

Lemma passes_bracket_pass (st : state) (r : Solution * Solution) :
  passes (BracketPass.pass_trace st r) = 1%nat.
Proof. unfold BracketPass.pass_trace. now destruct (BracketPass.stops st r). Qed.

Lemma passes_app (t1 t2 : list (event Space)) :
  passes (t1 ++ t2) = (passes t1 + passes t2)%nat.
Proof. apply count_events_app. Qed.
End PassResults.

(** ** The DOF cap bounds the run *)

Section CapTermination.
Context {L : Hermes2D}.
Variable body : M (event Space) state unit.
Variable cap : Z.

(** Every pass completes, and either sets [done] or leaves more DOFs
    than it found, still below the cap. *)
Hypothesis pass_progress :
  forall st, exists t st',
    body st = (t, Ok tt st') /\ passes t = 1%nat /\
    (done st' = true \/ (total_ndof st < total_ndof st' < cap)%Z).

Lemma cap_terminates_within (k : nat) :
  forall st, (Z.to_nat (cap - total_ndof st) <= k)%nat ->
    exists n tr sf,
      (1 <= n <= Z.to_nat (Z.max 1 (cap - total_ndof st)))%nat /\
      passes tr = n /\
      forall fuel, (n <= fuel)%nat ->
        do_while body (fun st => negb (done st)) fuel st = (tr, Ok LoopDone sf).
Proof.
  induction k as [|k IH]; intros st Hk;
    destruct (pass_progress st) as (t & st' & Hb & Hp & [Hd|Hgrow]).
  - exists 1%nat, t, st'. repeat split; [lia|lia|exact Hp|].
    intros [|fuel] Hf; [lia|]. now rewrite do_while_step, Hb, Hd.
  - lia.
  - exists 1%nat, t, st'. repeat split; [lia|lia|exact Hp|].
    intros [|fuel] Hf; [lia|]. now rewrite do_while_step, Hb, Hd.
  - destruct (done st') eqn:Hd.
    + exists 1%nat, t, st'. repeat split; [lia|lia|exact Hp|].
      intros [|fuel] Hf; [lia|]. now rewrite do_while_step, Hb, Hd.
    + destruct (IH st') as (n & tr & sf & Hn & Hpn & Hrun); [lia|].
      exists (S n), (t ++ tr), sf. repeat split; [lia|lia| |].
      * rewrite passes_app, Hp, Hpn. reflexivity.
      * intros [|fuel] Hf; [lia|].
        rewrite do_while_step, Hb, Hd. cbn [negb].
        rewrite (Hrun fuel) by lia. reflexivity.
Qed.
End CapTermination.

Section CapBoundsRuns.
Context {L : Hermes2D}.

Hypothesis solver_total :
  forall sps wf ms, solve_linear sps wf ms <> None.

Hypothesis adapt_grows :
  forall hp sels thr strat reg c,
    (coarse_ndof c < coarse_ndof (fst (adapt hp sels thr strat reg c)))%Z.

Lemma crack_pass_progress (st : state) :
  exists t st',
    Crack.iteration st = (t, Ok tt st') /\ passes t = 1%nat /\
    (done st' = true \/ (total_ndof st < total_ndof st' < Crack.NDOF_STOP)%Z).
Proof.
  destruct (solve_linear (reference_spaces_spec st) Crack.wf Crack.matrix_solver)
    as [r|] eqn:Hsolve; [|now apply solver_total in Hsolve].
  exists (CrackPass.pass_trace st r), (CrackPass.next st r).
  split; [now apply crack_iteration_eq|]. split; [apply passes_crack_pass|].
  destruct (crack_next_spec st r) as (Hd & Hc & _).
  destruct (done (CrackPass.next st r)) eqn:Hdone; [now left|right].
  symmetry in Hd. apply orb_false_iff in Hd as [Hd Hcap].
  apply orb_false_iff in Hd as [Hs _]. rewrite Hs in Hc.
  rewrite <- !coarse_ndof_coarse, Hc.
  apply Z.leb_gt in Hcap. split; [apply adapt_grows | exact Hcap].
Qed.

Lemma bracket_pass_progress (st : state) :
  exists t st',
    Bracket.iteration st = (t, Ok tt st') /\ passes t = 1%nat /\
    (done st' = true \/ (total_ndof st < total_ndof st' < Bracket.NDOF_STOP)%Z).
Proof.
  destruct (solve_linear (reference_spaces_spec st) Bracket.wf SOLVER_UMFPACK)
    as [r|] eqn:Hsolve; [|now apply solver_total in Hsolve].
  exists (BracketPass.pass_trace st r), (BracketPass.next st r).
  split; [now apply bracket_iteration_eq|]. split; [apply passes_bracket_pass|].
  destruct (bracket_next_spec st r) as (Hd & Hc & _).
  destruct (done (BracketPass.next st r)) eqn:Hdone; [now left|right].
  symmetry in Hd. apply orb_false_iff in Hd as [Hd Hcap].
  apply orb_false_iff in Hd as [Hs _]. rewrite Hs in Hc.
  rewrite <- !coarse_ndof_coarse, Hc.
  apply Z.leb_gt in Hcap. split; [apply adapt_grows | exact Hcap].
Qed.
End CapBoundsRuns.

(** X3: the DOF cap keeps the adaptivity from going on forever.  With a
    solver that does not fail and an [adapt] that always adds at least
    one DOF, the loops of [crack] and of [bracket] are left after at most
    max(1, NDOF_STOP - ndof) passes, where ndof is the total DOF count
    they start from, and [main] returns. *)
Theorem cap_bounds_the_run (L : Hermes2D) :
  (forall sps wf ms, solve_linear sps wf ms <> None) ->
  (forall hp sels thr strat reg c,
      (coarse_ndof c < coarse_ndof (fst (adapt hp sels thr strat reg c)))%Z) ->
  (exists n tr sf code,
      (1 <= n <= Z.to_nat (Z.max 1 (Crack.NDOF_STOP - total_ndof Crack.init_state)))%nat /\
      passes tr = n /\
      forall fuel, (n <= fuel)%nat -> Crack.main fuel = (tr, Returned code sf)) /\
  (exists n tr sf,
      (1 <= n <= Z.to_nat (Z.max 1 (Bracket.NDOF_STOP - total_ndof Bracket.init_state)))%nat /\
      passes tr = n /\
      forall fuel, (n <= fuel)%nat -> Bracket.main fuel = (tr, Returned 0 sf)).
Proof.
  intros Hsolve Hgrow. split.
  - destruct (cap_terminates_within Crack.iteration Crack.NDOF_STOP
                (crack_pass_progress Hsolve Hgrow) _ Crack.init_state (Nat.le_refl _))
      as (n & tr & sf & Hn & Hp & Hrun).
    exists n, tr, sf, (Crack.exit_code sf). repeat split; try lia; auto.
    intros fuel Hf. unfold Crack.main, Crack.adaptivity_loop. now rewrite (Hrun fuel Hf).
  - destruct (cap_terminates_within Bracket.iteration Bracket.NDOF_STOP
                (bracket_pass_progress Hsolve Hgrow) _ Bracket.init_state (Nat.le_refl _))
      as (n & tr & sf & Hn & Hp & Hrun).
    exists n, tr, sf. repeat split; try lia; auto.
    intros fuel Hf. unfold Bracket.main, Bracket.adaptivity_loop. now rewrite (Hrun fuel Hf).
Qed.

(** With 29990 DOFs per space and one DOF more per space and pass, the
    loops are left within 20 passes. *)
Lemma cap_bounds_the_run_witness :
  (exists n tr sf code,
      (1 <= n <= 20)%nat /\
      passes tr = n /\
      forall fuel, (n <= fuel)%nat ->
        Crack.main (L := Counter.lib Counter.growing) fuel = (tr, Returned code sf)) /\
  (exists n tr sf,
      (1 <= n <= 20)%nat /\
      passes tr = n /\
      forall fuel, (n <= fuel)%nat ->
        Bracket.main (L := Counter.lib Counter.growing) fuel = (tr, Returned 0 sf)).
Proof.
  apply (cap_bounds_the_run (Counter.lib Counter.growing)).
  - intros sps wf ms. cbn. discriminate.
  - intros hp sels thr strat reg [[m1 m2] [s1 s2]]. unfold coarse_ndof. cbn. lia.
Defined.

(** ** Runs that make no progress *)

Section Stall.
Context {L : Hermes2D}.
Variable body : M (event Space) state unit.
Variable cap : Z.

(** Below the cap every pass completes without setting [done] and stays
    below the cap. *)
Hypothesis pass_stalls :
  forall st, (total_ndof st < cap)%Z ->
    exists t st',
      body st = (t, Ok tt st') /\ passes t = 1%nat /\
      done st' = false /\ (total_ndof st' < cap)%Z.

Lemma stalled_run (fuel : nat) :
  forall st, (total_ndof st < cap)%Z ->
    exists tr sf,
      do_while body (fun st => negb (done st)) fuel st = (tr, Ok OutOfFuel sf) /\
      passes tr = fuel.
Proof.
  induction fuel as [|fuel IH]; intros st Hst.
  - exists [], st. split; reflexivity.
  - destruct (pass_stalls st Hst) as (t & st' & Hb & Hp & Hd & Hst').
    destruct (IH st' Hst') as (tr & sf & Hrun & Hpn).
    exists (t ++ tr), sf. split.
    + rewrite do_while_step, Hb, Hd. cbn [negb]. now rewrite Hrun.
    + rewrite passes_app, Hp, Hpn. reflexivity.
Qed.
End Stall.

(** X4: the loops of [crack] and of [bracket] have no other way out than
    the tolerance, the DOF cap and the flag returned by [adapt].  With a
    solver that does not fail, an estimate that never falls below
    [ERR_STOP], and an [adapt] that never returns true and never takes
    the DOF count from below [NDOF_STOP] to [NDOF_STOP] or more, a run
    that starts below the cap makes as many passes as its bound allows
    and [main] does not return. *)
Theorem no_progress_no_exit (L : Hermes2D) :
  (forall sps wf ms, solve_linear sps wf ms <> None) ->
  (forall flags hp,
      (fst (calc_elem_errors flags hp) * 100 <? Crack.ERR_STOP)%float = false /\
      (fst (calc_error flags hp) * 100 <? Bracket.ERR_STOP)%float = false) ->
  (forall hp sels thr strat reg c,
      snd (adapt hp sels thr strat reg c) = false /\
      ((coarse_ndof c < 60000)%Z ->
       (coarse_ndof (fst (adapt hp sels thr strat reg c)) < 60000)%Z)) ->
  (total_ndof Crack.init_state < Crack.NDOF_STOP)%Z ->
  (total_ndof Bracket.init_state < Bracket.NDOF_STOP)%Z ->
  forall fuel,
    (exists tr sf, Crack.main fuel = (tr, Unfinished sf) /\ passes tr = fuel) /\
    (exists tr sf, Bracket.main fuel = (tr, Unfinished sf) /\ passes tr = fuel).
Proof.
  intros Hsolve Hest Hadapt Hc0 Hb0 fuel. split.
  - destruct (stalled_run Crack.iteration Crack.NDOF_STOP) with (fuel := fuel)
      (st := Crack.init_state) as (tr & sf & Hrun & Hp); [|exact Hc0|].
    + intros st Hst.
      destruct (solve_linear (reference_spaces_spec st) Crack.wf Crack.matrix_solver)
        as [r|] eqn:Hs; [|now apply Hsolve in Hs].
      exists (CrackPass.pass_trace st r), (CrackPass.next st r).
      split; [now apply crack_iteration_eq|]. split; [apply passes_crack_pass|].
      destruct (crack_next_spec st r) as (Hd & Hc & _).
      assert (Hstops : CrackPass.stops st r = false).
      { unfold CrackPass.stops, CrackPass.err_est, CrackPass.estimator.
        rewrite (proj1 (Hest _ _)). cbn [orb]. now apply Z.leb_gt. }
      rewrite Hstops in Hd, Hc. cbn [orb] in Hd.
      destruct (Hadapt (snd (CrackPass.estimator (CrackPass.projected st r)))
                  [Crack.selector; Crack.selector]
                  (if Crack.MULTI then Crack.THRESHOLD_MULTI else Crack.THRESHOLD_SINGLE)
                  Crack.STRATEGY Crack.MESH_REGULARITY (coarse st)) as [Hflag Hbelow].
      fold (CrackPass.adapted st r) in Hflag, Hbelow.
      specialize (Hbelow Hst).
      rewrite <- coarse_ndof_coarse, Hc. split; [|exact Hbelow].
      rewrite Hd, Hflag. cbn [orb]. now apply Z.leb_gt.
    + exists tr, sf. split; [|exact Hp].
      unfold Crack.main, Crack.adaptivity_loop. now rewrite Hrun.
  - destruct (stalled_run Bracket.iteration Bracket.NDOF_STOP) with (fuel := fuel)
      (st := Bracket.init_state) as (tr & sf & Hrun & Hp); [|exact Hb0|].
    + intros st Hst.
      destruct (solve_linear (reference_spaces_spec st) Bracket.wf SOLVER_UMFPACK)
        as [r|] eqn:Hs; [|now apply Hsolve in Hs].
      exists (BracketPass.pass_trace st r), (BracketPass.next st r).
      split; [now apply bracket_iteration_eq|]. split; [apply passes_bracket_pass|].
      destruct (bracket_next_spec st r) as (Hd & Hc & _).
      assert (Hstops : BracketPass.stops st r = false).
      { unfold BracketPass.stops, BracketPass.err_est, BracketPass.estimator.
        apply (proj2 (Hest _ _)). }
      rewrite Hstops in Hd, Hc. cbn [orb] in Hd.
      destruct (Hadapt (snd (BracketPass.estimator (BracketPass.projected st r)))
                  [Bracket.selector] Bracket.THRESHOLD Bracket.STRATEGY
                  Bracket.MESH_REGULARITY (coarse st)) as [Hflag Hbelow].
      fold (BracketPass.adapted st r) in Hflag, Hbelow.
      specialize (Hbelow Hst).
      rewrite <- coarse_ndof_coarse, Hc. split; [|exact Hbelow].
      rewrite Hd, Hflag. cbn [orb]. now apply Z.leb_gt.
    + exists tr, sf. split; [|exact Hp].
      unfold Bracket.main, Bracket.adaptivity_loop. now rewrite Hrun.
Qed.

(** A refinement that changes nothing and does not say so, under an
    estimate of 100 percent: seven passes are allowed, seven are made. *)
Lemma no_progress_no_exit_witness :
  (exists tr sf,
      Crack.main (L := Counter.lib Counter.stalled) 7 = (tr, Unfinished sf) /\
      passes tr = 7%nat) /\
  (exists tr sf,
      Bracket.main (L := Counter.lib Counter.stalled) 7 = (tr, Unfinished sf) /\
      passes tr = 7%nat).
Proof.
  apply (no_progress_no_exit (Counter.lib Counter.stalled)).
  - intros sps wf ms. cbn. discriminate.
  - intros flags hp. split; vm_compute; reflexivity.
  - intros hp sels thr strat reg [[m1 m2] [s1 s2]]. unfold coarse_ndof. cbn.
    split; [reflexivity | lia].
  - vm_compute. reflexivity.
  - vm_compute. reflexivity.
Defined.

(** ** The last pass of a run that leaves the loop *)

Section LastPass.
Context {L : Hermes2D}.

Lemma crack_last_pass (fuel : nat) (st sf : state) (tr : list (event Space)) :
  Crack.adaptivity_loop fuel st = (tr, Ok LoopDone sf) ->
  exists pre s r,
    tr = pre ++ CrackPass.pass_trace s r /\
    solve_linear (reference_spaces_spec s) Crack.wf Crack.matrix_solver = Some r /\
    sf = CrackPass.next s r /\ done sf = true.
Proof.
  intros Hrun. unfold Crack.adaptivity_loop in Hrun.
  apply do_while_done_inv in Hrun as (n & t & s & t' & _ & _ & Hb & Hc & ->).
  apply negb_false_iff in Hc.
  destruct (solve_linear (reference_spaces_spec s) Crack.wf Crack.matrix_solver)
    as [r|] eqn:Hsolve.
  - rewrite (crack_iteration_eq s r Hsolve) in Hb. injection Hb as <- <-.
    exists t, s, r. auto.
  - rewrite (crack_iteration_abort s Hsolve) in Hb. discriminate.
Qed.

Lemma bracket_last_pass (fuel : nat) (st sf : state) (tr : list (event Space)) :
  Bracket.adaptivity_loop fuel st = (tr, Ok LoopDone sf) ->
  exists pre s r,
    tr = pre ++ BracketPass.pass_trace s r /\
    solve_linear (reference_spaces_spec s) Bracket.wf SOLVER_UMFPACK = Some r /\
    sf = BracketPass.next s r /\ done sf = true.
Proof.
  intros Hrun. unfold Bracket.adaptivity_loop in Hrun.
  apply do_while_done_inv in Hrun as (n & t & s & t' & _ & _ & Hb & Hc & ->).
  apply negb_false_iff in Hc.
  destruct (solve_linear (reference_spaces_spec s) Bracket.wf SOLVER_UMFPACK)
    as [r|] eqn:Hsolve.
  - rewrite (bracket_iteration_eq s r Hsolve) in Hb. injection Hb as <- <-.
    exists t, s, r. auto.
  - rewrite (bracket_iteration_abort s Hsolve) in Hb. discriminate.
Qed.

(** Why [crack] left the loop, read off the end of the trace. *)
Lemma crack_exit_cases (fuel : nat) (st sf : state) (tr : list (event Space)) :
  Crack.adaptivity_loop fuel st = (tr, Ok LoopDone sf) ->
  exists pre e,
    (tr = pre ++ [EvStopCheck e (total_ndof sf)] /\
     ((e <? Crack.ERR_STOP)%float = true \/ (Crack.NDOF_STOP <= total_ndof sf)%Z)) \/
    (exists hp c,
        let a := adapt hp [Crack.selector; Crack.selector] Crack.THRESHOLD_MULTI
                       Crack.STRATEGY Crack.MESH_REGULARITY c in
        tr = pre ++ [EvStopCheck e (coarse_ndof c);
                     EvAdapt Crack.THRESHOLD_MULTI Crack.STRATEGY Crack.MESH_REGULARITY] /\
        (e <? Crack.ERR_STOP)%float = false /\
        (coarse_ndof c < Crack.NDOF_STOP)%Z /\
        coarse sf = fst a /\
        (snd a = true \/ (Crack.NDOF_STOP <= total_ndof sf)%Z)).
Proof.
  intros Hrun.
  destruct (crack_last_pass _ _ _ _ Hrun) as (pre & s & r & -> & Hsolve & -> & Hdone).
  destruct (crack_next_spec s r) as (Hd & Hc & _).
  rewrite Hdone in Hd. symmetry in Hd.
  exists (pre ++ build_trace ++
          [EvSolveLinear (reference_spaces_spec s); EvProjectGlobal; EvCalcError]),
         (CrackPass.err_est s r).
  unfold CrackPass.pass_trace.
  destruct (CrackPass.stops s r) eqn:Hstops.
  - left. rewrite <- (coarse_ndof_coarse (CrackPass.next s r)), Hc, coarse_ndof_coarse.
    split; [now rewrite <- !app_assoc|].
    unfold CrackPass.stops in Hstops. apply orb_true_iff in Hstops as [H|H];
      [now left | right; now apply Z.leb_le].
  - right. exists (snd (CrackPass.estimator (CrackPass.projected s r))), (coarse s).
    cbv zeta. fold (CrackPass.adapted s r).
    unfold CrackPass.stops in Hstops. apply orb_false_iff in Hstops as [He Hcap].
    split; [now rewrite <- !app_assoc|]. split; [exact He|].
    split; [now apply Z.leb_gt|]. split; [exact Hc|].
    cbn [orb] in Hd. apply orb_true_iff in Hd as [H|H]; [now left|right].
    apply Z.leb_le in H. now rewrite <- (coarse_ndof_coarse (CrackPass.next s r)), Hc.
Qed.

(** Why [bracket] left the loop. *)
Lemma bracket_exit_cases (fuel : nat) (st sf : state) (tr : list (event Space)) :
  Bracket.adaptivity_loop fuel st = (tr, Ok LoopDone sf) ->
  exists pre e,
    (tr = pre ++ [EvStopCheck e (total_ndof sf)] /\
     (e <? Bracket.ERR_STOP)%float = true) \/
    (exists hp c,
        let a := adapt hp [Bracket.selector] Bracket.THRESHOLD
                       Bracket.STRATEGY Bracket.MESH_REGULARITY c in
        tr = pre ++ [EvStopCheck e (coarse_ndof c);
                     EvAdapt Bracket.THRESHOLD Bracket.STRATEGY Bracket.MESH_REGULARITY] /\
        (e <? Bracket.ERR_STOP)%float = false /\
        coarse sf = fst a /\
        (snd a = true \/ (Bracket.NDOF_STOP <= total_ndof sf)%Z)).
Proof.
  intros Hrun.
  destruct (bracket_last_pass _ _ _ _ Hrun) as (pre & s & r & -> & Hsolve & -> & Hdone).
  destruct (bracket_next_spec s r) as (Hd & Hc & _).
  rewrite Hdone in Hd. symmetry in Hd.
  exists (pre ++ build_trace ++
          [EvSolveLinear (reference_spaces_spec s); EvProjectGlobal; EvCalcError]),
         (BracketPass.err_est s r).
  unfold BracketPass.pass_trace.
  destruct (BracketPass.stops s r) eqn:Hstops.
  - left. rewrite <- (coarse_ndof_coarse (BracketPass.next s r)), Hc, coarse_ndof_coarse.
    split; [now rewrite <- !app_assoc | exact Hstops].
  - right. exists (snd (BracketPass.estimator (BracketPass.projected s r))), (coarse s).
    cbv zeta. fold (BracketPass.adapted s r).
    split; [now rewrite <- !app_assoc|]. split; [exact Hstops|].
    split; [exact Hc|].
    cbn [orb] in Hd. apply orb_true_iff in Hd as [H|H]; [now left|right].
    apply Z.leb_le in H. now rewrite <- (coarse_ndof_coarse (BracketPass.next s r)), Hc.
Qed.
End LastPass.

(** X5: the three ways out of the loop.  A run of [crack] that leaves
    the loop ends in one of two ways.  Either its trace ends with a
    stopping test that found the estimate below [ERR_STOP] or the DOF
    count at or above [NDOF_STOP], and that DOF count is the final one.
    Or its trace ends with a stopping test that found neither, followed
    by a call of [adapt] that produced the final coarse problem and that
    returned true or took the DOF count to [NDOF_STOP] or more.  The same
    holds for [bracket], whose stopping test looks at the estimate
    only. *)
Theorem ways_out_of_the_loop :
  (forall (L : Hermes2D) (fuel : nat) (st sf : state) (tr : list (event Space)),
      Crack.adaptivity_loop fuel st = (tr, Ok LoopDone sf) ->
      exists pre e,
        (tr = pre ++ [EvStopCheck e (total_ndof sf)] /\
         ((e <? Crack.ERR_STOP)%float = true \/ (Crack.NDOF_STOP <= total_ndof sf)%Z)) \/
        (exists hp c,
            let a := adapt hp [Crack.selector; Crack.selector] Crack.THRESHOLD_MULTI
                           Crack.STRATEGY Crack.MESH_REGULARITY c in
            tr = pre ++ [EvStopCheck e (coarse_ndof c);
                         EvAdapt Crack.THRESHOLD_MULTI Crack.STRATEGY Crack.MESH_REGULARITY] /\
            (e <? Crack.ERR_STOP)%float = false /\
            (coarse_ndof c < Crack.NDOF_STOP)%Z /\
            coarse sf = fst a /\
            (snd a = true \/ (Crack.NDOF_STOP <= total_ndof sf)%Z))) /\
  (forall (L : Hermes2D) (fuel : nat) (st sf : state) (tr : list (event Space)),
      Bracket.adaptivity_loop fuel st = (tr, Ok LoopDone sf) ->
      exists pre e,
        (tr = pre ++ [EvStopCheck e (total_ndof sf)] /\
         (e <? Bracket.ERR_STOP)%float = true) \/
        (exists hp c,
            let a := adapt hp [Bracket.selector] Bracket.THRESHOLD
                           Bracket.STRATEGY Bracket.MESH_REGULARITY c in
            tr = pre ++ [EvStopCheck e (coarse_ndof c);
                         EvAdapt Bracket.THRESHOLD Bracket.STRATEGY Bracket.MESH_REGULARITY] /\
            (e <? Bracket.ERR_STOP)%float = false /\
            coarse sf = fst a /\
            (snd a = true \/ (Bracket.NDOF_STOP <= total_ndof sf)%Z))).
Proof.
  split; intros L fuel st sf tr Hrun.
  - destruct (crack_exit_cases fuel st sf tr Hrun) as (pre & e & H).
    exists pre, e. exact H.
  - destruct (bracket_exit_cases fuel st sf tr Hrun) as (pre & e & H).
    exists pre, e. exact H.
Qed.

(** [crack] on the problem that converges in its second pass: the trace
    ends with the stopping test that found 0.1 percent at 104 DOFs. *)
Lemma ways_out_of_the_loop_witness :
  exists pre e,
    (fst (Crack.adaptivity_loop (L := Toy.lib Toy.refining) 5 Crack.init_state)
       = pre ++ [EvStopCheck e (total_ndof (Toy.vars Toy.refining 13 3 true))] /\
     ((e <? Crack.ERR_STOP)%float = true \/
      (Crack.NDOF_STOP <= total_ndof (Toy.vars Toy.refining 13 3 true))%Z)) \/
    (exists hp c,
        let a := adapt hp [Crack.selector; Crack.selector] Crack.THRESHOLD_MULTI
                       Crack.STRATEGY Crack.MESH_REGULARITY c in
        fst (Crack.adaptivity_loop (L := Toy.lib Toy.refining) 5 Crack.init_state)
          = pre ++ [EvStopCheck e (coarse_ndof c);
                    EvAdapt Crack.THRESHOLD_MULTI Crack.STRATEGY Crack.MESH_REGULARITY] /\
        (e <? Crack.ERR_STOP)%float = false /\
        (coarse_ndof c < Crack.NDOF_STOP)%Z /\
        coarse (Toy.vars Toy.refining 13 3 true) = fst a /\
        (snd a = true \/
         (Crack.NDOF_STOP <= total_ndof (Toy.vars Toy.refining 13 3 true))%Z)).
Proof.
  apply (proj1 ways_out_of_the_loop (Toy.lib Toy.refining) 5%nat Crack.init_state).
  vm_compute. reflexivity.
Defined.

(** X6: the crack test passes only if the adaptivity came to an end by
    itself.  When [main] returns [ERROR_SUCCESS], the final DOF count is
    at most 650 and the loop was left either at a stopping test that
    found the estimate below [ERR_STOP] or after a call of [adapt] that
    returned true; it was not cut by the DOF cap. *)
Theorem crack_passes_only_if_converged (L : Hermes2D) (fuel : nat)
    (tr : list (event Space)) (sf : state) :
  Crack.main fuel = (tr, Returned Crack.ERROR_SUCCESS sf) ->
  (total_ndof sf <= 650)%Z /\
  exists pre e,
    (tr = pre ++ [EvStopCheck e (total_ndof sf)] /\
     (e <? Crack.ERR_STOP)%float = true) \/
    (exists hp c,
        let a := adapt hp [Crack.selector; Crack.selector] Crack.THRESHOLD_MULTI
                       Crack.STRATEGY Crack.MESH_REGULARITY c in
        tr = pre ++ [EvStopCheck e (coarse_ndof c);
                     EvAdapt Crack.THRESHOLD_MULTI Crack.STRATEGY Crack.MESH_REGULARITY] /\
        coarse sf = fst a /\ snd a = true).
Proof.
  intros Hmain. unfold Crack.main in Hmain.
  destruct (Crack.adaptivity_loop fuel Crack.init_state) as [t [[] s|e s]] eqn:Hrun;
    try discriminate.
  injection Hmain as -> Hcode ->.
  assert (Hle : (total_ndof sf <= 650)%Z).
  { unfold Crack.exit_code, get_num_dofs_tuple, Crack.ndof_allowed in Hcode.
    cbn [fold_right] in Hcode. rewrite Z.add_0_r in Hcode.
    fold (total_ndof sf) in Hcode.
    destruct (Z.leb_spec (total_ndof sf) 650); [assumption | discriminate]. }
  split; [exact Hle|].
  destruct (crack_exit_cases _ _ _ _ Hrun) as (pre & e & [[Htr Hwhy]|Hadapt]).
  - exists pre, e. left. split; [exact Htr|].
    destruct Hwhy as [H|H]; [exact H|]. unfold Crack.NDOF_STOP in H. lia.
  - destruct Hadapt as (hp & c & Htr & _ & _ & Hc & Hwhy).
    exists pre, e. right. exists hp, c. cbv zeta.
    split; [exact Htr|]. split; [exact Hc|].
    destruct Hwhy as [H|H]; [exact H|]. unfold Crack.NDOF_STOP in H. lia.
Qed.

Lemma crack_passes_only_if_converged_witness :
  (total_ndof (Toy.vars Toy.refining 13 3 true) <= 650)%Z /\
  exists pre e,
    (fst (Crack.main (L := Toy.lib Toy.refining) 5)
       = pre ++ [EvStopCheck e (total_ndof (Toy.vars Toy.refining 13 3 true))] /\
     (e <? Crack.ERR_STOP)%float = true) \/
    (exists hp c,
        let a := adapt hp [Crack.selector; Crack.selector] Crack.THRESHOLD_MULTI
                       Crack.STRATEGY Crack.MESH_REGULARITY c in
        fst (Crack.main (L := Toy.lib Toy.refining) 5)
          = pre ++ [EvStopCheck e (coarse_ndof c);
                    EvAdapt Crack.THRESHOLD_MULTI Crack.STRATEGY Crack.MESH_REGULARITY] /\
        coarse (Toy.vars Toy.refining 13 3 true) = fst a /\ snd a = true).
Proof.
  apply (crack_passes_only_if_converged (Toy.lib Toy.refining) 5%nat).
  vm_compute. reflexivity.
Defined.

Section FinalSolutions.
Context {L : Hermes2D}.

Lemma ends_with_check_or_adapt (pre : list (event Space)) (b : bool)
    (e : float) (n : Z) (ad : event Space) :
  is_adapt ad = true ->
  let t := pre ++ [EvStopCheck e n] ++ (if b then [] else [ad]) in
  (exists q x, t = q ++ [x] /\ is_stop_check x = true /\ b = true) \/
  (exists q x, t = q ++ [x] /\ is_adapt x = true /\ b = false).
Proof.
  intros Had t. subst t. destruct b.
  - left. exists pre, (EvStopCheck e n). repeat split.
  - right. exists (pre ++ [EvStopCheck e n]), ad.
    rewrite <- app_assoc. repeat split; assumption.
Qed.
End FinalSolutions.

(** X7: the solutions a run ends with belong to the coarse problem that
    entered its last pass.  When the loop of [crack] or [bracket] is
    left, the final reference solutions are the solver's result for the
    reference problem built from that coarse problem, and the final
    coarse solutions are their projection onto its spaces.  If the trace
    ends with the stopping test, that coarse problem is the final one;
    if it ends with a call of [adapt], the final coarse problem is the
    result of that call and the solutions have not been recomputed on
    it. *)
Theorem final_solutions_of_last_pass :
  (forall (L : Hermes2D) (fuel : nat) (st sf : state) (tr : list (event Space)),
      Crack.adaptivity_loop fuel st = (tr, Ok LoopDone sf) ->
      exists s,
        solve_linear (reference_spaces_spec s) Crack.wf Crack.matrix_solver
          = Some (ref_u_sln sf, ref_v_sln sf) /\
        (u_sln sf, v_sln sf) =
          project_global (u_space s, v_space s) (H2D_H1_NORM, H2D_H1_NORM)
                         (ref_u_sln sf, ref_v_sln sf) /\
        ((exists q x, tr = q ++ [x] /\ is_stop_check x = true /\ coarse sf = coarse s) \/
         (exists q x hp,
             tr = q ++ [x] /\ is_adapt x = true /\
             coarse sf = fst (adapt hp [Crack.selector; Crack.selector]
                                    Crack.THRESHOLD_MULTI Crack.STRATEGY
                                    Crack.MESH_REGULARITY (coarse s))))) /\
  (forall (L : Hermes2D) (fuel : nat) (st sf : state) (tr : list (event Space)),
      Bracket.adaptivity_loop fuel st = (tr, Ok LoopDone sf) ->
      exists s,
        solve_linear (reference_spaces_spec s) Bracket.wf SOLVER_UMFPACK
          = Some (ref_u_sln sf, ref_v_sln sf) /\
        (u_sln sf, v_sln sf) =
          project_global_default (u_space s, v_space s) (ref_u_sln sf, ref_v_sln sf) /\
        ((exists q x, tr = q ++ [x] /\ is_stop_check x = true /\ coarse sf = coarse s) \/
         (exists q x hp,
             tr = q ++ [x] /\ is_adapt x = true /\
             coarse sf = fst (adapt hp [Bracket.selector] Bracket.THRESHOLD
                                    Bracket.STRATEGY Bracket.MESH_REGULARITY (coarse s))))).
Proof.
  split; intros L fuel st sf tr Hrun.
  - destruct (crack_last_pass _ _ _ _ Hrun) as (pre & s & r & -> & Hsolve & -> & _).
    destruct (crack_next_spec s r) as (_ & Hc & Href & Hsl).
    exists s. rewrite Href, Hsl. split; [exact Hsolve|]. split; [reflexivity|].
    unfold CrackPass.pass_trace. rewrite !app_assoc.
    match goal with
    | |- context [(?p ++ [?a; ?b; ?c; EvStopCheck ?e ?n]) ++ (if ?s then [] else [?ad])] =>
        replace (p ++ [a; b; c; EvStopCheck e n])
          with ((p ++ [a; b; c]) ++ [EvStopCheck e n]) by now rewrite <- app_assoc
    end.
    rewrite <- app_assoc.
    match goal with
    | |- context [?p ++ [EvStopCheck ?e ?n] ++ (if ?b then [] else [?ad])] =>
        destruct (ends_with_check_or_adapt p b e n ad eq_refl)
          as [(q & x & Ht & Hx & Hb)|(q & x & Ht & Hx & Hb)]
    end.
    + left. exists q, x. rewrite Hb in Hc. auto.
    + right. exists q, x, (snd (CrackPass.estimator (CrackPass.projected s r))).
      rewrite Hb in Hc. auto.
  - destruct (bracket_last_pass _ _ _ _ Hrun) as (pre & s & r & -> & Hsolve & -> & _).
    destruct (bracket_next_spec s r) as (_ & Hc & Href & Hsl).
    exists s. rewrite Href, Hsl. split; [exact Hsolve|]. split; [reflexivity|].
    unfold BracketPass.pass_trace. rewrite !app_assoc.
    match goal with
    | |- context [(?p ++ [?a; ?b; ?c; EvStopCheck ?e ?n]) ++ (if ?s then [] else [?ad])] =>
        replace (p ++ [a; b; c; EvStopCheck e n])
          with ((p ++ [a; b; c]) ++ [EvStopCheck e n]) by now rewrite <- app_assoc
    end.
    rewrite <- app_assoc.
    match goal with
    | |- context [?p ++ [EvStopCheck ?e ?n] ++ (if ?b then [] else [?ad])] =>
        destruct (ends_with_check_or_adapt p b e n ad eq_refl)
          as [(q & x & Ht & Hx & Hb)|(q & x & Ht & Hx & Hb)]
    end.
    + left. exists q, x. rewrite Hb in Hc. auto.
    + right. exists q, x, (snd (BracketPass.estimator (BracketPass.projected s r))).
      rewrite Hb in Hc. auto.
Qed.

(** ** The third driver *)

Ltac normalise_singpert :=
  cbv [bind get put modify call call_or_fail mark ret fst snd app
       Singpert.mesh Singpert.space Singpert.ndof Singpert.sln_coarse
       Singpert.sln_fine Singpert.it Singpert.done
       Singpert.set_sln_coarse Singpert.set_sln_fine Singpert.set_coarse
       Singpert.set_ndof Singpert.set_done Singpert.incr_it
       SingpertPass.solved SingpertPass.estimator SingpertPass.err_est
       SingpertPass.stops SingpertPass.adapted SingpertPass.renumbered
       SingpertPass.refined SingpertPass.next SingpertPass.pass_trace].

Section SingpertPasses.
Context {L : Hermes2DLegacy}.

(** A pass of [singpert] whose two solves succeed, written out. *)
Lemma singpert_iteration_eq (st : Singpert.state) (c f : LSolution) :
  ls_solve (Singpert.mesh st, Singpert.space st) = Some c ->
  rs_solve (Singpert.mesh st, Singpert.space st) = Some f ->
  Singpert.iteration st =
    (SingpertPass.pass_trace st c f, Ok tt (SingpertPass.next st c f)).
Proof.
  intros Hc Hr. unfold Singpert.iteration. run_body.
  cbn [Singpert.mesh Singpert.space Singpert.incr_it Singpert.set_sln_coarse].
  rewrite Hc. run_body.
  cbn [Singpert.mesh Singpert.space Singpert.incr_it Singpert.set_sln_coarse].
  rewrite Hr. normalise_singpert.
  match goal with
  | |- context [if (?a <? Singpert.ERR_STOP)%float then _ else _] =>
      destruct (a <? Singpert.ERR_STOP)%float
  end; [reflexivity|].
  match goal with
  | |- context [if (Singpert.NDOF_STOP <=? ?x)%Z then _ else _] =>
      destruct (Singpert.NDOF_STOP <=? x)%Z
  end; reflexivity.
Qed.

(** The variables after a completed pass of [singpert]: the flag that
    [hp.adapt] returns is not among the things they depend on. *)
Lemma singpert_next_spec (st : Singpert.state) (c f : LSolution) :
  Singpert.done (SingpertPass.next st c f) =
    (SingpertPass.stops st c f
     || (if SingpertPass.stops st c f then false
         else Singpert.done st
              || (Singpert.NDOF_STOP <=? fst (SingpertPass.renumbered st c f))%Z))%bool /\
  Singpert.mesh (SingpertPass.next st c f) =
    (if SingpertPass.stops st c f then Singpert.mesh st
     else fst (fst (SingpertPass.adapted st c f))) /\
  Singpert.space (SingpertPass.next st c f) =
    (if SingpertPass.stops st c f then Singpert.space st
     else snd (SingpertPass.renumbered st c f)) /\
  Singpert.ndof (SingpertPass.next st c f) =
    (if SingpertPass.stops st c f then Singpert.ndof st
     else fst (SingpertPass.renumbered st c f)) /\
  Singpert.it (SingpertPass.next st c f) = (Singpert.it st + 1)%Z /\
  Singpert.sln_coarse (SingpertPass.next st c f) = c /\
  Singpert.sln_fine (SingpertPass.next st c f) = f.
Proof.
  unfold SingpertPass.next, SingpertPass.refined.
  destruct (SingpertPass.stops st c f).
  - repeat split.
  - cbv zeta. cbn [Singpert.ndof Singpert.set_ndof].
    destruct (Singpert.NDOF_STOP <=? fst (SingpertPass.renumbered st c f))%Z; cbn.
    + rewrite orb_true_r. repeat split.
    + rewrite orb_false_r. repeat split.
Qed.
End SingpertPasses.

Section SingpertStopTest.
Context {L : Hermes2DLegacy}.

Lemma singpert_ref_abort_eq (st : Singpert.state) (c : LSolution) :
  ls_solve (Singpert.mesh st, Singpert.space st) = Some c ->
  rs_solve (Singpert.mesh st, Singpert.space st) = None ->
  Singpert.iteration st =
    ([EvCoarseSolve; EvExactError; EvRefSolve],
     Abort SolverError (Singpert.set_sln_coarse c (Singpert.incr_it st))).
Proof.
  intros Hc Hr. unfold Singpert.iteration. run_body.
  cbn [Singpert.mesh Singpert.space Singpert.incr_it Singpert.set_sln_coarse].
  rewrite Hc. run_body.
  cbn [Singpert.mesh Singpert.space Singpert.incr_it Singpert.set_sln_coarse].
  rewrite Hr. reflexivity.
Qed.

(** The stopping test of a pass of [singpert], if the pass reaches it. *)
Lemma singpert_check_inv (st : Singpert.state) (t : list (event LSpace))
    (res : res Singpert.state unit) (e : float) (n : Z) :
  Singpert.iteration st = (t, res) ->
  In (EvStopCheck e n) t ->
  exists c f,
    ls_solve (Singpert.mesh st, Singpert.space st) = Some c /\
    rs_solve (Singpert.mesh st, Singpert.space st) = Some f /\
    t = SingpertPass.pass_trace st c f /\
    res = Ok tt (SingpertPass.next st c f) /\
    e = SingpertPass.err_est st c f /\ n = Singpert.ndof st.
Proof.
  intros Hit Hin.
  destruct (ls_solve (Singpert.mesh st, Singpert.space st)) as [c|] eqn:Hc.
  - destruct (rs_solve (Singpert.mesh st, Singpert.space st)) as [f|] eqn:Hr.
    + rewrite (singpert_iteration_eq st c f Hc Hr) in Hit. injection Hit as <- <-.
      exists c, f. repeat split; auto.
      all: unfold SingpertPass.pass_trace in Hin;
        destruct (SingpertPass.stops st c f); cbn in Hin;
        repeat (destruct Hin as [Hin|Hin]; [try discriminate Hin|]);
        try contradiction; now injection Hin.
    + rewrite (singpert_ref_abort_eq st c Hc Hr) in Hit. injection Hit as <- <-.
      cbn in Hin. repeat (destruct Hin as [Hin|Hin]; [discriminate Hin|]). contradiction.
  - rewrite (singpert_iteration_coarse_abort st Hc) in Hit. injection Hit as <- <-.
    cbn in Hin. repeat (destruct Hin as [Hin|Hin]; [discriminate Hin|]). contradiction.
Qed.
End SingpertStopTest.

(** X8: the stopping test of [singpert].  A pass whose test finds the
    estimate below [ERR_STOP] sets [done], calls neither [adapt] nor
    [assign_dofs], leaves mesh, space and DOF count as they are, and
    ends the loop.  Any other pass calls [adapt] once, whatever the DOF
    count is, and then [assign_dofs]; it sets [done] exactly when the
    re-enumerated DOF count is at or above [NDOF_STOP].  The flag that
    [adapt] returns is not consulted. *)
Theorem singpert_stop_test (L : Hermes2DLegacy) (st : Singpert.state)
    (t : list (event LSpace)) (res : res Singpert.state unit) (e : float) (n : Z) :
  Singpert.iteration st = (t, res) ->
  In (EvStopCheck e n) t ->
  Singpert.done st = false ->
  n = Singpert.ndof st /\
  exists st',
    res = Ok tt st' /\
    if (e <? Singpert.ERR_STOP)%float
    then
      existsb is_adapt t = false /\
      Singpert.done st' = true /\
      Singpert.mesh st' = Singpert.mesh st /\
      Singpert.space st' = Singpert.space st /\
      Singpert.ndof st' = Singpert.ndof st /\
      forall fuel, Singpert.adaptivity_loop (S fuel) st = (t, Ok LoopDone st')
    else
      exists hp,
        let a := hp_adapt hp Singpert.THRESHOLD Singpert.STRATEGY Singpert.selector
                          Singpert.MESH_REGULARITY (Singpert.mesh st, Singpert.space st) in
        let nd := assign_dofs (snd (fst a)) in
        count_events is_adapt t = 1%nat /\
        Singpert.mesh st' = fst (fst a) /\
        Singpert.space st' = snd nd /\
        Singpert.ndof st' = fst nd /\
        Singpert.done st' = (Singpert.NDOF_STOP <=? fst nd)%Z.
Proof.
  intros Hit Hin Hnot.
  destruct (singpert_check_inv st t res e n Hit Hin)
    as (c & f & Hc & Hr & -> & -> & -> & ->).
  split; [reflexivity|].
  exists (SingpertPass.next st c f). split; [reflexivity|].
  destruct (singpert_next_spec st c f) as (Hd & Hm & Hs & Hn & _).
  fold (SingpertPass.stops st c f).
  unfold SingpertPass.pass_trace.
  destruct (SingpertPass.stops st c f) eqn:Hstops.
  - cbn [orb] in Hd. repeat split; auto.
    intros fuel. unfold Singpert.adaptivity_loop.
    rewrite do_while_step, (singpert_iteration_eq st c f Hc Hr), Hd. cbn [Bool.eqb].
    unfold SingpertPass.pass_trace. now rewrite Hstops.
  - exists (snd (SingpertPass.estimator st c f)). cbv zeta.
    fold (SingpertPass.adapted st c f). fold (SingpertPass.renumbered st c f).
    rewrite Hnot in Hd. cbn [orb] in Hd. repeat split; auto.
Qed.

(** The estimate of [Toy.refining] is 5 percent on the first pass of
    [singpert]: the pass adapts, and the 43 DOFs counted afterwards are
    below the cap. *)
Lemma singpert_stop_test_witness :
  40%Z = Singpert.ndof (L := Toy.legacy Toy.refining) Singpert.init_state /\
  exists st',
    snd (Singpert.iteration (L := Toy.legacy Toy.refining) Singpert.init_state) = Ok tt st' /\
    exists hp,
      let a := hp_adapt hp Singpert.THRESHOLD Singpert.STRATEGY Singpert.selector
                        Singpert.MESH_REGULARITY
                        (Singpert.mesh Singpert.init_state,
                         Singpert.space Singpert.init_state) in
      let nd := assign_dofs (snd (fst a)) in
      count_events is_adapt
        (fst (Singpert.iteration (L := Toy.legacy Toy.refining) Singpert.init_state))
        = 1%nat /\
      Singpert.mesh st' = fst (fst a) /\
      Singpert.space st' = snd nd /\
      Singpert.ndof st' = fst nd /\
      Singpert.done st' = (Singpert.NDOF_STOP <=? fst nd)%Z.
Proof.
  apply (singpert_stop_test (Toy.legacy Toy.refining) Singpert.init_state
           _ _ 5%float 40%Z).
  - apply surjective_pairing.
  - vm_compute. do 4 right. left. reflexivity.
  - reflexivity.
Defined.

(** X9: a failed solve in [singpert].  After [n] completed passes that
    left the variables [s], a failing coarse solve ends every longer run
    with [SolverError] right at that solve; a failing reference solve
    ends it after the coarse solve and the exact-error measurement.  In
    both cases no stopping test and no [adapt] follow, and mesh, space
    and DOF count are those of the last completed pass; the pass counter
    has already been advanced, and after a failing reference solve the
    coarse solution is the new one. *)
Theorem singpert_solver_failure (L : Hermes2DLegacy) (n : nat)
    (s : Singpert.state) (t : list (event LSpace)) (fuel : nat) :
  completed_iterations Singpert.iteration
      (fun st => Bool.eqb (Singpert.done st) false) n Singpert.init_state = Some (t, s) ->
  (n < fuel)%nat ->
  (ls_solve (Singpert.mesh s, Singpert.space s) = None ->
   Singpert.main fuel = (t ++ [EvCoarseSolve], Crashed SolverError (Singpert.incr_it s))) /\
  (forall c,
      ls_solve (Singpert.mesh s, Singpert.space s) = Some c ->
      rs_solve (Singpert.mesh s, Singpert.space s) = None ->
      exists sf,
        Singpert.main fuel =
          (t ++ [EvCoarseSolve; EvExactError; EvRefSolve], Crashed SolverError sf) /\
        Singpert.mesh sf = Singpert.mesh s /\
        Singpert.space sf = Singpert.space s /\
        Singpert.ndof sf = Singpert.ndof s /\
        Singpert.it sf = (Singpert.it s + 1)%Z /\
        Singpert.sln_coarse sf = c).
Proof.
  intros Hn Hfuel. split.
  - intros Hc. unfold Singpert.main, Singpert.adaptivity_loop.
    rewrite (do_while_abort_after _ _ n _ _ _ _ _ _ Hn
               (singpert_iteration_coarse_abort s Hc) fuel Hfuel).
    reflexivity.
  - intros c Hc Hr.
    exists (Singpert.set_sln_coarse c (Singpert.incr_it s)).
    unfold Singpert.main, Singpert.adaptivity_loop.
    rewrite (do_while_abort_after _ _ n _ _ _ _ _ _ Hn
               (singpert_ref_abort_eq s c Hc Hr) fuel Hfuel).
    repeat split.
Qed.

(** Two runs on a problem of 40 DOFs that [adapt] takes to 43 DOFs in
    the first pass.  With a coarse solver that reaches 40 DOFs the second
    coarse solve fails; with a reference solver that reaches 40 DOFs the
    second coarse solve succeeds and the second reference solve fails.
    Both runs end there, with the variables of the first pass. *)
Lemma singpert_solver_failure_witness :
  Singpert.main (L := two_solvers 40 100) 3 =
    (SingpertPass.pass_trace (L := two_solvers 40 100) Singpert.init_state tt tt
       ++ [EvCoarseSolve],
     Crashed SolverError
       (Singpert.incr_it
          (SingpertPass.next (L := two_solvers 40 100) Singpert.init_state tt tt))) /\
  exists sf,
    Singpert.main (L := two_solvers 100 40) 3 =
      (SingpertPass.pass_trace (L := two_solvers 100 40) Singpert.init_state tt tt
         ++ [EvCoarseSolve; EvExactError; EvRefSolve],
       Crashed SolverError sf) /\
    Singpert.mesh sf = 43%Z /\
    Singpert.space sf = (43%Z, 1%Z) /\
    Singpert.ndof sf = 43%Z /\
    Singpert.it sf = 3%Z /\
    Singpert.sln_coarse sf = tt.
Proof.
  split.
  - apply (proj1 (singpert_solver_failure (two_solvers 40 100) 1
                    (SingpertPass.next (L := two_solvers 40 100) Singpert.init_state tt tt)
                    (SingpertPass.pass_trace (L := two_solvers 40 100)
                       Singpert.init_state tt tt)
                    3 eq_refl (le_n_S 1 2 (le_S 1 1 (le_n 1))))).
    reflexivity.
  - apply (proj2 (singpert_solver_failure (two_solvers 100 40) 1
                    (SingpertPass.next (L := two_solvers 100 40) Singpert.init_state tt tt)
                    (SingpertPass.pass_trace (L := two_solvers 100 40)
                       Singpert.init_state tt tt)
                    3 eq_refl (le_n_S 1 2 (le_S 1 1 (le_n 1)))) tt);
      reflexivity.
Defined.

Section SingpertStall.
Context {L : Hermes2DLegacy}.

Hypothesis solvers_total :
  forall c, ls_solve c <> None /\ rs_solve c <> None.

Hypothesis estimate_above :
  forall sp c f, (fst (hp_calc_error sp c f) * 100 <? Singpert.ERR_STOP)%float = false.

Hypothesis count_below :
  forall sp, (fst (assign_dofs sp) < Singpert.NDOF_STOP)%Z.

Lemma singpert_stalled_run (fuel : nat) :
  forall st, Singpert.done st = false ->
    exists tr sf,
      Singpert.adaptivity_loop fuel st = (tr, Ok OutOfFuel sf) /\
      passes tr = fuel /\ count_events is_adapt tr = fuel.
Proof.
  induction fuel as [|fuel IH]; intros st Hst.
  - exists [], st. repeat split.
  - destruct (ls_solve (Singpert.mesh st, Singpert.space st)) as [c|] eqn:Hc;
      [|now apply (proj1 (solvers_total _)) in Hc].
    destruct (rs_solve (Singpert.mesh st, Singpert.space st)) as [f|] eqn:Hr;
      [|now apply (proj2 (solvers_total _)) in Hr].
    destruct (singpert_next_spec st c f) as (Hd & _).
    assert (Hstops : SingpertPass.stops st c f = false) by apply estimate_above.
    rewrite Hstops, Hst in Hd. cbn [orb] in Hd.
    assert (Hcap : (Singpert.NDOF_STOP <=? fst (SingpertPass.renumbered st c f))%Z = false).
    { apply Z.leb_gt. apply count_below. }
    rewrite Hcap in Hd.
    destruct (IH (SingpertPass.next st c f) Hd) as (tr & sf & Hrun & Hp & Ha).
    exists (SingpertPass.pass_trace st c f ++ tr), sf.
    unfold Singpert.adaptivity_loop in *.
    rewrite do_while_step, (singpert_iteration_eq st c f Hc Hr), Hd. cbn [Bool.eqb].
    rewrite Hrun. cbn [fst snd]. split; [reflexivity|].
    unfold passes in *. rewrite !count_events_app, Hp, Ha.
    unfold SingpertPass.pass_trace. rewrite Hstops. split; reflexivity.
Qed.
End SingpertStall.

(** X10: [singpert] keeps refining even when [adapt] reports that there
    is nothing left to refine.  With solvers that do not fail, an
    estimate that never falls below [ERR_STOP] and a DOF count that
    [assign_dofs] never finds at [NDOF_STOP] or more, a run makes as many
    passes, each with a call of [adapt], as its bound allows, and [main]
    does not return, whatever flag [adapt] returns. *)
Theorem singpert_ignores_adapt_flag (L : Hermes2DLegacy) :
  (forall c, ls_solve c <> None /\ rs_solve c <> None) ->
  (forall sp c f, (fst (hp_calc_error sp c f) * 100 <? Singpert.ERR_STOP)%float = false) ->
  (forall sp, (fst (assign_dofs sp) < Singpert.NDOF_STOP)%Z) ->
  forall fuel,
    exists tr sf,
      Singpert.main fuel = (tr, Unfinished sf) /\
      passes tr = fuel /\ count_events is_adapt tr = fuel.
Proof.
  intros Hsolve Hest Hcount fuel.
  destruct (singpert_stalled_run Hsolve Hest Hcount fuel Singpert.init_state eq_refl)
    as (tr & sf & Hrun & Hp & Ha).
  exists tr, sf. unfold Singpert.main. rewrite Hrun. auto.
Qed.

(** A refinement that changes nothing and says so: [singpert] goes on. *)
Lemma singpert_ignores_adapt_flag_witness :
  exists tr sf,
    Singpert.main (L := Counter.legacy Counter.exhausted) 6 = (tr, Unfinished sf) /\
    passes tr = 6%nat /\ count_events is_adapt tr = 6%nat.
Proof.
  apply (singpert_ignores_adapt_flag (Counter.legacy Counter.exhausted)).
  - intros c. split; cbn; discriminate.
  - intros sp c f. vm_compute. reflexivity.
  - intros sp. vm_compute. reflexivity.
Defined.

(** The same refinement ends [crack] and [bracket] after one pass: there
    the flag that [adapt] returns is assigned to [done]. *)
Example adapt_flag_ends_elasticity_runs :
  snd (Crack.main (L := Counter.lib Counter.exhausted) 6) =
    Returned 0 (@Build_state (Counter.lib Counter.exhausted)
                  tt tt 100%Z 100%Z tt tt tt tt 2 true) /\
  passes (fst (Crack.main (L := Counter.lib Counter.exhausted) 6)) = 1%nat /\
  passes (fst (Bracket.main (L := Counter.lib Counter.exhausted) 6)) = 1%nat.
Proof. vm_compute. repeat split. Qed.

(** ** Invariants of the variables *)

Section LoopInvariant.
Context {E St : Type}.
Variable body : M E St unit.
Variable cond : St -> bool.
Variable P : St -> Prop.

Hypothesis body_keeps :
  forall s t s', P s -> body s = (t, Ok tt s') -> P s'.
Hypothesis abort_keeps :
  forall s t e s', P s -> body s = (t, Abort e s') -> P s'.

(** A property of the variables that every pass keeps, completed or
    aborted, holds of the variables a run leaves behind. *)
Lemma do_while_invariant (fuel : nat) :
  forall s, P s ->
    match snd (do_while body cond fuel s) with
    | Ok _ sf | Abort _ sf => P sf
    end.
Proof.
  induction fuel as [|fuel IH]; intros s Hs.
  - exact Hs.
  - rewrite do_while_step.
    destruct (body s) as [t [[] s'|e s']] eqn:Hb.
    + destruct (cond s'); cbn [snd].
      * apply IH. eapply body_keeps; eauto.
      * eapply body_keeps; eauto.
    + cbn [snd]. eapply abort_keeps; eauto.
Qed.
End LoopInvariant.

(** X11: in [singpert] the DOF numbering is always up to date.  Whatever
    way a run ends, the space it leaves behind is one that
    [assign_dofs] has enumerated, and the variable [ndof] holds the DOF
    count that enumeration returned: the driver enumerates the space
    before the loop and again after every call of [adapt], and nothing
    else changes the space. *)
Theorem singpert_space_enumerated (L : Hermes2DLegacy) (fuel : nat) :
  match snd (Singpert.main fuel) with
  | Returned _ sf | Crashed _ sf | Unfinished sf =>
      exists sp,
        Singpert.space sf = snd (assign_dofs sp) /\
        Singpert.ndof sf = fst (assign_dofs sp)
  end.
Proof.
  pose proof (do_while_invariant Singpert.iteration
                (fun st => Bool.eqb (Singpert.done st) false)
                (fun st => exists sp,
                     Singpert.space st = snd (assign_dofs sp) /\
                     Singpert.ndof st = fst (assign_dofs sp))) as Hinv.
  unfold Singpert.main, Singpert.adaptivity_loop.
  specialize (Hinv ltac:(
    intros s t s' Hs Hb;
    destruct (ls_solve (Singpert.mesh s, Singpert.space s)) as [c|] eqn:Hc;
      [|rewrite (singpert_iteration_coarse_abort s Hc) in Hb; discriminate];
    destruct (rs_solve (Singpert.mesh s, Singpert.space s)) as [f|] eqn:Hr;
      [|rewrite (singpert_ref_abort_eq s c Hc Hr) in Hb; discriminate];
    rewrite (singpert_iteration_eq s c f Hc Hr) in Hb; injection Hb as _ <-;
    destruct (singpert_next_spec s c f) as (_ & _ & Hsp & Hn & _);
    rewrite Hsp, Hn;
    destruct (SingpertPass.stops s c f);
      [exact Hs | exists (snd (fst (SingpertPass.adapted s c f))); split; reflexivity])).
  specialize (Hinv ltac:(
    intros s t e s' Hs Hb;
    destruct (ls_solve (Singpert.mesh s, Singpert.space s)) as [c|] eqn:Hc;
      [|rewrite (singpert_iteration_coarse_abort s Hc) in Hb;
        injection Hb as _ _ <-; exact Hs];
    destruct (rs_solve (Singpert.mesh s, Singpert.space s)) as [f|] eqn:Hr;
      [rewrite (singpert_iteration_eq s c f Hc Hr) in Hb; discriminate|];
    rewrite (singpert_ref_abort_eq s c Hc Hr) in Hb;
    injection Hb as _ _ <-; exact Hs)).
  specialize (Hinv fuel Singpert.init_state).
  destruct (do_while Singpert.iteration _ fuel Singpert.init_state)
    as [tr [[] sf|e sf]]; cbn [snd] in Hinv |- *; apply Hinv.
  all: exists (set_uniform_order Singpert.P_INIT
                 (l_H1Space_new
                    (Nat.iter (Z.to_nat Singpert.INIT_REF_NUM) l_refine_all_elements
                       (l_load "square_quad.mesh")) Singpert.bc_types));
    split; reflexivity.
Qed.

(** ** Boundary conditions and surface forms *)

(** The markers on which a weak form registers surface forms. *)
Lemma surface_markers (wf : WeakForm) (i : Z) (f : form_id) (m : Z) :
  In (vector_form_surf i f m) (wf_entries wf) ->
  In m (flat_map (fun en => match en with
                            | vector_form_surf _ _ m' => [m']
                            | matrix_form _ _ _ _ => []
                            end) (wf_entries wf)).
Proof.
  intros Hin. apply in_flat_map. exists (vector_form_surf i f m).
  split; [exact Hin | now left].
Qed.

(** X12: the load is applied on a natural boundary.  In [crack] and in
    [bracket] every surface form of the weak formulation is registered
    on a marker that the driver's own [bc_types] classifies as natural,
    never on the essential boundary; and all three drivers classify the
    same markers as essential, namely marker 1 alone. *)
Theorem surface_forms_on_natural_boundary :
  (forall i f m,
      In (vector_form_surf i f m) (wf_entries Crack.wf) ->
      Crack.bc_types_xy m = BC_NATURAL /\ m <> Crack.BDY_LEFT) /\
  (forall i f m,
      In (vector_form_surf i f m) (wf_entries Bracket.wf) ->
      Bracket.bc_types m = BC_NATURAL /\ m <> Bracket.BDY_LEFT) /\
  (forall m,
      (Crack.bc_types_xy m = BC_ESSENTIAL <-> m = 1%Z) /\
      Bracket.bc_types m = Crack.bc_types_xy m /\
      Singpert.bc_types m = Crack.bc_types_xy m).
Proof.
  split; [|split].
  - intros i f m Hin. apply surface_markers in Hin. cbn in Hin.
    destruct Hin as [<-|[]]. split; [reflexivity | discriminate].
  - intros i f m Hin. apply surface_markers in Hin. cbn in Hin.
    destruct Hin as [<-|[]]. split; [reflexivity | discriminate].
  - intros m. unfold Crack.bc_types_xy, Bracket.bc_types, Singpert.bc_types,
      Crack.BDY_LEFT, Bracket.BDY_LEFT.
    destruct (Z.eqb_spec m 1); repeat split; intros; try congruence; try discriminate.
Qed.

(** [bracket] on the problem that is converged from the start: the loop
    is left at the first stopping test, and the solutions it ends with
    are those of the final coarse problem. *)
Lemma final_solutions_of_last_pass_witness :
  exists s,
    @solve_linear (Toy.lib Toy.converged) (reference_spaces_spec s) Bracket.wf SOLVER_UMFPACK
      = Some (ref_u_sln (Toy.vars Toy.converged 16 2 true),
              ref_v_sln (Toy.vars Toy.converged 16 2 true)) /\
    (u_sln (Toy.vars Toy.converged 16 2 true), v_sln (Toy.vars Toy.converged 16 2 true)) =
      project_global_default (u_space s, v_space s)
        (ref_u_sln (Toy.vars Toy.converged 16 2 true),
         ref_v_sln (Toy.vars Toy.converged 16 2 true)) /\
    ((exists q x,
         fst (Bracket.adaptivity_loop (L := Toy.lib Toy.converged) 3 Bracket.init_state)
           = q ++ [x] /\
         is_stop_check x = true /\
         coarse (Toy.vars Toy.converged 16 2 true) = coarse s) \/
     (exists q x hp,
         fst (Bracket.adaptivity_loop (L := Toy.lib Toy.converged) 3 Bracket.init_state)
           = q ++ [x] /\
         is_adapt x = true /\
         coarse (Toy.vars Toy.converged 16 2 true) =
           fst (adapt hp [Bracket.selector] Bracket.THRESHOLD
                      Bracket.STRATEGY Bracket.MESH_REGULARITY (coarse s)))).
Proof.
  apply (proj2 final_solutions_of_last_pass (Toy.lib Toy.converged) 3%nat Bracket.init_state).
  vm_compute. reflexivity.
Defined.
